(** * Lightweight TSRPC server: registry, codec, flows and dispatcher

    A shallow embedding of [RuntimeProtocolGenerator] (service registry,
    validators, codec) and of [LightweightServer] (the invocation
    dispatcher [handleApiCall] / [handleMsgCall]), followed by the
    properties of the design document stated and settled on it.

    Conventions of the embedding.
    - A JavaScript string is a [string]; one character stands for one
      code unit, so [String.length] is the [.length] of the source.
    - A payload typed [any] is a [value].
    - A plain object literal used as a dictionary ([{}]) is a finite map
      of its own properties together with the members it inherits from
      [Object.prototype]; a [Map] is a finite map and nothing else.
    - A user callback (validator, flow hook, handler) is a function to the
      way its call completes.  Callbacks that never settle are outside the
      model, as is the 2^53 ceiling of [nextId].
    - The logger of the call context records its calls in the trace of the
      dispatcher; it does not throw. *)

From Stdlib Require Import ZArith NArith String Ascii List Bool Lia.
From stdpp Require Import gmap strings list fin_maps pretty.
Import ListNotations.

#[local] Set Warnings "-register-all".

Open Scope string_scope.
Open Scope list_scope.

(** ** JavaScript values, exceptions and completions *)

Module JS.

(** Payloads: the values a request, a response or a message can be. *)
Inductive value : Type :=
| VUndefined
| VNull
| VBool (b : bool)
| VNum (n : Z)
| VStr (s : string)
| VArr (items : list value)
| VObj (fields : list (string * value)).

Definition is_object (v : value) : bool :=
  match v with
  | VArr _ | VObj _ => true
  | _ => false
  end.

(** What a [throw] statement (or a rejected promise) can carry, as far
    as the [catch] blocks of the dispatcher can tell values apart:
    - [ThrNullish]: [null] or [undefined] ([throw undefined],
      [Promise.reject()]); reading a property of it throws;
    - [ThrLightweight m c t]: an instance of [LightweightError];
    - [ThrOther m c t]: any other value, with its [message], [code] and
      [type] properties where it has them ([None] for [undefined]). *)
Inductive thrown : Type :=
| ThrNullish
| ThrLightweight (message code type : string)
| ThrOther (message : option string) (code type : option string).

(** [new Error(m)] and the engine's [TypeError]. *)
Definition Error (m : string) : thrown := ThrOther (Some m) None None.
Definition TypeError (m : string) : thrown := ThrOther (Some m) None None.

(** [new LightweightError(message, code = "SERVER_ERROR", type = "ServerError")] *)
Definition LightweightError (message : string) (code type : option string) : thrown :=
  ThrLightweight message (default "SERVER_ERROR" code) (default "ServerError" type).

(** How a synchronous call completes. *)
Inductive completion (A : Type) : Type :=
| Normal (a : A)
| Throw (t : thrown).
Arguments Normal {A} a.
Arguments Throw {A} t.

(** How a call of a function typed [Promise<A> | A] completes: the
    function may throw before it returns, return a plain value, or
    return a promise that is later fulfilled or rejected. *)
Inductive async_completion (A : Type) : Type :=
| ThrowsSync (t : thrown)
| Returns (a : A)
| Resolves (a : A)
| Rejects (t : thrown).
Arguments ThrowsSync {A} t.
Arguments Returns {A} a.
Arguments Resolves {A} a.
Arguments Rejects {A} t.

(** [await f(x)]: a synchronous throw and a rejection both surface as
    an exception at the [await]. *)
Definition await {A : Type} (c : async_completion A) : completion A :=
  match c with
  | ThrowsSync t => Throw t
  | Returns a => Normal a
  | Resolves a => Normal a
  | Rejects t => Throw t
  end.

(** The property names every object literal inherits from
    [Object.prototype]. *)
Definition Object_prototype_keys : list string :=
  [ "constructor"; "__defineGetter__"; "__defineSetter__"; "hasOwnProperty";
    "__lookupGetter__"; "__lookupSetter__"; "isPrototypeOf";
    "propertyIsEnumerable"; "toString"; "valueOf"; "__proto__";
    "toLocaleString" ].

(** The result of reading [o[key]] on an object literal [o]: an own
    property, an inherited member of [Object.prototype], or [undefined]. *)
Inductive property (A : Type) : Type :=
| Own (a : A)
| Inherited (key : string)
| Missing.
Arguments Own {A} a.
Arguments Inherited {A} key.
Arguments Missing {A}.

Definition get {A : Type} (o : gmap string A) (key : string) : property A :=
  match o !! key with
  | Some a => Own a
  | None =>
      if bool_decide (key ∈ Object_prototype_keys) then Inherited key
      else Missing
  end.

(** Calling an inherited member [m(data)] as a plain function, with
    [this] undefined, and taking the truthiness of what it returns:
    [Object(data)] and [toString()] return a truthy value,
    [isPrototypeOf] returns [false] on a primitive before it looks at
    [this], [__proto__] is no function, and the others convert [this]
    to an object first, which throws. *)
Definition call_inherited (key : string) (data : value) : completion bool :=
  if String.eqb key "constructor" then Normal true
  else if String.eqb key "toString" then Normal true
  else if String.eqb key "isPrototypeOf" then
    if is_object data
    then Throw (TypeError "Cannot convert undefined or null to object")
    else Normal false
  else if String.eqb key "__proto__" then
    Throw (TypeError "validator is not a function")
  else Throw (TypeError "Cannot convert undefined or null to object").

End JS.
Import JS.

(** ** LightweightTypes *)

(** A validator: [(data: any) => boolean]; it may throw. *)
Definition Validator : Type := value -> completion bool.

(** [{ req?, res? }], the entry of [validators.api] and of
    [customValidators]. *)
Record ApiValidators : Type := {
  req : option Validator;
  res : option Validator
}.

Inductive SerializationMode : Type := json | binary | auto.

(** [LightweightProtocolOptions]: every field is optional. *)
Record LightweightProtocolOptions : Type := {
  enableValidation : option bool;
  debug : option bool;
  serializationMode : option SerializationMode;
  customValidators : option (gmap string ApiValidators)
}.

Definition no_options : LightweightProtocolOptions :=
  {| enableValidation := None; debug := None;
     serializationMode := None; customValidators := None |}.

(** [LightweightServiceMap] *)
Record LightweightServiceMap : Type := {
  apiName2Id : gmap string N;
  id2ApiName : gmap N string;
  msgName2Id : gmap string N;
  id2MsgName : gmap N string;
  nextId : N
}.

(** [RuntimeProtocol]: the name lists and the [validators] object. *)
Record RuntimeProtocol : Type := {
  apiNames : list string;
  msgNames : list string;
  validators_api : gmap string ApiValidators;
  validators_msg : gmap string Validator
}.

(** ** RuntimeProtocolGenerator *)

Module RuntimeProtocolGenerator.

(** [Required<LightweightProtocolOptions>] *)
Record options_t : Type := {
  opt_enableValidation : bool;
  opt_debug : bool;
  opt_serializationMode : SerializationMode;
  opt_customValidators : gmap string ApiValidators
}.

Record t : Type := {
  serviceMap : LightweightServiceMap;
  protocol : RuntimeProtocol;
  options : options_t
}.

Definition empty_serviceMap : LightweightServiceMap :=
  {| apiName2Id := ∅; id2ApiName := ∅; msgName2Id := ∅; id2MsgName := ∅;
     nextId := 0%N |}.

Definition empty_protocol : RuntimeProtocol :=
  {| apiNames := []; msgNames := []; validators_api := ∅; validators_msg := ∅ |}.

(** [constructor(options = {})] *)
Definition new (o : LightweightProtocolOptions) : t :=
  {| options :=
       {| opt_enableValidation := default true o.(enableValidation);
          opt_debug := default false o.(debug);
          opt_serializationMode := default auto o.(serializationMode);
          opt_customValidators := default ∅ o.(customValidators) |};
     serviceMap := empty_serviceMap;
     protocol := empty_protocol |}.

(** What [registerApi] / [registerMsg] / [getServiceId] hand back: the
    number stored for the name, or the member of [Object.prototype]
    that the lookup found instead. *)
Inductive registered : Type :=
| ServiceId (id : N)
| PrototypeMember (key : string).

(** [includes] then [push] on a name list. *)
Definition push_if_absent (names : list string) (name : string) : list string :=
  if bool_decide (name ∈ names) then names else names ++ [name].

(** [registerApi(apiName, validator?)]; the debug print is console
    output only and is left out. *)
Definition registerApi (apiName : string) (validator : option ApiValidators)
    (g : t) : registered * t :=
  match JS.get g.(serviceMap).(apiName2Id) apiName with
  | Own id => (ServiceId id, g)
  | Inherited key => (PrototypeMember key, g)
  | Missing =>
      let serviceId := g.(serviceMap).(nextId) in
      let sm :=
        {| apiName2Id := <[apiName := serviceId]> g.(serviceMap).(apiName2Id);
           id2ApiName := <[serviceId := apiName]> g.(serviceMap).(id2ApiName);
           msgName2Id := g.(serviceMap).(msgName2Id);
           id2MsgName := g.(serviceMap).(id2MsgName);
           nextId := (serviceId + 1)%N |} in
      let p :=
        {| apiNames := push_if_absent g.(protocol).(apiNames) apiName;
           msgNames := g.(protocol).(msgNames);
           validators_api :=
             match validator with
             | Some v =>
                 if g.(options).(opt_enableValidation)
                 then <[apiName := v]> g.(protocol).(validators_api)
                 else g.(protocol).(validators_api)
             | None => g.(protocol).(validators_api)
             end;
           validators_msg := g.(protocol).(validators_msg) |} in
      (ServiceId serviceId,
       {| serviceMap := sm; protocol := p; options := g.(options) |})
  end.

(** [registerMsg(msgName, validator?)] *)
Definition registerMsg (msgName : string) (validator : option Validator)
    (g : t) : registered * t :=
  match JS.get g.(serviceMap).(msgName2Id) msgName with
  | Own id => (ServiceId id, g)
  | Inherited key => (PrototypeMember key, g)
  | Missing =>
      let serviceId := g.(serviceMap).(nextId) in
      let sm :=
        {| apiName2Id := g.(serviceMap).(apiName2Id);
           id2ApiName := g.(serviceMap).(id2ApiName);
           msgName2Id := <[msgName := serviceId]> g.(serviceMap).(msgName2Id);
           id2MsgName := <[serviceId := msgName]> g.(serviceMap).(id2MsgName);
           nextId := (serviceId + 1)%N |} in
      let p :=
        {| apiNames := g.(protocol).(apiNames);
           msgNames := push_if_absent g.(protocol).(msgNames) msgName;
           validators_api := g.(protocol).(validators_api);
           validators_msg :=
             match validator with
             | Some v =>
                 if g.(options).(opt_enableValidation)
                 then <[msgName := v]> g.(protocol).(validators_msg)
                 else g.(protocol).(validators_msg)
             | None => g.(protocol).(validators_msg)
             end |} in
      (ServiceId serviceId,
       {| serviceMap := sm; protocol := p; options := g.(options) |})
  end.

Inductive service_kind : Type := api | msg.

Definition as_registered (p : property N) : option registered :=
  match p with
  | Own id => Some (ServiceId id)
  | Inherited key => Some (PrototypeMember key)
  | Missing => None
  end.

(** [getServiceId(serviceName, type)] *)
Definition getServiceId (g : t) (serviceName : string) (type : service_kind)
    : option registered :=
  match type with
  | api => as_registered (JS.get g.(serviceMap).(apiName2Id) serviceName)
  | msg => as_registered (JS.get g.(serviceMap).(msgName2Id) serviceName)
  end.

(** [getServiceName(serviceId, type)]: the keys are numbers, which no
    member of [Object.prototype] is named after. *)
Definition getServiceName (g : t) (serviceId : N) (type : service_kind)
    : option string :=
  match type with
  | api => g.(serviceMap).(id2ApiName) !! serviceId
  | msg => g.(serviceMap).(id2MsgName) !! serviceId
  end.

(** [o[name]?.req] and [o[name]?.res]: a member inherited from
    [Object.prototype] has neither property. *)
Definition entry_req (o : gmap string ApiValidators) (name : string) : option Validator :=
  match JS.get o name with
  | Own e => e.(req)
  | Inherited _ | Missing => None
  end.

Definition entry_res (o : gmap string ApiValidators) (name : string) : option Validator :=
  match JS.get o name with
  | Own e => e.(res)
  | Inherited _ | Missing => None
  end.

(** [validateRequest(apiName, data)]; the result is the truth value the
    caller tests. *)
Definition validateRequest (g : t) (apiName : string) (data : value) : completion bool :=
  if negb g.(options).(opt_enableValidation) then Normal true
  else
    match entry_req g.(protocol).(validators_api) apiName with
    | Some validator => validator data
    | None =>
        match entry_req g.(options).(opt_customValidators) apiName with
        | Some customValidator => customValidator data
        | None => Normal true
        end
    end.

(** [validateResponse(apiName, data)] *)
Definition validateResponse (g : t) (apiName : string) (data : value) : completion bool :=
  if negb g.(options).(opt_enableValidation) then Normal true
  else
    match entry_res g.(protocol).(validators_api) apiName with
    | Some validator => validator data
    | None =>
        match entry_res g.(options).(opt_customValidators) apiName with
        | Some customValidator => customValidator data
        | None => Normal true
        end
    end.

(** [validateMessage(msgName, data)]: whatever [validators.msg[msgName]]
    yields is called when it is truthy, an inherited member included. *)
Definition validateMessage (g : t) (msgName : string) (data : value) : completion bool :=
  if negb g.(options).(opt_enableValidation) then Normal true
  else
    match JS.get g.(protocol).(validators_msg) msgName with
    | Own validator => validator data
    | Inherited key => call_inherited key data
    | Missing => Normal true
    end.

(** The platform functions the codec calls.  [JSON.stringify] returns
    [undefined] ([None]) for a value without a JSON text; [JSON.parse]
    throws on malformed text. *)
Record Platform : Type := {
  JSON_stringify : value -> option string;
  JSON_parse : string -> completion value;
  TextEncoder_encode : string -> list Byte.byte;
  TextDecoder_decode : list Byte.byte -> string
}.

(** [string | Uint8Array], and the [undefined] that [JSON.stringify]
    can return in [json] mode. *)
Inductive serialized : Type :=
| SString (s : string)
| SBytes (b : list Byte.byte)
| SUndefined.

(** [serialize(data, type = this.options.serializationMode)] *)
Definition serialize (P : Platform) (g : t) (data : value)
    (type : option SerializationMode) : completion serialized :=
  let type := default g.(options).(opt_serializationMode) type in
  let chosen :=
    match type with
    | auto =>
        match P.(JSON_stringify) data with
        | Some jsonStr =>
            Normal (if (1024 <? String.length jsonStr)%nat then binary else json)
        | None =>
            Throw (TypeError "Cannot read properties of undefined (reading 'length')")
        end
    | _ => Normal type
    end in
  match chosen with
  | Throw e => Throw e
  | Normal json =>
      Normal (match P.(JSON_stringify) data with
              | Some jsonStr => SString jsonStr
              | None => SUndefined
              end)
  | Normal _ =>
      (* [encode(undefined)] encodes the empty string *)
      Normal (SBytes (P.(TextEncoder_encode) (default "" (P.(JSON_stringify) data))))
  end.

(** [deserialize(data)]; [decode(undefined)] is the empty string. *)
Definition deserialize (P : Platform) (data : serialized) : completion value :=
  match data with
  | SString s => P.(JSON_parse) s
  | SBytes b => P.(JSON_parse) (P.(TextDecoder_decode) b)
  | SUndefined => P.(JSON_parse) (P.(TextDecoder_decode) [])
  end.

(** [reset()] *)
Definition reset (g : t) : t :=
  {| serviceMap := empty_serviceMap; protocol := empty_protocol;
     options := g.(options) |}.

End RuntimeProtocolGenerator.

(** ** Call context, handlers and flows *)

(** [LightweightCallContext], without its logger (see [Logger] below). *)
Record LightweightCallContext : Type := {
  connId : string;
  clientIp : string;
  startTime : N;
  extra : list (string * value)
}.

(** [LightweightApiReturn]: [{isSucc: true, res}] or
    [{isSucc: false, err: {message, code, type}}]. *)
Record ApiError : Type := {
  message : string;
  code : string;
  type : string
}.

Inductive LightweightApiReturn : Type :=
| Succ (res : value)
| Fail (err : ApiError).

Definition isSucc (r : LightweightApiReturn) : bool :=
  match r with
  | Succ _ => true
  | Fail _ => false
  end.

Definition LightweightApiHandler : Type :=
  value -> LightweightCallContext -> async_completion value.

Definition LightweightMsgHandler : Type :=
  value -> LightweightCallContext -> async_completion unit.

(** One run of a flow hook [(data, context, next) => Promise<void> | void]:
    whether it has invoked [next] by the time its call completes, and how
    the call completes. *)
Record hook_run : Type := {
  invokes_next : bool;
  outcome : async_completion unit
}.

Definition LightweightMiddleware (D : Type) : Type :=
  D -> LightweightCallContext -> hook_run.

Record PreApiCallData : Type := {
  pac_apiName : string; pac_req : value; pac_connId : string
}.

Record PreApiReturnData : Type := {
  par_apiName : string; par_res : value; par_connId : string
}.

Record PostApiCallData : Type := {
  poc_apiName : string; poc_req : value; poc_res : value; poc_connId : string
}.

Record PreMsgReceiveData : Type := {
  pmr_msgName : string; pmr_msg : value; pmr_connId : string
}.

(** [LightweightFlows], restricted to the points the two dispatch
    functions read. *)
Record LightweightFlows : Type := {
  preApiCall : option (LightweightMiddleware PreApiCallData);
  preApiReturn : option (LightweightMiddleware PreApiReturnData);
  postApiCall : option (LightweightMiddleware PostApiCallData);
  preMsgReceive : option (LightweightMiddleware PreMsgReceiveData)
}.

Definition no_flows : LightweightFlows :=
  {| preApiCall := None; preApiReturn := None; postApiCall := None;
     preMsgReceive := None |}.

(** ** Observable effects of a dispatch *)

Inductive flow_point : Type :=
| PreApiCall | PreApiReturn | PostApiCall | PreMsgReceive.

Inductive log_level : Type := L_log | L_warn | L_error | L_debug.

(** What a dispatch does besides returning: the callbacks it invokes, the
    message-handler promises it has waited for, and its calls of
    [context.logger].  A line printed by a detached [.catch] callback is
    recorded where the callback is attached. *)
Inductive event : Type :=
| CallHook (point : flow_point)
| CallApiHandler (apiName : string)
| CallMsgHandler (index : nat)
| SettledMsgHandler (index : nat)
| Logger (level : log_level) (text : string).

(** Computations that append to the trace and complete normally or with
    an exception. *)
Definition M (A : Type) : Type := list event -> completion A * list event.

Definition ret {A : Type} (a : A) : M A := fun tr => (Normal a, tr).

Definition raise {A : Type} (t : thrown) : M A := fun tr => (Throw t, tr).

Definition lift {A : Type} (c : completion A) : M A := fun tr => (c, tr).

Definition emit (e : event) : M unit := fun tr => (Normal tt, tr ++ [e]).

Definition bind {A B : Type} (m : M A) (k : A -> M B) : M B :=
  fun tr =>
    match m tr with
    | (Normal a, tr') => k a tr'
    | (Throw t, tr') => (Throw t, tr')
    end.

(** [try { body } catch (error) { handler }] *)
Definition try_catch {A : Type} (body : M A) (handler : thrown -> M A) : M A :=
  fun tr =>
    match body tr with
    | (Normal a, tr') => (Normal a, tr')
    | (Throw t, tr') => handler t tr'
    end.

Declare Scope dispatch_scope.
Delimit Scope dispatch_scope with dispatch.
Notation "x <- m ;; k" := (bind m (fun x => k))
  (at level 100, m at next level, right associativity) : dispatch_scope.
Notation "m ;;; k" := (bind m (fun _ => k))
  (at level 100, right associativity) : dispatch_scope.
Open Scope dispatch_scope.

(** [let shouldContinue = false; await hook(data, context, async () =>
    { shouldContinue = true })], yielding [shouldContinue]. *)
Definition run_gate {D : Type} (point : flow_point)
    (hook : LightweightMiddleware D) (data : D)
    (context : LightweightCallContext) : M bool :=
  emit (CallHook point) ;;;
  lift (await (hook data context).(outcome)) ;;;
  ret (hook data context).(invokes_next).

(** [Promise.resolve(hook(data, context, async () => {})).catch(err =>
    context.logger.error(text, err))]: the call is made at once, so a
    synchronous throw leaves the expression; a rejection reaches the
    [.catch]. *)
Definition run_detached {D : Type} (point : flow_point) (text : string)
    (hook : LightweightMiddleware D) (data : D)
    (context : LightweightCallContext) : M unit :=
  emit (CallHook point) ;;;
  match (hook data context).(outcome) with
  | ThrowsSync t => raise t
  | Rejects t => emit (Logger L_error text)
  | Returns _ | Resolves _ => ret tt
  end.

(** [error.message || fallback] *)
Definition message_or (m : option string) (fallback : string) : string :=
  match m with
  | Some s => if String.eqb s "" then fallback else s
  | None => fallback
  end.

Definition failure (m c t : string) : LightweightApiReturn :=
  Fail {| message := m; code := c; type := t |}.

(** ** LightweightServer *)

Module LightweightServer.

Record t : Type := {
  protocolGenerator : RuntimeProtocolGenerator.t;
  apiHandlers : gmap string LightweightApiHandler;
  msgHandlers : gmap string (list LightweightMsgHandler);
  flows : LightweightFlows
}.

(** [constructor(options = {})]: the defaults spread under [options] are
    the ones [RuntimeProtocolGenerator] applies again. *)
Definition new (o : LightweightProtocolOptions) : t :=
  {| protocolGenerator := RuntimeProtocolGenerator.new o;
     apiHandlers := ∅; msgHandlers := ∅; flows := no_flows |}.

(** [implementApi(apiName, handler)] *)
Definition implementApi (apiName : string) (handler : LightweightApiHandler)
    (s : t) : t :=
  {| protocolGenerator :=
       snd (RuntimeProtocolGenerator.registerApi apiName None s.(protocolGenerator));
     apiHandlers := <[apiName := handler]> s.(apiHandlers);
     msgHandlers := s.(msgHandlers);
     flows := s.(flows) |}.

(** [listenMsg(msgName, handler)] *)
Definition listenMsg (msgName : string) (handler : LightweightMsgHandler)
    (s : t) : t :=
  {| protocolGenerator :=
       snd (RuntimeProtocolGenerator.registerMsg msgName None s.(protocolGenerator));
     apiHandlers := s.(apiHandlers);
     msgHandlers :=
       <[msgName := default [] (s.(msgHandlers) !! msgName) ++ [handler]]>
         s.(msgHandlers);
     flows := s.(flows) |}.

(** [this.flows = flows] for a server built in one go. *)
Definition withFlows (f : LightweightFlows) (s : t) : t :=
  {| protocolGenerator := s.(protocolGenerator);
     apiHandlers := s.(apiHandlers);
     msgHandlers := s.(msgHandlers);
     flows := f |}.

(** The tail of the [try] block of [handleApiCall], from the response
    validation on. *)
Definition after_handler (s : t) (apiName : string) (req : value)
    (context : LightweightCallContext) (result : value) : M LightweightApiReturn :=
  valid <- lift (RuntimeProtocolGenerator.validateResponse
                   s.(protocolGenerator) apiName result) ;;
  if negb valid then
    ret (failure ("Invalid response data for API: " ++ apiName)
           "INVALID_RESPONSE" "ServerError")
  else
    shouldContinue <-
      match s.(flows).(preApiReturn) with
      | Some hook =>
          run_gate PreApiReturn hook
            {| par_apiName := apiName; par_res := result;
               par_connId := context.(connId) |} context
      | None => ret true
      end ;;
    if negb shouldContinue then
      ret (failure "API return canceled by preApiReturn flow"
             "FLOW_CANCELED" "ServerError")
    else
      emit (Logger L_log ("[API] " ++ apiName ++ " completed")) ;;;
      match s.(flows).(postApiCall) with
      | Some hook =>
          run_detached PostApiCall "postApiCall flow error:" hook
            {| poc_apiName := apiName; poc_req := req; poc_res := result;
               poc_connId := context.(connId) |} context
      | None => ret tt
      end ;;;
      ret (Succ result).

(** The [try] block from the handler lookup on. *)
Definition invoke (s : t) (apiName : string) (req : value)
    (context : LightweightCallContext) : M LightweightApiReturn :=
  match (s.(apiHandlers) !! apiName : option LightweightApiHandler) with
  | None =>
      ret (failure ("No handler found for API: " ++ apiName)
             "HANDLER_NOT_FOUND" "ServerError")
  | Some handler =>
      emit (Logger L_log ("[API] " ++ apiName)) ;;;
      emit (CallApiHandler apiName) ;;;
      result <- lift (await (handler req context)) ;;
      after_handler s apiName req context result
  end.

(** The whole [try] block. *)
Definition api_body (s : t) (apiName : string) (req : value)
    (context : LightweightCallContext) : M LightweightApiReturn :=
  valid <- lift (RuntimeProtocolGenerator.validateRequest
                   s.(protocolGenerator) apiName req) ;;
  if negb valid then
    ret (failure ("Invalid request data for API: " ++ apiName)
           "INVALID_REQUEST" "ClientError")
  else
    shouldContinue <-
      match s.(flows).(preApiCall) with
      | Some hook =>
          run_gate PreApiCall hook
            {| pac_apiName := apiName; pac_req := req;
               pac_connId := context.(connId) |} context
      | None => ret true
      end ;;
    if negb shouldContinue then
      ret (failure "API call canceled by preApiCall flow"
             "FLOW_CANCELED" "ServerError")
    else invoke s apiName req context.

(** The [catch (error)] block of [handleApiCall]. *)
Definition api_catch (apiName : string) (error : thrown) : M LightweightApiReturn :=
  emit (Logger L_error ("API " ++ apiName ++ " error:")) ;;;
  match error with
  | ThrLightweight m c t => ret (failure m c t)
  | ThrNullish =>
      (* [error.message] on [null] or [undefined] *)
      raise (TypeError "Cannot read properties of undefined (reading 'message')")
  | ThrOther m _ _ =>
      ret (failure (message_or m "Internal server error")
             "INTERNAL_ERROR" "ServerError")
  end.

(** [handleApiCall(apiName, req, context)]: a normal completion is the
    envelope the returned promise resolves to, [Throw] is its rejection.
    The elapsed time in the completion log line is left out. *)
Definition handleApiCall (s : t) (apiName : string) (req : value)
    (context : LightweightCallContext) : M LightweightApiReturn :=
  try_catch (api_body s apiName req context) (api_catch apiName).

(** [handlers.map(handler => Promise.resolve(handler(msg, context))
    .catch(...))]: the handlers are called in order; a handler that
    throws before returning ends the [map]. *)
Fixpoint call_handlers (handlers : list LightweightMsgHandler) (index : nat)
    (msg : value) (context : LightweightCallContext)
    : M (list (nat * async_completion unit)) :=
  match handlers with
  | [] => ret []
  | handler :: rest =>
      emit (CallMsgHandler index) ;;;
      match handler msg context with
      | ThrowsSync t => raise t
      | c =>
          promises <- call_handlers rest (S index) msg context ;;
          ret ((index, c) :: promises)
      end
  end.

(** [await Promise.all(promises)]: every promise is waited for; a
    rejected one has been turned into a log line by its [.catch]. *)
Fixpoint settle_all (msgName : string)
    (promises : list (nat * async_completion unit)) : M unit :=
  match promises with
  | [] => ret tt
  | (index, c) :: rest =>
      emit (SettledMsgHandler index) ;;;
      match c with
      | Rejects _ => emit (Logger L_error ("Message handler error for " ++ msgName ++ ":"))
      | _ => ret tt
      end ;;;
      settle_all msgName rest
  end.

(** The [try] block of [handleMsgCall]. *)
Definition msg_body (s : t) (msgName : string) (msg : value)
    (context : LightweightCallContext) : M unit :=
  valid <- lift (RuntimeProtocolGenerator.validateMessage
                   s.(protocolGenerator) msgName msg) ;;
  if negb valid then
    emit (Logger L_error ("Invalid message data for: " ++ msgName))
  else
    shouldContinue <-
      match s.(flows).(preMsgReceive) with
      | Some hook =>
          run_gate PreMsgReceive hook
            {| pmr_msgName := msgName; pmr_msg := msg;
               pmr_connId := context.(connId) |} context
      | None => ret true
      end ;;
    if negb shouldContinue then
      emit (Logger L_debug "Message call canceled by preMsgReceive flow")
    else
      match s.(msgHandlers) !! msgName with
      | None | Some [] =>
          emit (Logger L_warn ("No handler found for message: " ++ msgName))
      | Some handlers =>
          emit (Logger L_log ("[MSG] " ++ msgName)) ;;;
          promises <- call_handlers handlers 0 msg context ;;
          settle_all msgName promises
      end.

(** [handleMsgCall(msgName, msg, context)] *)
Definition handleMsgCall (s : t) (msgName : string) (msg : value)
    (context : LightweightCallContext) : M unit :=
  try_catch (msg_body s msgName msg context)
    (fun error => emit (Logger L_error ("Message " ++ msgName ++ " error:"))).

End LightweightServer.

(** ** A small executable platform

    A JSON printer and parser for [value] (integers for numbers, no
    whitespace, backslash escapes for the quote and the backslash) and
    UTF-8 for code units below 256: enough to run the codec on concrete
    payloads. *)

Module MiniPlatform.

Definition dquote : ascii := "034"%char.
Definition backslash : ascii := "092"%char.

Fixpoint escape (s : string) : string :=
  match s with
  | EmptyString => EmptyString
  | String c rest =>
      if (Ascii.eqb c dquote || Ascii.eqb c backslash)%bool
      then String backslash (String c (escape rest))
      else String c (escape rest)
  end.

Definition quote (s : string) : string :=
  String dquote (escape s +:+ String dquote EmptyString).

Fixpoint join_comma (parts : list string) : string :=
  match parts with
  | [] => ""
  | [p] => p
  | p :: rest => p +:+ "," +:+ join_comma rest
  end.

(** [JSON.stringify]: [undefined] has no text, becomes [null] inside an
    array and is dropped from an object. *)
Fixpoint stringify (v : value) : option string :=
  match v with
  | VUndefined => None
  | VNull => Some "null"
  | VBool true => Some "true"
  | VBool false => Some "false"
  | VNum n => Some (pretty n)
  | VStr s => Some (quote s)
  | VArr items =>
      Some ("[" +:+ join_comma
              (map (fun x => default "null" (stringify x)) items) +:+ "]")
  | VObj fields =>
      Some ("{" +:+ join_comma
              (omap (fun kx : string * value =>
                       t ← stringify kx.2; Some (quote kx.1 +:+ ":" +:+ t))
                 fields) +:+ "}")
  end.

Fixpoint strip_prefix (p s : string) : option string :=
  match p, s with
  | EmptyString, _ => Some s
  | String a p', String b s' => if Ascii.eqb a b then strip_prefix p' s' else None
  | String _ _, EmptyString => None
  end.

(** The text after an opening quote, up to the closing one. *)
Fixpoint parse_string_body (s : string) : option (string * string) :=
  match s with
  | EmptyString => None
  | String c rest =>
      if Ascii.eqb c dquote then Some (EmptyString, rest)
      else if Ascii.eqb c backslash then
        match rest with
        | String d rest' =>
            match parse_string_body rest' with
            | Some (t, r) => Some (String d t, r)
            | None => None
            end
        | EmptyString => None
        end
      else
        match parse_string_body rest with
        | Some (t, r) => Some (String c t, r)
        | None => None
        end
  end.

Definition digit_of (c : ascii) : option Z :=
  let n := Z.of_N (N_of_ascii c) in
  if ((48 <=? n) && (n <=? 57))%Z then Some (n - 48)%Z else None.

Fixpoint parse_digits (s : string) (acc : Z) : Z * string :=
  match s with
  | EmptyString => (acc, s)
  | String c rest =>
      match digit_of c with
      | Some d => parse_digits rest (10 * acc + d)%Z
      | None => (acc, s)
      end
  end.

Definition parse_number (s : string) : option (Z * string) :=
  match s with
  | String c rest =>
      if Ascii.eqb c "-"%char then
        match rest with
        | String d _ =>
            match digit_of d with
            | Some _ => let '(n, r) := parse_digits rest 0 in Some ((- n)%Z, r)
            | None => None
            end
        | EmptyString => None
        end
      else
        match digit_of c with
        | Some _ => Some (parse_digits s 0)
        | None => None
        end
  | EmptyString => None
  end.

(** What a value, an array tail or an object tail is parsed by, one
    unit of fuel being spent per recursive call. *)
Fixpoint parse_value (fuel : nat) (s : string) : option (value * string) :=
  match fuel with
  | O => None
  | S fuel' =>
      match s with
      | EmptyString => None
      | String c rest =>
          if Ascii.eqb c "n" then
            r ← strip_prefix "null" s; Some (VNull, r)
          else if Ascii.eqb c "t" then
            r ← strip_prefix "true" s; Some (VBool true, r)
          else if Ascii.eqb c "f" then
            r ← strip_prefix "false" s; Some (VBool false, r)
          else if Ascii.eqb c dquote then
            '(t, r) ← parse_string_body rest; Some (VStr t, r)
          else if Ascii.eqb c "[" then
            match rest with
            | String c' r =>
                if Ascii.eqb c' "]" then Some (VArr [], r)
                else '(items, r) ← parse_items fuel' rest; Some (VArr items, r)
            | EmptyString => None
            end
          else if Ascii.eqb c "{" then
            match rest with
            | String c' r =>
                if Ascii.eqb c' "}" then Some (VObj [], r)
                else '(fields, r) ← parse_fields fuel' rest; Some (VObj fields, r)
            | EmptyString => None
            end
          else
            '(n, r) ← parse_number s; Some (VNum n, r)
      end
  end
with parse_items (fuel : nat) (s : string) : option (list value * string) :=
  match fuel with
  | O => None
  | S fuel' =>
      '(v, r) ← parse_value fuel' s;
      match r with
      | String c r' =>
          if Ascii.eqb c "," then
            '(vs, r'') ← parse_items fuel' r'; Some (v :: vs, r'')
          else if Ascii.eqb c "]" then Some ([v], r')
          else None
      | EmptyString => None
      end
  end
with parse_fields (fuel : nat) (s : string) : option (list (string * value) * string) :=
  match fuel with
  | O => None
  | S fuel' =>
      match s with
      | String c rest =>
          if Ascii.eqb c dquote then
            '(k, r) ← parse_string_body rest;
            match r with
            | String c1 r1 =>
                if Ascii.eqb c1 ":" then
                  '(v, r2) ← parse_value fuel' r1;
                  match r2 with
                  | String c2 r3 =>
                      if Ascii.eqb c2 "," then
                        '(fs, r4) ← parse_fields fuel' r3; Some ((k, v) :: fs, r4)
                      else if Ascii.eqb c2 "}" then Some ([(k, v)], r3)
                      else None
                  | EmptyString => None
                  end
                else None
            | EmptyString => None
            end
          else None
      | EmptyString => None
      end
  end.

Definition SyntaxError : thrown := ThrOther (Some "Unexpected token in JSON") None None.

(** [JSON.parse] *)
Definition parse (s : string) : completion value :=
  match parse_value (S (String.length s)) s with
  | Some (v, EmptyString) => Normal v
  | _ => Throw SyntaxError
  end.

Definition byte_of_N (n : N) : Byte.byte := default Byte.x00 (Byte.of_N n).

(** The UTF-8 bytes of one code unit below 256. *)
Definition encode_char (c : ascii) : list Byte.byte :=
  let n := N_of_ascii c in
  if (n <? 128)%N then [byte_of_N n]
  else [byte_of_N (192 + n / 64); byte_of_N (128 + n mod 64)].

(** [new TextEncoder().encode] *)
Fixpoint encode (s : string) : list Byte.byte :=
  match s with
  | EmptyString => []
  | String c rest => encode_char c ++ encode rest
  end.

(** [new TextDecoder().decode]; a malformed sequence decodes to [?]. *)
Fixpoint decode (b : list Byte.byte) : string :=
  match b with
  | [] => EmptyString
  | b1 :: rest =>
      let n1 := Byte.to_N b1 in
      if (n1 <? 128)%N then String (ascii_of_N n1) (decode rest)
      else
        match rest with
        | b2 :: rest' =>
            let n2 := Byte.to_N b2 in
            if ((194 <=? n1) && (n1 <=? 195) && (128 <=? n2) && (n2 <? 192))%N
            then String (ascii_of_N ((n1 - 192) * 64 + (n2 - 128))) (decode rest')
            else String "?"%char (decode rest)
        | [] => String "?"%char EmptyString
        end
  end.

(** A value with no [undefined] anywhere inside. *)
Fixpoint defined (v : value) : bool :=
  match v with
  | VUndefined => false
  | VArr items => forallb defined items
  | VObj fields => forallb (fun kx : string * value => defined kx.2) fields
  | _ => true
  end.

(** The fuel that parsing the text of a value takes. *)
Fixpoint size (v : value) : nat :=
  match v with
  | VArr items => S (list_sum (map (fun x => S (size x)) items))
  | VObj fields =>
      S (list_sum (map (fun kx : string * value => S (size kx.2)) fields))
  | _ => 1
  end.

(** The text does not go on with a digit. *)
Definition ends_number (rest : string) : Prop :=
  match rest with
  | EmptyString => True
  | String c _ => digit_of c = None
  end.

(** The text of a value, [""] when it has none. *)
Definition text_of (v : value) : string := default "" (stringify v).

(** The text of an object member. *)
Definition field_text (kx : string * value) : string :=
  quote kx.1 +:+ ":" +:+ text_of kx.2.

(** The statement of the round trip for one value, with the text that
    follows it and the fuel at hand. *)
Definition parses_back (x : value) : Prop :=
  ∀ (fuel : nat) (rest : string),
    (size x ≤ fuel)%nat →
    ends_number rest →
    parse_value fuel (text_of x +:+ rest) = Some (x, rest).

Definition platform : RuntimeProtocolGenerator.Platform :=
  {| RuntimeProtocolGenerator.JSON_stringify := stringify;
     RuntimeProtocolGenerator.JSON_parse := parse;
     RuntimeProtocolGenerator.TextEncoder_encode := encode;
     RuntimeProtocolGenerator.TextDecoder_decode := decode |}.

End MiniPlatform.

(** ** Notions used to state the properties *)

Module RPG := RuntimeProtocolGenerator.
Module LS := LightweightServer.

(** The bookkeeping invariant of the service map: every stored id is
    below [nextId], the two directions of each namespace mirror each
    other, no id is shared between the namespaces, and no stored name is
    a member of [Object.prototype]. *)
Record registry_inv (sm : LightweightServiceMap) : Prop := {
  inv_api_bound : ∀ name id,
    sm.(apiName2Id) !! name = Some id → (id < sm.(nextId))%N;
  inv_msg_bound : ∀ name id,
    sm.(msgName2Id) !! name = Some id → (id < sm.(nextId))%N;
  inv_api_back : ∀ name id,
    sm.(apiName2Id) !! name = Some id → sm.(id2ApiName) !! id = Some name;
  inv_msg_back : ∀ name id,
    sm.(msgName2Id) !! name = Some id → sm.(id2MsgName) !! id = Some name;
  inv_api_forth : ∀ id name,
    sm.(id2ApiName) !! id = Some name → sm.(apiName2Id) !! name = Some id;
  inv_msg_forth : ∀ id name,
    sm.(id2MsgName) !! id = Some name → sm.(msgName2Id) !! name = Some id;
  inv_disjoint : ∀ apiName msgName id,
    sm.(apiName2Id) !! apiName = Some id →
    sm.(msgName2Id) !! msgName = Some id → False;
  inv_api_own : ∀ name,
    is_Some (sm.(apiName2Id) !! name) → name ∉ Object_prototype_keys;
  inv_msg_own : ∀ name,
    is_Some (sm.(msgName2Id) !! name) → name ∉ Object_prototype_keys
}.

(** One registration call. *)
Inductive registration : Type :=
| RegisterApi (apiName : string) (validator : option ApiValidators)
| RegisterMsg (msgName : string) (validator : option Validator).

Definition register (r : registration) (g : RPG.t) : RPG.registered * RPG.t :=
  match r with
  | RegisterApi apiName validator => RPG.registerApi apiName validator g
  | RegisterMsg msgName validator => RPG.registerMsg msgName validator g
  end.

(** A sequence of registration calls, oldest first. *)
Definition register_all (rs : list registration) (g : RPG.t) : RPG.t :=
  fold_left (fun g r => snd (register r g)) rs g.

(** The id a name is bound to in its namespace, if any. *)
Definition bound_id (g : RPG.t) (kind : RPG.service_kind) (name : string) : option N :=
  match kind with
  | RPG.api => g.(RPG.serviceMap).(apiName2Id) !! name
  | RPG.msg => g.(RPG.serviceMap).(msgName2Id) !! name
  end.

(** The fallback order in the words of the design document: validation
    switched off accepts; else an explicit validator decides; else a
    custom validator decides; else accept. *)
Definition validate_by_fallback (enabled : bool)
    (explicit custom : option Validator) (data : value) : completion bool :=
  if negb enabled then Normal true
  else
    match explicit, custom with
    | Some validator, _ => validator data
    | None, Some validator => validator data
    | None, None => Normal true
    end.

(** The explicit validator registered for a name and a direction: an own
    property of the [validators] object. *)
Definition explicit_req (g : RPG.t) (name : string) : option Validator :=
  e ← g.(RPG.protocol).(validators_api) !! name; e.(req).

Definition explicit_res (g : RPG.t) (name : string) : option Validator :=
  e ← g.(RPG.protocol).(validators_api) !! name; e.(res).

Definition explicit_msg (g : RPG.t) (name : string) : option Validator :=
  g.(RPG.protocol).(validators_msg) !! name.

(** The custom validator supplied for a name and a direction in the
    [customValidators] option; its entries have no message direction. *)
Definition custom_req (g : RPG.t) (name : string) : option Validator :=
  e ← g.(RPG.options).(RPG.opt_customValidators) !! name; e.(req).

Definition custom_res (g : RPG.t) (name : string) : option Validator :=
  e ← g.(RPG.options).(RPG.opt_customValidators) !! name; e.(res).

(** A gating hook, if bound, returns having invoked its continuation. *)
Definition gate_open {D : Type} (hook : option (LightweightMiddleware D))
    (data : D) (context : LightweightCallContext) : Prop :=
  match hook with
  | Some h =>
      await (h data context).(outcome) = Normal tt ∧
      (h data context).(invokes_next) = true
  | None => True
  end.

(** The trace of passing a gate. *)
Definition gate_events {D : Type} (point : flow_point)
    (hook : option (LightweightMiddleware D)) : list event :=
  match hook with
  | Some _ => [CallHook point]
  | None => []
  end.

(** A computation only ever adds events to the trace. *)
Definition appends {A : Type} (m : M A) : Prop :=
  ∀ tr, ∃ evs, (m tr).2 = tr ++ evs.

Definition is_api_handler_call (e : event) : bool :=
  match e with
  | CallApiHandler _ => true
  | _ => false
  end.

(** The handler invocation counter of a trace. *)
Definition api_handler_calls (tr : list event) : nat :=
  length (filter is_api_handler_call tr).

Definition is_hook_call (e : event) : bool :=
  match e with
  | CallHook _ => true
  | _ => false
  end.

Definition hook_calls (tr : list event) : nat :=
  length (filter is_hook_call tr).

(** A handler or hook call that does not throw before it returns. *)
Definition returns_or_promises {A : Type} (c : async_completion A) : Prop :=
  match c with
  | ThrowsSync _ => False
  | _ => True
  end.

(** The trace of waiting for the promises of the message handlers. *)
Definition settle_events (msgName : string)
    (promise : nat * async_completion unit) : list event :=
  SettledMsgHandler promise.1 ::
  match promise.2 with
  | Rejects _ => [Logger L_error ("Message handler error for " ++ msgName ++ ":")]
  | _ => []
  end.

(** The promises of handlers called from position [index] on. *)
Fixpoint promises_of (handlers : list LightweightMsgHandler) (index : nat)
    (msg : value) (context : LightweightCallContext)
    : list (nat * async_completion unit) :=
  match handlers with
  | [] => []
  | handler :: rest =>
      (index, handler msg context) :: promises_of rest (S index) msg context
  end.

(** The reading of the design document under which an exception without
    structured code is reported with its own message, whatever that is. *)
Definition message_always_forwarded : Prop :=
  ∀ (s : LS.t) (apiName : string) (req : value)
    (context : LightweightCallContext) (handler : LightweightApiHandler)
    (m : string),
    RPG.validateRequest s.(LS.protocolGenerator) apiName req = Normal true →
    s.(LS.flows).(preApiCall) = None →
    s.(LS.apiHandlers) !! apiName = Some handler →
    await (handler req context) = Throw (Error m) →
    (LS.handleApiCall s apiName req context []).1 =
      Normal (failure m "INTERNAL_ERROR" "ServerError").

(** ** Example servers *)

Definition a_context : LightweightCallContext :=
  {| connId := "http_1"; clientIp := "127.0.0.1"; startTime := 0%N; extra := [] |}.

(** A hook that awaits [next()] and returns. *)
Definition proceed {D : Type} : LightweightMiddleware D :=
  fun _ _ => {| invokes_next := true; outcome := Resolves tt |}.

(** A hook that returns without calling [next]. *)
Definition decline {D : Type} : LightweightMiddleware D :=
  fun _ _ => {| invokes_next := false; outcome := Resolves tt |}.

(** [(req) => ({ result: req.a + req.b })] for a request [{a, b}]. *)
Definition math_add : LightweightApiHandler :=
  fun req _ =>
    match req with
    | VObj [("a", VNum a); ("b", VNum b)] => Resolves (VObj [("result", VNum (a + b))])
    | _ => Rejects (Error "Both a and b must be numbers")
    end.

Definition math_server : LS.t :=
  LS.implementApi "math/add" math_add (LS.new no_options).

Definition add_request : value := VObj [("a", VNum 10); ("b", VNum 20)].

(** [async () => { throw t }] *)
Definition failing_with (t : thrown) : LightweightApiHandler :=
  fun _ _ => Rejects t.

Definition error_server (t : thrown) : LS.t :=
  LS.implementApi "test/error" (failing_with t) (LS.new no_options).

(** A custom request validator that wants an object. *)
Definition wants_object : Validator := fun data => Normal (is_object data).

Definition validating_server : LS.t :=
  LS.implementApi "math/add" math_add
    (LS.new
       {| enableValidation := None; debug := None; serializationMode := None;
          customValidators :=
            Some {[ "math/add" := {| req := Some wants_object; res := None |} ]} |}).

(** A message handler written without [async] that throws, and an
    [async] one that completes. *)
Definition throwing_listener : LightweightMsgHandler :=
  fun _ _ => ThrowsSync (Error "listener failed").

Definition rejecting_listener : LightweightMsgHandler :=
  fun _ _ => Rejects (Error "listener failed").

Definition quiet_listener : LightweightMsgHandler :=
  fun _ _ => Resolves tt.

Definition chat_server (first second : LightweightMsgHandler) : LS.t :=
  LS.listenMsg "chat/message" second
    (LS.listenMsg "chat/message" first (LS.new no_options)).

(** A post-call hook written without [async] that throws. *)
Definition throwing_hook {D : Type} (t : thrown) : LightweightMiddleware D :=
  fun _ _ => {| invokes_next := false; outcome := ThrowsSync t |}.

Definition rejecting_hook {D : Type} (t : thrown) : LightweightMiddleware D :=
  fun _ _ => {| invokes_next := false; outcome := Rejects t |}.

(** ** The rest of the registry *)

(** What [getStats()] returns. *)
Record ProtocolStats : Type := {
  totalApis : nat;
  totalMsgs : nat;
  totalServices : N;
  validationEnabled : bool;
  stats_serializationMode : SerializationMode
}.

(** [getStats()]: [Object.keys(o).length] counts the own properties. *)
Definition getStats (g : RPG.t) : ProtocolStats :=
  {| totalApis := size g.(RPG.serviceMap).(apiName2Id);
     totalMsgs := size g.(RPG.serviceMap).(msgName2Id);
     totalServices := g.(RPG.serviceMap).(nextId);
     validationEnabled := g.(RPG.options).(RPG.opt_enableValidation);
     stats_serializationMode := g.(RPG.options).(RPG.opt_serializationMode) |}.

(** The calls that change the registry, and a run of them, oldest
    first. *)
Inductive registry_call : Type :=
| Register (r : registration)
| Reset.

Definition run_call (c : registry_call) (g : RPG.t) : RPG.t :=
  match c with
  | Register r => (register r g).2
  | Reset => RPG.reset g
  end.

Definition run_calls (cs : list registry_call) (g : RPG.t) : RPG.t :=
  fold_left (fun g c => run_call c g) cs g.

(** The namespace and the name a registration call is about. *)
Definition registers (r : registration) : RPG.service_kind * string :=
  match r with
  | RegisterApi apiName _ => (RPG.api, apiName)
  | RegisterMsg msgName _ => (RPG.msg, msgName)
  end.


(** The envelope the [catch] block of [handleApiCall] builds from what
    was thrown; there is none for [null] and [undefined]. *)
Definition caught_envelope (t : thrown) : option LightweightApiReturn :=
  match t with
  | ThrLightweight m c ty => Some (failure m c ty)
  | ThrOther m _ _ =>
      Some (failure (message_or m "Internal server error")
              "INTERNAL_ERROR" "ServerError")
  | ThrNullish => None
  end.

(** The trace of a detached post-call hook that does not throw before
    returning. *)
Definition detached_events (hook : option (LightweightMiddleware PostApiCallData))
    (data : PostApiCallData) (context : LightweightCallContext) : list event :=
  match hook with
  | Some h =>
      CallHook PostApiCall ::
      match (h data context).(outcome) with
      | Rejects _ => [Logger L_error "postApiCall flow error:"]
      | _ => []
      end
  | None => []
  end.

(** A server with a custom response validator that wants an object, and
    a handler that returns a number. *)
Definition returns_number : LightweightApiHandler := fun _ _ => Resolves (VNum 7).

Definition response_checking_server : LS.t :=
  LS.implementApi "stats/count" returns_number
    (LS.new
       {| enableValidation := None; debug := None; serializationMode := None;
          customValidators :=
            Some {[ "stats/count" := {| req := None; res := Some wants_object |} ]} |}).

(** A validator that throws. *)
Definition broken_validator : Validator := fun _ => Throw (Error "schema missing").

Definition broken_validation_server : LS.t :=
  LS.implementApi "math/add" math_add
    (LS.new
       {| enableValidation := None; debug := None; serializationMode := None;
          customValidators :=
            Some {[ "math/add" := {| req := Some broken_validator; res := None |} ]} |}).

Definition all_hooks_server : LS.t :=
  LS.withFlows
    {| preApiCall := Some proceed; preApiReturn := Some proceed;
       postApiCall := Some (rejecting_hook (Error "metrics down"));
       preMsgReceive := Some decline |} math_server.

(** ** The connections of LightweightServer *)

(** [Map<string, V>] as the list of its entries in insertion order. *)
Module JSMap.

Definition t (V : Type) : Type := list (string * V).

Fixpoint get {V : Type} (m : t V) (key : string) : option V :=
  match m with
  | [] => None
  | (k, v) :: rest => if String.eqb k key then Some v else get rest key
  end.

(** [set]: a key already present keeps its place. *)
Fixpoint set {V : Type} (key : string) (v : V) (m : t V) : t V :=
  match m with
  | [] => [(key, v)]
  | (k, v') :: rest =>
      if String.eqb k key then (key, v) :: rest else (k, v') :: set key v rest
  end.

Fixpoint delete {V : Type} (key : string) (m : t V) : t V :=
  match m with
  | [] => []
  | (k, v) :: rest =>
      if String.eqb k key then rest else (k, v) :: delete key rest
  end.

Definition keys {V : Type} (m : t V) : list string := map fst m.

End JSMap.

(** What the server reads of a stored connection: [conn.ip],
    [conn.status] and [conn.close].  A connection is an object, as the
    ones the HTTP server stores are; a property that is absent, or not of
    the type the server expects, is [None].  [conn_close] tells how a
    call [close(reason)] completes. *)
Record Connection : Type := {
  conn_ip : option string;
  conn_status : option string;
  conn_close : option (option string -> completion unit)
}.

(** [x || "unknown"] *)
Definition or_unknown (x : option string) : string := message_or x "unknown".

(** The payloads of the three hooks of the connection side, and the hooks
    themselves: the members [preMsgSend], [onConnect] and [onDisconnect]
    of [this.flows]. *)
Record PreMsgSendData : Type := {
  pms_msgName : string; pms_msg : value; pms_connId : string
}.

Record OnConnectData : Type := {
  onc_connId : string; onc_clientIp : string
}.

Record OnDisconnectData : Type := {
  ond_connId : string; ond_reason : option string
}.

Record ConnectionFlows : Type := {
  flow_preMsgSend : option (LightweightMiddleware PreMsgSendData);
  flow_onConnect : option (LightweightMiddleware OnConnectData);
  flow_onDisconnect : option (LightweightMiddleware OnDisconnectData)
}.

Definition no_connection_flows : ConnectionFlows :=
  {| flow_preMsgSend := None; flow_onConnect := None; flow_onDisconnect := None |}.

Inductive connection_flow : Type := PreMsgSend | OnConnect | OnDisconnect.

(** What the connection side does to the outside: it calls a hook, with
    the context it built for it, or the [close] of a connection. *)
Inductive connection_event : Type :=
| CallFlow (point : connection_flow) (context : LightweightCallContext)
| CallClose (connId : string) (reason : option string).

(** [{ isSucc, errMsg? }], the result of [sendMsg]. *)
Record SendResult : Type := {
  sr_isSucc : bool;
  sr_errMsg : option string
}.

Definition not_sent (text : string) : SendResult :=
  {| sr_isSucc := false; sr_errMsg := Some text |}.

(** One element of [results], and the result of [broadcastMsg]. *)
Record BroadcastEntry : Type := {
  be_connId : string;
  be_success : bool;
  be_error : option string
}.

Record BroadcastResult : Type := {
  br_isSucc : bool;
  br_errMsg : option string;
  br_results : list BroadcastEntry
}.

(** An element of [getConnections()]. *)
Record ConnectionInfo : Type := {
  ci_id : string;
  ci_ip : string;
  ci_status : string
}.

Module Connections.

(** The server with its connection table.  [flows] holds the hooks of
    [this.flows] that the dispatcher does not read. *)
Record t : Type := {
  server : LS.t;
  flows : ConnectionFlows;
  connections : JSMap.t Connection
}.

Definition new (o : LightweightProtocolOptions) : t :=
  {| server := LS.new o; flows := no_connection_flows; connections := [] |}.

Definition with_connections (c : JSMap.t Connection) (s : t) : t :=
  {| server := s.(server); flows := s.(flows); connections := c |}.

(** [createCallContext(connId, clientIp)], [now] being [Date.now()]. *)
Definition createCallContext (now : N) (connId clientIp : string)
    : LightweightCallContext :=
  {| connId := connId; clientIp := clientIp; startTime := now; extra := [] |}.

(** [onConnect(connId, clientIp, connection)]: the completion of the
    returned promise, the server afterwards, and the events. *)
Definition onConnect (now : N) (connId clientIp : string)
    (connection : Connection) (s : t)
    : completion unit * t * list connection_event :=
  let s' := with_connections (JSMap.set connId connection s.(connections)) s in
  match s.(flows).(flow_onConnect) with
  | Some hook =>
      let context := createCallContext now connId clientIp in
      (await (hook {| onc_connId := connId; onc_clientIp := clientIp |}
                context).(outcome),
       s', [CallFlow OnConnect context])
  | None => (Normal tt, s', [])
  end.

(** [onDisconnect(connId, reason?)] *)
Definition onDisconnect (now : N) (connId : string) (reason : option string)
    (s : t) : completion unit * t * list connection_event :=
  match JSMap.get s.(connections) connId with
  | None => (Normal tt, s, [])
  | Some connection =>
      let s' := with_connections (JSMap.delete connId s.(connections)) s in
      match s.(flows).(flow_onDisconnect) with
      | Some hook =>
          let context :=
            createCallContext now connId (or_unknown connection.(conn_ip)) in
          (await (hook {| ond_connId := connId; ond_reason := reason |}
                    context).(outcome),
           s', [CallFlow OnDisconnect context])
      | None => (Normal tt, s', [])
      end
  end.

(** [closeConnection(connId, reason?)]; it is not [async], so what
    [close] throws leaves it before the entry is deleted. *)
Definition closeConnection (connId : string) (reason : option string) (s : t)
    : completion bool * t * list connection_event :=
  match JSMap.get s.(connections) connId with
  | None => (Normal false, s, [])
  | Some connection =>
      let s' := with_connections (JSMap.delete connId s.(connections)) s in
      match connection.(conn_close) with
      | Some close =>
          match close reason with
          | Normal _ => (Normal true, s', [CallClose connId reason])
          | Throw t => (Throw t, s, [CallClose connId reason])
          end
      | None => (Normal true, s', [])
      end
  end.

(** [getConnections()] *)
Definition getConnections (s : t) : list ConnectionInfo :=
  map (fun entry : string * Connection =>
         {| ci_id := entry.1;
            ci_ip := or_unknown entry.2.(conn_ip);
            ci_status := or_unknown entry.2.(conn_status) |})
      s.(connections).

(** What [getServiceId] returned, as the value of the [serviceId]
    property: a number, [undefined], or the inherited member, which is
    the object [Object.prototype] under [__proto__] and a function (for
    [JSON.stringify] as good as [undefined]) under any other name. *)
Definition serviceId_value (r : option RPG.registered) : value :=
  match r with
  | Some (RPG.ServiceId id) => VNum (Z.of_N id)
  | Some (RPG.PrototypeMember key) =>
      if String.eqb key "__proto__" then VObj [] else VUndefined
  | None => VUndefined
  end.

(** The object [sendMsg] serializes. *)
Definition msg_packet (g : RPG.t) (msgName : string) (msg : value) : value :=
  VObj [("type", VStr "msg"); ("serviceName", VStr msgName);
        ("serviceId", serviceId_value (RPG.getServiceId g msgName RPG.msg));
        ("data", msg)].

(** The [try] block of [sendMsg], for a connection that was found.  The
    serialized packet is computed and dropped: the hand-over to the
    connection is left to subclasses. *)
Definition send_body (P : RPG.Platform) (now : N) (s : t) (connId : string)
    (connection : Connection) (msgName : string) (msg : value)
    : completion SendResult * list connection_event :=
  let g := s.(server).(LS.protocolGenerator) in
  let serialized :=
    match RPG.serialize P g (msg_packet g msgName msg) None with
    | Normal _ => Normal {| sr_isSucc := true; sr_errMsg := None |}
    | Throw t => Throw t
    end in
  match RPG.validateMessage g msgName msg with
  | Throw t => (Throw t, [])
  | Normal false => (Normal (not_sent ("Invalid message data for: " ++ msgName)), [])
  | Normal true =>
      match s.(flows).(flow_preMsgSend) with
      | Some hook =>
          let context :=
            createCallContext now connId (or_unknown connection.(conn_ip)) in
          let run := hook {| pms_msgName := msgName; pms_msg := msg;
                             pms_connId := connId |} context in
          (match await run.(outcome) with
           | Throw t => Throw t
           | Normal _ =>
               if negb run.(invokes_next)
               then Normal (not_sent "Message send canceled by preMsgSend flow")
               else serialized
           end,
           [CallFlow PreMsgSend context])
      | None => (serialized, [])
      end
  end.

(** The [catch (error)] block of [sendMsg]:
    [error.message || "Send message failed"]. *)
Definition send_catch (error : thrown) : completion SendResult :=
  match error with
  | ThrNullish =>
      Throw (TypeError "Cannot read properties of undefined (reading 'message')")
  | ThrLightweight m _ _ => Normal (not_sent (message_or (Some m) "Send message failed"))
  | ThrOther m _ _ => Normal (not_sent (message_or m "Send message failed"))
  end.

(** [sendMsg(connId, msgName, msg)]: the completion of the returned
    promise and the events.  The server is left as it is. *)
Definition sendMsg (P : RPG.Platform) (now : N) (s : t) (connId msgName : string)
    (msg : value) : completion SendResult * list connection_event :=
  match JSMap.get s.(connections) connId with
  | None => (Normal (not_sent ("Connection not found: " ++ connId)), [])
  | Some connection =>
      let r := send_body P now s connId connection msgName msg in
      (match r.1 with
       | Normal result => Normal result
       | Throw t => send_catch t
       end, r.2)
  end.

(** The connections a broadcast goes to: those not in [excludeConnIds]. *)
Definition targets (s : t) (excludeConnIds : option (list string)) : list string :=
  filter (fun connId => connId ∉ default [] excludeConnIds)
    (JSMap.keys s.(connections)).

(** The first exception among completions, if any. *)
Fixpoint first_throw {A : Type} (cs : list (completion A)) : option thrown :=
  match cs with
  | [] => None
  | Throw t :: _ => Some t
  | Normal _ :: rest => first_throw rest
  end.

(** [broadcastMsg(msgName, msg, excludeConnIds?)].  The sends are started
    in the order of the connection table, each up to and including the
    call of its hook.  Each pushes its entry onto [results] when it
    completes; [arrival] is the order in which they do.  If a send
    rejects, so does the [Promise.all]; every rejection of [sendMsg]
    carries the same [TypeError], so it does not matter which one is
    reported. *)
Definition broadcastMsg (P : RPG.Platform) (now : N)
    (arrival : list BroadcastEntry -> list BroadcastEntry) (s : t)
    (msgName : string) (msg : value) (excludeConnIds : option (list string))
    : completion BroadcastResult * list connection_event :=
  let sends :=
    map (fun connId => (connId, sendMsg P now s connId msgName msg))
      (targets s excludeConnIds) in
  let events := concat (map (fun send => send.2.2) sends) in
  match first_throw (map (fun send => send.2.1) sends) with
  | Some t => (Throw t, events)
  | None =>
      let results :=
        arrival
          (omap (fun send : string * (completion SendResult * list connection_event) =>
                   match send.2.1 with
                   | Normal result =>
                       Some {| be_connId := send.1;
                               be_success := result.(sr_isSucc);
                               be_error := result.(sr_errMsg) |}
                   | Throw _ => None
                   end) sends) in
      let failedCount :=
        length (List.filter (fun r => negb r.(be_success)) results) in
      (Normal {| br_isSucc := (failedCount =? 0)%nat;
                 br_errMsg :=
                   if (0 <? failedCount)%nat
                   then Some (pretty failedCount
                              +:+ " connections failed to receive message")
                   else None;
                 br_results := results |},
       events)
  end.

End Connections.

(** The calls that change the connection table, and a run of them. *)
Inductive connection_call : Type :=
| Connect (now : N) (connId clientIp : string) (connection : Connection)
| Disconnect (now : N) (connId : string) (reason : option string)
| Close (connId : string) (reason : option string).

Definition perform (c : connection_call) (s : Connections.t) : Connections.t :=
  match c with
  | Connect now connId clientIp connection =>
      (Connections.onConnect now connId clientIp connection s).1.2
  | Disconnect now connId reason =>
      (Connections.onDisconnect now connId reason s).1.2
  | Close connId reason => (Connections.closeConnection connId reason s).1.2
  end.

Definition perform_all (cs : list connection_call) (s : Connections.t)
    : Connections.t :=
  fold_left (fun s c => perform c s) cs s.

(** A connection as the HTTP server stores it: [ip] is a string,
    [status] is one of three words, and [close] returns. *)
Definition http_connection (ip status : string) : Connection :=
  {| conn_ip := Some ip; conn_status := Some status;
     conn_close := Some (fun _ => Normal tt) |}.

(** A connection whose [close] throws. *)
Definition stuck_connection : Connection :=
  {| conn_ip := None; conn_status := None;
     conn_close := Some (fun _ => Throw (Error "socket busy")) |}.

Definition two_clients : Connections.t :=
  perform_all
    [Connect 1 "http_1" "10.0.0.1" (http_connection "10.0.0.1" "OPENED");
     Connect 2 "http_2" "10.0.0.2" (http_connection "10.0.0.2" "OPENED")]
    (Connections.new no_options).

(** The events of passing the [preMsgSend] gate for one connection. *)
Definition send_gate_events (now : N) (s : Connections.t) (connId : string)
    (connection : Connection) : list connection_event :=
  match s.(Connections.flows).(flow_preMsgSend) with
  | Some _ =>
      [CallFlow PreMsgSend
         (Connections.createCallContext now connId
            (or_unknown connection.(conn_ip)))]
  | None => []
  end.

(** A [preMsgSend] hook that lets [http_1] through only. *)
Definition only_first_client : LightweightMiddleware PreMsgSendData :=
  fun data _ =>
    {| invokes_next := String.eqb data.(pms_connId) "http_1";
       outcome := Resolves tt |}.

Definition guarded_clients : Connections.t :=
  {| Connections.server := two_clients.(Connections.server);
     Connections.flows :=
       {| flow_preMsgSend := Some only_first_client;
          flow_onConnect := None; flow_onDisconnect := None |};
     Connections.connections := two_clients.(Connections.connections) |}.

(** ** Reading server input *)

(** Truthiness of a value. *)
Definition truthy (v : value) : bool :=
  match v with
  | VUndefined | VNull => false
  | VBool b => b
  | VNum n => negb (n =? 0)%Z
  | VStr s => negb (String.eqb s "")
  | VArr _ | VObj _ => true
  end.

(** [String(v)], which is also the property key [v] is used as.  Numbers
    are integers and print in decimal, as they do below 10^21. *)
Fixpoint ToString (v : value) : string :=
  match v with
  | VUndefined => "undefined"
  | VNull => "null"
  | VBool true => "true"
  | VBool false => "false"
  | VNum n => pretty n
  | VStr s => s
  | VArr items =>
      MiniPlatform.join_comma
        (map (fun x => match x with
                       | VUndefined | VNull => ""
                       | _ => ToString x
                       end) items)
  | VObj _ => "[object Object]"
  end.

(** The own property [key] of an object given by its members in the order
    they were written: a later member overrides an earlier one. *)
Fixpoint own_property (fields : list (string * value)) (key : string)
    : option value :=
  match fields with
  | [] => None
  | (k, v) :: rest =>
      match own_property rest key with
      | Some later => Some later
      | None => if String.eqb k key then Some v else None
      end
  end.

(** [v[key]] for one of the keys the parser reads ([type], [serviceName],
    [data], [sn]), none of which a prototype defines: a missing member
    and any member of a primitive or an array is [undefined]; reading
    from [null] or [undefined] throws. *)
Definition get_property (v : value) (key : string) : completion value :=
  match v with
  | VUndefined =>
      Throw (TypeError ("Cannot read properties of undefined (reading '"
                        +:+ key +:+ "')"))
  | VNull =>
      Throw (TypeError ("Cannot read properties of null (reading '"
                        +:+ key +:+ "')"))
  | VObj fields => Normal (default VUndefined (own_property fields key))
  | _ => Normal VUndefined
  end.

(** Sequencing of completions. *)
Definition and_then {A B : Type} (c : completion A) (k : A -> completion B)
    : completion B :=
  match c with
  | Normal a => k a
  | Throw t => Throw t
  end.

(** The namespace [getServiceId(name, type)] looks in: [type === 'api']
    or anything else. *)
Definition kind_of (type : value) : RPG.service_kind :=
  match type with
  | VStr s => if String.eqb s "api" then RPG.api else RPG.msg
  | _ => RPG.msg
  end.

(** [LightweightParsedInput], as [parseServerInput] fills it. *)
Record ParsedInput : Type := {
  in_type : value;
  in_serviceName : value;
  in_serviceId : RPG.registered;
  in_data : value;
  in_sn : value
}.

(** The [try] block of [parseServerInput]. *)
Definition parse_input_body (P : RPG.Platform) (g : RPG.t)
    (data : RPG.serialized) : completion ParsedInput :=
  and_then (RPG.deserialize P data) (fun parsed =>
  and_then (get_property parsed "type") (fun type =>
  and_then (if truthy type then get_property parsed "serviceName"
            else Normal VUndefined) (fun serviceName =>
  if negb (truthy type) || negb (truthy serviceName)
  then Throw (Error "Invalid input format")
  else
    match RPG.getServiceId g (ToString serviceName) (kind_of type) with
    | None => Throw (Error ("Unknown service: " +:+ ToString serviceName))
    | Some serviceId =>
        and_then (get_property parsed "data") (fun data' =>
        and_then (get_property parsed "sn") (fun sn =>
        Normal {| in_type := type; in_serviceName := serviceName;
                  in_serviceId := serviceId; in_data := data';
                  in_sn := sn |}))
    end))).

(** [parseServerInput(data)]: [null] is [None].  The [catch] block reads
    [error.message] for the debug line. *)
Definition parseServerInput (P : RPG.Platform) (g : RPG.t)
    (data : RPG.serialized) : completion (option ParsedInput) :=
  match parse_input_body P g data with
  | Normal input => Normal (Some input)
  | Throw ThrNullish =>
      Throw (TypeError "Cannot read properties of undefined (reading 'message')")
  | Throw _ => Normal None
  end.

(** A registry with the message [chat/message]. *)
Definition chat_registry : RPG.t :=
  register_all [RegisterApi "math/add" None; RegisterMsg "chat/message" None]
    (RPG.new no_options).

(** ** LightweightHttpServer *)

(** The string methods the HTTP server uses. *)
Module JSString.

(** [s.startsWith(prefix)] *)
Fixpoint startsWith (s prefix : string) : bool :=
  match prefix, s with
  | EmptyString, _ => true
  | String p prefix', String c s' => Ascii.eqb c p && startsWith s' prefix'
  | String _ _, EmptyString => false
  end.

(** [s.slice(n)] and [s.slice(0, n)] for [n >= 0]. *)
Fixpoint slice_from (n : nat) (s : string) : string :=
  match n, s with
  | O, _ => s
  | S n', String _ s' => slice_from n' s'
  | S _, EmptyString => EmptyString
  end.

Fixpoint slice_to (n : nat) (s : string) : string :=
  match n, s with
  | O, _ => EmptyString
  | S n', String c s' => String c (slice_to n' s')
  | S _, EmptyString => EmptyString
  end.

(** [s.endsWith(suffix)] *)
Definition endsWith (s suffix : string) : bool :=
  (String.length suffix <=? String.length s)%nat &&
  String.eqb (slice_from (String.length s - String.length suffix) s) suffix.

(** [s.indexOf(c)] for a one-character string [c]; [-1] is [None]. *)
Fixpoint indexOf (s : string) (c : ascii) : option nat :=
  match s with
  | EmptyString => None
  | String x s' =>
      if Ascii.eqb x c then Some O
      else match indexOf s' c with
           | Some i => Some (S i)
           | None => None
           end
  end.

(** [s.split(c)] for a one-character string [c]. *)
Fixpoint split (s : string) (c : ascii) : list string :=
  match s with
  | EmptyString => [EmptyString]
  | String x s' =>
      if Ascii.eqb x c then EmptyString :: split s' c
      else match split s' c with
           | piece :: pieces => String x piece :: pieces
           | [] => [String x EmptyString]
           end
  end.

End JSString.

(** What was written to [res]: [writeHead(statusCode, { "Content-Type":
    contentType })] and [end(body)]. *)
Inductive response_body : Type :=
| Text (text : option string)
| Bytes (bytes : list Byte.byte).

Record HttpResponse : Type := {
  statusCode : N;
  contentType : option string;
  body : response_body
}.

(** The envelope as the object it is. *)
Definition envelope_value (r : LightweightApiReturn) : value :=
  match r with
  | Succ res => VObj [("isSucc", VBool true); ("res", res)]
  | Fail err =>
      VObj [("isSucc", VBool false);
            ("err", VObj [("message", VStr err.(message));
                          ("code", VStr err.(code));
                          ("type", VStr err.(type))])]
  end.

Module LightweightHttpServer.

(** [formatJsonHostPath(path)] *)
Definition formatJsonHostPath (path : string) : string :=
  let path := if JSString.startsWith path "/" then path else "/" +:+ path in
  if JSString.endsWith path "/" then path else path +:+ "/".

(** [parseUrlPath(url)] with [this.serverOptions.jsonHostPath]:
    [serviceName] (absent is [None]) and [isMsg]. *)
Definition parseUrlPath (jsonHostPath url : string) : option string * bool :=
  let '(path, isMsg) :=
    match JSString.indexOf url "?" with
    | Some queryIndex =>
        (JSString.slice_to queryIndex url,
         bool_decide ("type=msg" ∈
                        JSString.split (JSString.slice_from (S queryIndex) url) "&"))
    | None => (url, false)
    end in
  if negb (JSString.startsWith path jsonHostPath) then (None, isMsg)
  else
    let serviceName := JSString.slice_from (String.length jsonHostPath) path in
    (if String.eqb serviceName "" then None else Some serviceName, isMsg).

(** [sendError(res, statusCode, message)] on a response that has not
    been started. *)
Definition sendError (P : RPG.Platform) (status : N) (text : string)
    : HttpResponse :=
  {| statusCode := status; contentType := Some "application/json";
     body := Text (P.(RPG.JSON_stringify)
                     (envelope_value (failure text (pretty status) "ServerError"))) |}.

(** [handleJsonRequest(serviceName, isMsg, body, context, res)], [text]
    being [body.toString()]: the response it writes.  A rejection of the
    returned promise is [Throw]. *)
Definition handleJsonRequest (P : RPG.Platform) (s : LS.t) (serviceName : string)
    (isMsg : bool) (text : string) (context : LightweightCallContext)
    : M HttpResponse :=
  try_catch
    (data <- lift (P.(RPG.JSON_parse) text) ;;
     if isMsg then
       LS.handleMsgCall s serviceName data context ;;;
       ret {| statusCode := 200; contentType := Some "application/json";
              body := Text (P.(RPG.JSON_stringify)
                              (VObj [("success", VBool true)])) |}
     else
       result <- LS.handleApiCall s serviceName data context ;;
       ret {| statusCode := 200; contentType := Some "application/json";
              body := Text (P.(RPG.JSON_stringify) (envelope_value result)) |})
    (fun error =>
       match error with
       | ThrNullish =>
           raise (TypeError "Cannot read properties of undefined (reading 'message')")
       | ThrLightweight m _ _ => ret (sendError P 400 ("JSON parse error: " +:+ m))
       | ThrOther m _ _ =>
           ret (sendError P 400 ("JSON parse error: " +:+ default "undefined" m))
       end).

(** [Buffer.from(responseData)]: the bytes themselves, the UTF-8 bytes of
    a string, and a [TypeError] for [undefined]. *)
Definition Buffer_from (P : RPG.Platform) (data : RPG.serialized)
    : completion (list Byte.byte) :=
  match data with
  | RPG.SBytes bytes => Normal bytes
  | RPG.SString text => Normal (P.(RPG.TextEncoder_encode) text)
  | RPG.SUndefined =>
      Throw (TypeError "The first argument must be of type string or an instance of Buffer, ArrayBuffer, or Array or an Array-like Object. Received undefined")
  end.

(** The members of the envelope, for [{ ...result, sn }]. *)
Definition envelope_fields (r : LightweightApiReturn) : list (string * value) :=
  match envelope_value r with
  | VObj fields => fields
  | _ => []
  end.

(** [handleBinaryRequest(serviceName, body, context, res)]: the response
    it writes; nothing in it catches an exception.  The service name of
    the URL is not used: the packet names the service, and the
    dispatcher converts that name with [String]. *)
Definition handleBinaryRequest (P : RPG.Platform) (s : LS.t) (serviceName : string)
    (bytes : list Byte.byte) (context : LightweightCallContext)
    : M HttpResponse :=
  let g := s.(LS.protocolGenerator) in
  input <- lift (parseServerInput P g (RPG.SBytes bytes)) ;;
  match input with
  | None => ret (sendError P 400 "Invalid binary data")
  | Some input =>
      match input.(in_type) with
      | VStr "msg" =>
          LS.handleMsgCall s (ToString input.(in_serviceName)) input.(in_data)
            context ;;;
          responseData <-
            lift (RPG.serialize P g (VObj [("success", VBool true)]) None) ;;
          buffer <- lift (Buffer_from P responseData) ;;
          ret {| statusCode := 200; contentType := Some "application/octet-stream";
                 body := Bytes buffer |}
      | _ =>
          result <- LS.handleApiCall s (ToString input.(in_serviceName))
                      input.(in_data) context ;;
          responseData <-
            lift (RPG.serialize P g
                    (VObj (envelope_fields result ++ [("sn", input.(in_sn))]))
                    None) ;;
          buffer <- lift (Buffer_from P responseData) ;;
          ret {| statusCode := 200; contentType := Some "application/octet-stream";
                 body := Bytes buffer |}
      end
  end.

(** The part of [serverOptions] that request handling reads, and what
    the constructor makes of the options given: the defaults [/api] and
    10 MB, and the host path formatted. *)
Record ServerOptions : Type := {
  jsonHostPath : string;
  maxBodySize : N
}.


(** What [handleRequest] reads of [req]: the method, whether
    [(req.headers["content-type"] || "").toLowerCase()] includes
    [application/json], the URL, what [readRequestBody] settles to, and
    the two headers that go into the context. *)
Record HttpRequest : Type := {
  req_method : string;
  req_isJson : bool;
  req_url : option string;
  req_body : completion (list Byte.byte);
  req_userAgent : option string;
  req_referer : option string
}.

Definition header_value (h : option string) : value :=
  match h with
  | Some text => VStr text
  | None => VUndefined
  end.

(** [createHttpCallContext(connId, clientIp, req, res)]; of [extra] the
    two header values are kept. *)
Definition createHttpCallContext (now : N) (connId clientIp : string)
    (req : HttpRequest) : LightweightCallContext :=
  {| connId := connId; clientIp := clientIp; startTime := now;
     extra := [("userAgent", header_value req.(req_userAgent));
               ("referer", header_value req.(req_referer))] |}.

(** The outcome of [handleRequest]: how its promise settles, what was
    written to [res] (nothing is [None]), the server afterwards, and the
    events of the dispatch and of the connection side. *)
Record Handled : Type := {
  promise : completion unit;
  response : option HttpResponse;
  server_after : Connections.t;
  dispatch_events : list event;
  connection_events : list connection_event
}.

(** A request answered before a connection is made. *)
Definition answered (r : HttpResponse) (s : Connections.t) : Handled :=
  {| promise := Normal tt; response := Some r; server_after := s;
     dispatch_events := []; connection_events := [] |}.

(** The end of [handleRequest]: its [catch] block when [settled] is an
    exception.  [sendError] writes nothing once a response has been
    started. *)
Definition finish (P : RPG.Platform) (settled : completion unit)
    (written : option HttpResponse) (s : Connections.t)
    (events : list event) (conn_events : list connection_event) : Handled :=
  let failed (m : option string) :=
    {| promise := Normal tt;
       response :=
         Some (default (sendError P 500 (message_or m "Internal server error"))
                 written);
       server_after := s; dispatch_events := events;
       connection_events := conn_events |} in
  match settled with
  | Normal _ =>
      {| promise := Normal tt; response := written; server_after := s;
         dispatch_events := events; connection_events := conn_events |}
  | Throw ThrNullish =>
      {| promise :=
           Throw (TypeError "Cannot read properties of undefined (reading 'message')");
         response := written; server_after := s; dispatch_events := events;
         connection_events := conn_events |}
  | Throw (ThrLightweight m _ _) => failed (Some m)
  | Throw (ThrOther m _ _) => failed m
  end.

(** [handleRequest(req, res)].  [connId] is what [generateConnectionId]
    returned and [clientIp] what [getClientIp] did; [toString] is
    [Buffer.prototype.toString]; the three times are the values of
    [Date.now()] when the connection is made, when the context is
    created and when the connection is dropped.  The response headers
    set first are left out. *)
Definition handleRequest (P : RPG.Platform)
    (toString : list Byte.byte -> string) (options : ServerOptions)
    (connected called disconnected : N) (connId clientIp : string)
    (req : HttpRequest) (s : Connections.t) : Handled :=
  if String.eqb req.(req_method) "OPTIONS" then
    answered {| statusCode := 200; contentType := None; body := Text None |} s
  else if negb (String.eqb req.(req_method) "POST") then
    answered (sendError P 405 "Method not allowed") s
  else
    match req.(req_body) with
    | Throw error => finish P (Throw error) None s [] []
    | Normal bytes =>
        if (options.(maxBodySize) <? N.of_nat (length bytes))%N then
          answered (sendError P 413 "Request body too large") s
        else
          let '(serviceName, isMsg) :=
            parseUrlPath options.(jsonHostPath) (message_or req.(req_url) "/") in
          match serviceName with
          | None => answered (sendError P 400 "Invalid API path") s
          | Some serviceName =>
              let '(made, s1, events1) :=
                Connections.onConnect connected connId clientIp
                  (http_connection clientIp "OPENED") s in
              match made with
              | Throw error => finish P (Throw error) None s1 [] events1
              | Normal _ =>
                  let context := createHttpCallContext called connId clientIp req in
                  let handled :=
                    (if req.(req_isJson)
                     then handleJsonRequest P s.(Connections.server) serviceName
                            isMsg (toString bytes) context
                     else handleBinaryRequest P s.(Connections.server) serviceName
                            bytes context) [] in
                  match handled.1 with
                  | Throw error => finish P (Throw error) None s1 handled.2 events1
                  | Normal written =>
                      let '(dropped, s2, events2) :=
                        Connections.onDisconnect disconnected connId None s1 in
                      finish P dropped (Some written) s2 handled.2
                        (events1 ++ events2)
                  end
              end
          end
    end.

End LightweightHttpServer.

Module Http := LightweightHttpServer.






(** * Properties *)

(** ** Service registry *)

Lemma get_own {A : Type} (o : gmap string A) (key : string) (a : A) :
  o !! key = Some a → JS.get o key = Own a.
Proof. intros H. unfold JS.get. by rewrite H. Qed.

Lemma get_inherited {A : Type} (o : gmap string A) (key : string) :
  o !! key = None → key ∈ Object_prototype_keys → JS.get o key = Inherited key.
Proof.
  intros H Hin. unfold JS.get. rewrite H.
  by rewrite bool_decide_eq_true_2.
Qed.

Lemma get_missing {A : Type} (o : gmap string A) (key : string) :
  o !! key = None → key ∉ Object_prototype_keys → JS.get o key = Missing.
Proof.
  intros H Hin. unfold JS.get. rewrite H.
  by rewrite bool_decide_eq_false_2.
Qed.

(** A name already bound keeps its id: the call returns it and changes
    nothing, the counter included. *)
Lemma registerApi_known (g : RPG.t) (apiName : string)
    (validator : option ApiValidators) (id : N) :
  g.(RPG.serviceMap).(apiName2Id) !! apiName = Some id →
  RPG.registerApi apiName validator g = (RPG.ServiceId id, g).
Proof. intros H. unfold RPG.registerApi. by rewrite (get_own _ _ _ H). Qed.

Lemma registerMsg_known (g : RPG.t) (msgName : string)
    (validator : option Validator) (id : N) :
  g.(RPG.serviceMap).(msgName2Id) !! msgName = Some id →
  RPG.registerMsg msgName validator g = (RPG.ServiceId id, g).
Proof. intros H. unfold RPG.registerMsg. by rewrite (get_own _ _ _ H). Qed.

(** A name that is not bound and that [Object.prototype] does not know
    takes the current value of the counter, which then advances by one. *)
Lemma registerApi_fresh (g : RPG.t) (apiName : string)
    (validator : option ApiValidators) :
  g.(RPG.serviceMap).(apiName2Id) !! apiName = None →
  apiName ∉ Object_prototype_keys →
  let r := RPG.registerApi apiName validator g in
  r.1 = RPG.ServiceId g.(RPG.serviceMap).(nextId) ∧
  r.2.(RPG.serviceMap).(nextId) = (g.(RPG.serviceMap).(nextId) + 1)%N ∧
  r.2.(RPG.serviceMap).(apiName2Id) =
    <[apiName := g.(RPG.serviceMap).(nextId)]> g.(RPG.serviceMap).(apiName2Id) ∧
  r.2.(RPG.serviceMap).(msgName2Id) = g.(RPG.serviceMap).(msgName2Id).
Proof.
  intros H Hk. unfold RPG.registerApi. rewrite (get_missing _ _ H Hk). done.
Qed.

Lemma registerMsg_fresh (g : RPG.t) (msgName : string)
    (validator : option Validator) :
  g.(RPG.serviceMap).(msgName2Id) !! msgName = None →
  msgName ∉ Object_prototype_keys →
  let r := RPG.registerMsg msgName validator g in
  r.1 = RPG.ServiceId g.(RPG.serviceMap).(nextId) ∧
  r.2.(RPG.serviceMap).(nextId) = (g.(RPG.serviceMap).(nextId) + 1)%N ∧
  r.2.(RPG.serviceMap).(msgName2Id) =
    <[msgName := g.(RPG.serviceMap).(nextId)]> g.(RPG.serviceMap).(msgName2Id) ∧
  r.2.(RPG.serviceMap).(apiName2Id) = g.(RPG.serviceMap).(apiName2Id).
Proof.
  intros H Hk. unfold RPG.registerMsg. rewrite (get_missing _ _ H Hk). done.
Qed.

(** A name that [Object.prototype] knows is never bound: the lookup that
    guards the registration finds the inherited member and returns it. *)
Lemma registerApi_inherited (g : RPG.t) (apiName : string)
    (validator : option ApiValidators) :
  g.(RPG.serviceMap).(apiName2Id) !! apiName = None →
  apiName ∈ Object_prototype_keys →
  RPG.registerApi apiName validator g = (RPG.PrototypeMember apiName, g).
Proof.
  intros H Hk. unfold RPG.registerApi. by rewrite (get_inherited _ _ H Hk).
Qed.

Lemma registerMsg_inherited (g : RPG.t) (msgName : string)
    (validator : option Validator) :
  g.(RPG.serviceMap).(msgName2Id) !! msgName = None →
  msgName ∈ Object_prototype_keys →
  RPG.registerMsg msgName validator g = (RPG.PrototypeMember msgName, g).
Proof.
  intros H Hk. unfold RPG.registerMsg. by rewrite (get_inherited _ _ H Hk).
Qed.

Lemma registry_inv_new (o : LightweightProtocolOptions) :
  registry_inv (RPG.new o).(RPG.serviceMap).
Proof.
  split; simpl; intros;
    try match goal with H : is_Some _ |- _ => destruct H as [? ?] end;
    by rewrite ?lookup_empty in *.
Qed.

Lemma registry_inv_registerApi (g : RPG.t) (apiName : string)
    (validator : option ApiValidators) :
  registry_inv g.(RPG.serviceMap) →
  registry_inv (RPG.registerApi apiName validator g).2.(RPG.serviceMap).
Proof.
  intros I. unfold RPG.registerApi, JS.get.
  destruct (g.(RPG.serviceMap).(apiName2Id) !! apiName) as [id|] eqn:E; [done|].
  case_bool_decide as Hk; [done|].
  destruct I as [Iab Imb Iabk Imbk Iaf Imf Id Iao Imo].
  split; simpl.
  - intros name id. rewrite lookup_insert. case_decide as Hd; intros H.
    + inversion H. lia.
    + apply Iab in H. lia.
  - intros name id H. apply Imb in H. lia.
  - intros name id. rewrite lookup_insert. case_decide as Hn; intros H.
    + inversion H; subst. by rewrite lookup_insert_eq.
    + rewrite lookup_insert_ne; [by apply Iabk|].
      apply Iab in H. lia.
  - done.
  - intros id name. rewrite lookup_insert. case_decide as Hn; intros H.
    + inversion H; subst. by rewrite lookup_insert_eq.
    + rewrite lookup_insert_ne; [by apply Iaf|].
      intros ->. apply Iaf in H. congruence.
  - done.
  - intros a m id. rewrite lookup_insert. case_decide as Hd; intros H Hm.
    + inversion H; subst. apply Imb in Hm. lia.
    + by eapply Id.
  - intros name. rewrite lookup_insert. case_decide as Hd; intros H.
    + by subst.
    + by apply Iao.
  - done.
Qed.

Lemma registry_inv_registerMsg (g : RPG.t) (msgName : string)
    (validator : option Validator) :
  registry_inv g.(RPG.serviceMap) →
  registry_inv (RPG.registerMsg msgName validator g).2.(RPG.serviceMap).
Proof.
  intros I. unfold RPG.registerMsg, JS.get.
  destruct (g.(RPG.serviceMap).(msgName2Id) !! msgName) as [id|] eqn:E; [done|].
  case_bool_decide as Hk; [done|].
  destruct I as [Iab Imb Iabk Imbk Iaf Imf Id Iao Imo].
  split; simpl.
  - intros name id H. apply Iab in H. lia.
  - intros name id. rewrite lookup_insert. case_decide as Hd; intros H.
    + inversion H. lia.
    + apply Imb in H. lia.
  - done.
  - intros name id. rewrite lookup_insert. case_decide as Hn; intros H.
    + inversion H; subst. by rewrite lookup_insert_eq.
    + rewrite lookup_insert_ne; [by apply Imbk|].
      apply Imb in H. lia.
  - done.
  - intros id name. rewrite lookup_insert. case_decide as Hn; intros H.
    + inversion H; subst. by rewrite lookup_insert_eq.
    + rewrite lookup_insert_ne; [by apply Imf|].
      intros ->. apply Imf in H. congruence.
  - intros a m id Ha. rewrite lookup_insert. case_decide as Hd; intros H.
    + inversion H; subst. apply Iab in Ha. lia.
    + by eapply Id.
  - done.
  - intros name. rewrite lookup_insert. case_decide as Hd; intros H.
    + by subst.
    + by apply Imo.
Qed.

Lemma registry_inv_register (r : registration) (g : RPG.t) :
  registry_inv g.(RPG.serviceMap) →
  registry_inv (register r g).2.(RPG.serviceMap).
Proof.
  destruct r; [apply registry_inv_registerApi | apply registry_inv_registerMsg].
Qed.

Lemma registry_inv_register_all (rs : list registration) (g : RPG.t) :
  registry_inv g.(RPG.serviceMap) →
  registry_inv (register_all rs g).(RPG.serviceMap).
Proof.
  revert g. induction rs as [|r rs IH]; intros g I; [done|].
  apply IH. by apply registry_inv_register.
Qed.

(** Every state the registry reaches from its constructor satisfies the
    invariant. *)
Lemma registry_inv_reachable (o : LightweightProtocolOptions)
    (rs : list registration) :
  registry_inv (register_all rs (RPG.new o)).(RPG.serviceMap).
Proof. apply registry_inv_register_all, registry_inv_new. Qed.

(** Under the invariant two bindings with the same id are the same
    binding: ids are unique within a namespace and across the two. *)
Lemma bound_ids_distinct (g : RPG.t) (k1 k2 : RPG.service_kind)
    (n1 n2 : string) (id : N) :
  registry_inv g.(RPG.serviceMap) →
  bound_id g k1 n1 = Some id →
  bound_id g k2 n2 = Some id →
  k1 = k2 ∧ n1 = n2.
Proof.
  intros I H1 H2. destruct k1, k2; simpl in *.
  - split; [done|].
    apply (inv_api_back _ I) in H1. apply (inv_api_back _ I) in H2. congruence.
  - destruct (inv_disjoint _ I _ _ _ H1 H2).
  - destruct (inv_disjoint _ I _ _ _ H2 H1).
  - split; [done|].
    apply (inv_msg_back _ I) in H1. apply (inv_msg_back _ I) in H2. congruence.
Qed.

(** A registration never changes a binding that exists, and never moves
    the counter backwards. *)
Lemma register_keeps_bindings (r : registration) (g : RPG.t)
    (kind : RPG.service_kind) (name : string) (id : N) :
  bound_id g kind name = Some id →
  bound_id (register r g).2 kind name = Some id.
Proof.
  intros H. destruct r as [apiName v | msgName v]; simpl.
  - unfold RPG.registerApi, JS.get.
    destruct (g.(RPG.serviceMap).(apiName2Id) !! apiName) eqn:E; [done|].
    case_bool_decide; [done|]. destruct kind; simpl in *; [|done].
    rewrite lookup_insert_ne; [done|]. intros ->. congruence.
  - unfold RPG.registerMsg, JS.get.
    destruct (g.(RPG.serviceMap).(msgName2Id) !! msgName) eqn:E; [done|].
    case_bool_decide; [done|]. destruct kind; simpl in *; [done|].
    rewrite lookup_insert_ne; [done|]. intros ->. congruence.
Qed.

Lemma register_all_keeps_bindings (rs : list registration) (g : RPG.t)
    (kind : RPG.service_kind) (name : string) (id : N) :
  bound_id g kind name = Some id →
  bound_id (register_all rs g) kind name = Some id.
Proof.
  revert g. induction rs as [|r rs IH]; intros g H; [done|].
  apply IH. by apply register_keeps_bindings.
Qed.

Lemma register_counter_monotone (r : registration) (g : RPG.t) :
  (g.(RPG.serviceMap).(nextId) ≤ (register r g).2.(RPG.serviceMap).(nextId))%N.
Proof.
  destruct r as [apiName v | msgName v]; simpl.
  - unfold RPG.registerApi. destruct (JS.get _ _); simpl; lia.
  - unfold RPG.registerMsg. destruct (JS.get _ _); simpl; lia.
Qed.

(** What the registry does guarantee.  From any reachable state, for a
    name that [Object.prototype] does not know: the first registration
    returns an id that no binding uses yet; registering the name again,
    at any later time, returns that id and changes nothing; and any two
    bindings with equal ids are one binding. *)
Lemma registration_of_ordinary_names (o : LightweightProtocolOptions)
    (before later : list registration) (apiName : string)
    (v v' : option ApiValidators) :
  apiName ∉ Object_prototype_keys →
  let g := register_all before (RPG.new o) in
  let first := RPG.registerApi apiName v g in
  let g' := register_all later first.2 in
  ∃ id : N,
    first.1 = RPG.ServiceId id ∧
    RPG.registerApi apiName v' g' = (RPG.ServiceId id, g') ∧
    RPG.getServiceId g' apiName RPG.api = Some (RPG.ServiceId id) ∧
    (∀ kind name, bound_id g' kind name = Some id →
       kind = RPG.api ∧ name = apiName).
Proof.
  intros Hk g first g'.
  assert (Ig : registry_inv g.(RPG.serviceMap)) by apply registry_inv_reachable.
  assert (Ig' : registry_inv g'.(RPG.serviceMap)).
  { apply registry_inv_register_all, registry_inv_registerApi, Ig. }
  assert (∃ id, first.1 = RPG.ServiceId id ∧
                bound_id first.2 RPG.api apiName = Some id) as (id & Hid & Hb).
  { subst first. destruct (g.(RPG.serviceMap).(apiName2Id) !! apiName) as [id|] eqn:E.
    - exists id. by rewrite (registerApi_known _ _ _ _ E).
    - destruct (registerApi_fresh g apiName v E Hk) as (H1 & _ & H3 & _).
      eexists. split; [exact H1|]. simpl. rewrite H3. apply lookup_insert_eq. }
  exists id. split; [done|].
  pose proof (register_all_keeps_bindings later _ _ _ _ Hb) as Hb'.
  fold g' in Hb'. simpl in Hb'.
  split; [by apply registerApi_known|].
  split; [simpl; by rewrite (get_own _ _ _ Hb')|].
  intros kind name H.
  by apply (bound_ids_distinct g' kind RPG.api name apiName id).
Qed.

Lemma registration_of_ordinary_msg_names (o : LightweightProtocolOptions)
    (before later : list registration) (msgName : string)
    (v v' : option Validator) :
  msgName ∉ Object_prototype_keys →
  let g := register_all before (RPG.new o) in
  let first := RPG.registerMsg msgName v g in
  let g' := register_all later first.2 in
  ∃ id : N,
    first.1 = RPG.ServiceId id ∧
    RPG.registerMsg msgName v' g' = (RPG.ServiceId id, g') ∧
    RPG.getServiceId g' msgName RPG.msg = Some (RPG.ServiceId id) ∧
    (∀ kind name, bound_id g' kind name = Some id →
       kind = RPG.msg ∧ name = msgName).
Proof.
  intros Hk g first g'.
  assert (Ig : registry_inv g.(RPG.serviceMap)) by apply registry_inv_reachable.
  assert (Ig' : registry_inv g'.(RPG.serviceMap)).
  { apply registry_inv_register_all, registry_inv_registerMsg, Ig. }
  assert (∃ id, first.1 = RPG.ServiceId id ∧
                bound_id first.2 RPG.msg msgName = Some id) as (id & Hid & Hb).
  { subst first. destruct (g.(RPG.serviceMap).(msgName2Id) !! msgName) as [id|] eqn:E.
    - exists id. by rewrite (registerMsg_known _ _ _ _ E).
    - destruct (registerMsg_fresh g msgName v E Hk) as (H1 & _ & H3 & _).
      eexists. split; [exact H1|]. simpl. rewrite H3. apply lookup_insert_eq. }
  exists id. split; [done|].
  pose proof (register_all_keeps_bindings later _ _ _ _ Hb) as Hb'.
  fold g' in Hb'. simpl in Hb'.
  split; [by apply registerMsg_known|].
  split; [simpl; by rewrite (get_own _ _ _ Hb')|].
  intros kind name H.
  by apply (bound_ids_distinct g' kind RPG.msg name msgName id).
Qed.

(** Registering one name twice in one namespace moves the counter by
    exactly one; registering one string in both namespaces gives two
    different ids. *)
Lemma hello_registered_twice :
  let g0 := RPG.new no_options in
  let r1 := RPG.registerApi "hello" None g0 in
  let r2 := RPG.registerApi "hello" None r1.2 in
  let r3 := RPG.registerMsg "hello" None r2.2 in
  r1.1 = RPG.ServiceId 0 ∧ r2.1 = RPG.ServiceId 0 ∧ r3.1 = RPG.ServiceId 1 ∧
  r2.2.(RPG.serviceMap).(nextId) = 1%N ∧
  r3.2.(RPG.serviceMap).(nextId) = 2%N.
Proof. vm_compute. done. Qed.

(** C7 (the registry does not keep it).  The claim promises every name a
    fresh non-negative id on its first registration.  [registerApi
    ("constructor")] on a new registry finds [Object.prototype.constructor]
    under that key of the empty [apiName2Id] object, takes the name for
    registered, and returns the inherited member: no id is assigned, the
    counter stays at 0, and [getServiceId] keeps answering with the
    member.  [registerMsg] does the same. *)
Theorem registerApi_constructor_gets_no_id :
  let g := RPG.new no_options in
  RPG.registerApi "constructor" None g = (RPG.PrototypeMember "constructor", g) ∧
  RPG.registerMsg "constructor" None g = (RPG.PrototypeMember "constructor", g) ∧
  bound_id (RPG.registerApi "constructor" None g).2 RPG.api "constructor" = None ∧
  (RPG.registerApi "constructor" None g).2.(RPG.serviceMap).(nextId) = 0%N ∧
  RPG.getServiceId g "constructor" RPG.api = Some (RPG.PrototypeMember "constructor").
Proof. vm_compute. done. Qed.

(** ** Validation *)

(** Reading [.req] or [.res] through [o[name]?.] finds what the own
    entry has; an inherited member has neither. *)
Lemma entry_req_own (o : gmap string ApiValidators) (name : string) :
  RPG.entry_req o name = e ← o !! name; e.(req).
Proof.
  unfold RPG.entry_req, JS.get. destruct (o !! name); [done|].
  by case_bool_decide.
Qed.

Lemma entry_res_own (o : gmap string ApiValidators) (name : string) :
  RPG.entry_res o name = e ← o !! name; e.(res).
Proof.
  unfold RPG.entry_res, JS.get. destruct (o !! name); [done|].
  by case_bool_decide.
Qed.

(** [validateRequest] and [validateResponse] follow the four-step order
    for every name. *)
Lemma validateRequest_fallback (g : RPG.t) (apiName : string) (data : value) :
  RPG.validateRequest g apiName data =
  validate_by_fallback g.(RPG.options).(RPG.opt_enableValidation)
    (explicit_req g apiName) (custom_req g apiName) data.
Proof.
  unfold RPG.validateRequest, validate_by_fallback, explicit_req, custom_req.
  rewrite !entry_req_own.
  destruct (negb _); [done|].
  destruct (_ ≫= _); [done|]. by destruct (_ ≫= _).
Qed.

Lemma validateResponse_fallback (g : RPG.t) (apiName : string) (data : value) :
  RPG.validateResponse g apiName data =
  validate_by_fallback g.(RPG.options).(RPG.opt_enableValidation)
    (explicit_res g apiName) (custom_res g apiName) data.
Proof.
  unfold RPG.validateResponse, validate_by_fallback, explicit_res, custom_res.
  rewrite !entry_res_own.
  destruct (negb _); [done|].
  destruct (_ ≫= _); [done|]. by destruct (_ ≫= _).
Qed.

(** [validateMessage] follows the order, with no custom step, for every
    name that [Object.prototype] does not know. *)
Lemma validateMessage_fallback (g : RPG.t) (msgName : string) (data : value) :
  msgName ∉ Object_prototype_keys →
  RPG.validateMessage g msgName data =
  validate_by_fallback g.(RPG.options).(RPG.opt_enableValidation)
    (explicit_msg g msgName) None data.
Proof.
  intros Hk. unfold RPG.validateMessage, validate_by_fallback, explicit_msg, JS.get.
  destruct (negb _); [done|].
  destruct (_ !! _); [done|]. by rewrite bool_decide_eq_false_2.
Qed.

(** The order itself never throws: an exception out of a validation is
    the exception of the validator that was consulted. *)
Lemma validation_throws_only_from_validator (enabled : bool)
    (explicit custom : option Validator) (data : value) (t : thrown) :
  validate_by_fallback enabled explicit custom data = Throw t →
  ∃ validator, (explicit = Some validator ∨ custom = Some validator) ∧
               validator data = Throw t.
Proof.
  unfold validate_by_fallback. destruct enabled; simpl; [|done].
  destruct explicit as [v|]; [by exists v; auto|].
  destruct custom as [v|]; [by exists v; auto|done].
Qed.

(** The registry never stores a validator under a name that
    [Object.prototype] knows: registration stops before. *)
Lemma validators_msg_own (rs : list registration) (g : RPG.t) (name : string) :
  (∀ n, is_Some (g.(RPG.protocol).(validators_msg) !! n) → n ∉ Object_prototype_keys) →
  is_Some ((register_all rs g).(RPG.protocol).(validators_msg) !! name) →
  name ∉ Object_prototype_keys.
Proof.
  revert g. induction rs as [|r rs IH]; intros g Hg; [by apply Hg|].
  simpl. apply IH. intros n.
  destruct r as [apiName v | msgName v]; simpl.
  - unfold RPG.registerApi. destruct (JS.get _ _); simpl; apply Hg.
  - unfold RPG.registerMsg, JS.get.
    destruct (_ !! msgName); [apply Hg|].
    case_bool_decide as Hk; [apply Hg|]. simpl.
    destruct v as [v|]; [|apply Hg].
    destruct (RPG.opt_enableValidation _); [|apply Hg].
    rewrite lookup_insert. case_decide as Hd; [by subst|apply Hg].
Qed.

Lemma register_all_options (rs : list registration) (g : RPG.t) :
  (register_all rs g).(RPG.options) = g.(RPG.options).
Proof.
  revert g. induction rs as [|r rs IH]; intros g; [done|].
  simpl. rewrite IH. destruct r; simpl.
  - unfold RPG.registerApi. by destruct (JS.get _ _).
  - unfold RPG.registerMsg. by destruct (JS.get _ _).
Qed.

(** With validation enabled, whatever has been registered, a message
    named [__proto__] cannot be validated: the call throws. *)
Lemma validateMessage_proto_always_throws (o : LightweightProtocolOptions)
    (rs : list registration) (data : value) :
  default true o.(enableValidation) = true →
  RPG.validateMessage (register_all rs (RPG.new o)) "__proto__" data =
  Throw (TypeError "validator is not a function").
Proof.
  intros He. unfold RPG.validateMessage.
  rewrite register_all_options. simpl. rewrite He. simpl.
  rewrite get_inherited; [done| |by vm_compute; set_solver].
  destruct (_ !! _) eqn:E; [|done]. exfalso.
  eapply (validators_msg_own rs (RPG.new o) "__proto__").
  - simpl. intros n [? H]. by rewrite lookup_empty in H.
  - by rewrite E.
  - unfold Object_prototype_keys. set_solver.
Qed.

(** C9 (the registry does not keep it).  The fallback order ends in
    "accept" when no validator is registered or supplied, and validation
    is said never to throw.  On a new registry no validator exists for
    the message name [__proto__], yet [validateMessage] takes
    [Object.prototype], which it finds under that key of the empty
    [validators.msg] object, for a validator and calls it, which throws a
    [TypeError]; under [isPrototypeOf] it finds a function that returns
    [false] for a number, and rejects.  The order itself is what
    [validateRequest_fallback], [validateResponse_fallback] and
    [validateMessage_fallback] establish. *)
Theorem validateMessage_proto_throws :
  let g := RPG.new no_options in
  explicit_msg g "__proto__" = None ∧
  validate_by_fallback true (explicit_msg g "__proto__") None VNull = Normal true ∧
  RPG.validateMessage g "__proto__" VNull =
    Throw (TypeError "validator is not a function") ∧
  RPG.validateMessage g "isPrototypeOf" (VNum 5) = Normal false.
Proof. vm_compute. done. Qed.

(** ** Codec *)

(** C8.  Let [x] be JSON-representable on the platform: [JSON.stringify]
    gives it a text that [JSON.parse] reads back as [x], and that text
    survives UTF-8 encoding and decoding.  Then in [json] mode
    [serialize] returns that text, in [binary] mode its bytes, and
    [deserialize] recovers [x] from either. *)
Theorem codec_round_trip (P : RPG.Platform) (g : RPG.t) (x : value)
    (type : option SerializationMode) (mode : SerializationMode)
    (text : string) :
  P.(RPG.JSON_stringify) x = Some text →
  P.(RPG.JSON_parse) text = Normal x →
  P.(RPG.TextDecoder_decode) (P.(RPG.TextEncoder_encode) text) = text →
  default g.(RPG.options).(RPG.opt_serializationMode) type = mode →
  mode = json ∨ mode = binary →
  ∃ wire,
    RPG.serialize P g x type = Normal wire ∧
    RPG.deserialize P wire = Normal x ∧
    (mode = json → wire = RPG.SString text) ∧
    (mode = binary → wire = RPG.SBytes (P.(RPG.TextEncoder_encode) text)).
Proof.
  intros Hs Hp Hu Hm [-> | ->]; unfold RPG.serialize; rewrite Hm, Hs; simpl.
  - exists (RPG.SString text). split; [done|]. split; [done|].
    split; [done|discriminate].
  - exists (RPG.SBytes (P.(RPG.TextEncoder_encode) text)). simpl. rewrite Hu.
    split; [done|]. split; [done|]. split; [discriminate|done].
Qed.

Lemma codec_round_trip_witness :
  ∃ wire,
    RPG.serialize MiniPlatform.platform (RPG.new no_options) add_request
      (Some binary) = Normal wire ∧
    RPG.deserialize MiniPlatform.platform wire = Normal add_request.
Proof.
  destruct (codec_round_trip MiniPlatform.platform (RPG.new no_options)
              add_request (Some binary) binary
              (MiniPlatform.text_of add_request))
    as (wire & H1 & H2 & _);
    [vm_compute; reflexivity .. | right; reflexivity |].
  exists wire. split; [exact H1 | exact H2].
Defined.

(** In [auto] mode the text decides: more than 1024 code units go out as
    bytes, anything else as text; the round trip holds either way. *)
Lemma codec_round_trip_auto (P : RPG.Platform) (g : RPG.t) (x : value)
    (text : string) :
  P.(RPG.JSON_stringify) x = Some text →
  P.(RPG.JSON_parse) text = Normal x →
  P.(RPG.TextDecoder_decode) (P.(RPG.TextEncoder_encode) text) = text →
  ∃ wire,
    RPG.serialize P g x (Some auto) = Normal wire ∧
    RPG.deserialize P wire = Normal x ∧
    wire = (if (1024 <? String.length text)%nat
            then RPG.SBytes (P.(RPG.TextEncoder_encode) text)
            else RPG.SString text).
Proof.
  intros Hs Hp Hu. unfold RPG.serialize. simpl. rewrite Hs.
  destruct (1024 <? String.length text)%nat; simpl; rewrite ?Hs; simpl;
    eexists; (split; [reflexivity|]); simpl; rewrite ?Hu; done.
Qed.

(** ** The executable platform is lawful *)

Lemma decode_encode_char (c : ascii) (tail : list Byte.byte) :
  MiniPlatform.decode (MiniPlatform.encode_char c ++ tail) =
  String c (MiniPlatform.decode tail).
Proof.
  destruct c as [[] [] [] [] [] [] [] []]; reflexivity.
Qed.

(** UTF-8 decoding undoes UTF-8 encoding. *)
Lemma decode_encode (s : string) :
  MiniPlatform.decode (MiniPlatform.encode s) = s.
Proof.
  induction s as [|c s IH]; [done|].
  simpl. by rewrite decode_encode_char, IH.
Qed.

Lemma append_assoc (a b c : string) : (a +:+ b) +:+ c = a +:+ (b +:+ c).
Proof.
  induction a as [|x a IH]; [done|].
  change (String x ((a +:+ b) +:+ c) = String x (a +:+ (b +:+ c))).
  by rewrite IH.
Qed.

(** A quoted string is read back up to its closing quote. *)
Lemma parse_string_body_escape (s rest : string) :
  MiniPlatform.parse_string_body
    (MiniPlatform.escape s +:+ String MiniPlatform.dquote rest) = Some (s, rest).
Proof.
  induction s as [|c s IH]; [done|].
  simpl. destruct (Ascii.eqb c MiniPlatform.dquote) eqn:Eq; simpl.
  - apply Ascii.eqb_eq in Eq as ->. simpl. by rewrite IH.
  - destruct (Ascii.eqb c MiniPlatform.backslash) eqn:Eb; simpl.
    + apply Ascii.eqb_eq in Eb as ->. simpl. by rewrite IH.
    + rewrite Eq, Eb. by rewrite IH.
Qed.

Lemma digit_of_pretty_N_char (d : N) :
  (d < 10)%N →
  MiniPlatform.digit_of (pretty_N_char d) = Some (Z.of_N d).
Proof.
  intros Hd.
  assert (d = 0 ∨ d = 1 ∨ d = 2 ∨ d = 3 ∨ d = 4 ∨ d = 5 ∨ d = 6 ∨ d = 7
          ∨ d = 8 ∨ d = 9)%N as H by lia.
  repeat (destruct H as [-> | H]; [reflexivity|]). by subst.
Qed.

Lemma pretty_N_go_append (x : N) (s : string) :
  pretty_N_go x s = pretty_N_go x "" +:+ s.
Proof.
  revert s. induction (N.lt_wf_0 x) as [x _ IH]; intros s.
  assert (x = 0 ∨ 0 < x)%N as [-> | Hx] by lia; [done|].
  assert (Hlt : (x `div` 10 < x)%N) by (by apply N.div_lt).
  rewrite !(pretty_N_go_step x) by done.
  rewrite (IH _ Hlt (String _ s)), (IH _ Hlt (String _ "")).
  by rewrite append_assoc.
Qed.

(** The digits of a number are read back as the number. *)
Lemma parse_digits_pretty_N_go (x : N) (rest : string) :
  MiniPlatform.parse_digits (pretty_N_go x "" +:+ rest) 0 =
  MiniPlatform.parse_digits rest (Z.of_N x).
Proof.
  revert rest. induction (N.lt_wf_0 x) as [x _ IH]; intros rest.
  assert (x = 0 ∨ 0 < x)%N as [-> | Hx] by lia; [done|].
  rewrite (pretty_N_go_step x) by done.
  rewrite pretty_N_go_append, append_assoc.
  rewrite IH by (by apply N.div_lt). simpl.
  rewrite digit_of_pretty_N_char by (by apply N.mod_lt).
  f_equal. rewrite (N.div_mod x 10) at 3 by done. lia.
Qed.

Lemma parse_digits_done (rest : string) (acc : Z) :
  MiniPlatform.ends_number rest →
  MiniPlatform.parse_digits rest acc = (acc, rest).
Proof. destruct rest as [|c rest]; simpl; [done|]. by intros ->. Qed.

(** The digits of a positive number start with a digit. *)
Lemma pretty_N_go_head (x : N) :
  (0 < x)%N →
  ∃ c tail d, pretty_N_go x "" = String c tail ∧ MiniPlatform.digit_of c = Some d.
Proof.
  induction (N.lt_wf_0 x) as [x _ IH]; intros Hx.
  rewrite (pretty_N_go_step x) by done. rewrite pretty_N_go_append.
  destruct (N.eq_0_gt_0_cases (x `div` 10)) as [-> | Hd].
  - simpl. eexists _, _, _. split; [done|].
    apply digit_of_pretty_N_char. by apply N.mod_lt.
  - destruct (IH (x `div` 10)%N) as (c & tail & d & -> & Hc);
      [by apply N.div_lt | done |].
    simpl. by eexists _, _, _.
Qed.

Lemma pretty_Z_head (n : Z) :
  ∃ c tail, pretty n = String c tail ∧
    (c = "-"%char ∨ ∃ d, MiniPlatform.digit_of c = Some d).
Proof.
  destruct n as [|p|p]; unfold pretty, pretty_Z.
  - exists "0"%char, "". split; [done|]. right. by eexists.
  - unfold pretty, pretty_positive, pretty, pretty_N.
    rewrite decide_False by done.
    destruct (pretty_N_go_head (N.pos p)) as (c & tail & d & -> & Hc); [lia|].
    exists c, tail. split; [done|]. right. by eexists.
  - eexists _, _. split; [done|]. by left.
Qed.

Lemma digit_not_dash (c : ascii) (d : Z) :
  MiniPlatform.digit_of c = Some d → Ascii.eqb c "-" = false.
Proof.
  destruct (Ascii.eqb c "-") eqn:E; [|done].
  apply Ascii.eqb_eq in E as ->. discriminate.
Qed.

Lemma append_cons (c : ascii) (a b : string) :
  String c a +:+ b = String c (a +:+ b).
Proof. reflexivity. Qed.

(** The text of an integer is read back as the integer. *)
Lemma parse_number_pretty (n : Z) (rest : string) :
  MiniPlatform.ends_number rest →
  MiniPlatform.parse_number (pretty n +:+ rest) = Some (n, rest).
Proof.
  intros Hrest. destruct n as [|p|p]; unfold pretty, pretty_Z.
  - rewrite append_cons. unfold MiniPlatform.parse_number.
    change (MiniPlatform.parse_digits (String "0" ("" +:+ rest)) 0)
      with (MiniPlatform.parse_digits rest 0).
    simpl. by rewrite parse_digits_done.
  - unfold pretty, pretty_positive, pretty, pretty_N.
    rewrite decide_False by done.
    destruct (pretty_N_go_head (N.pos p)) as (c & tail & d & Hs & Hc); [lia|].
    pose proof (parse_digits_pretty_N_go (N.pos p) rest) as Hp.
    rewrite Hs in *. rewrite append_cons in *.
    unfold MiniPlatform.parse_number.
    rewrite (digit_not_dash _ _ Hc), Hc, Hp.
    by rewrite parse_digits_done.
  - unfold pretty, pretty_positive, pretty, pretty_N.
    rewrite decide_False by done.
    destruct (pretty_N_go_head (N.pos p)) as (c & tail & d & Hs & Hc); [lia|].
    pose proof (parse_digits_pretty_N_go (N.pos p) rest) as Hp.
    rewrite Hs in *. rewrite !append_cons in *.
    unfold MiniPlatform.parse_number.
    change (Ascii.eqb "-" "-") with true. cbv iota.
    change (("" +:+ String c tail) +:+ rest) with (String c (tail +:+ rest)).
    cbv iota. rewrite Hc, Hp.
    by rewrite parse_digits_done.
Qed.

Lemma append_nil_r (a : string) : a +:+ "" = a.
Proof.
  induction a as [|x a IH]; [done|].
  rewrite append_cons. by rewrite IH.
Qed.

Lemma length_append (a b : string) :
  String.length (a +:+ b) = String.length a + String.length b.
Proof.
  induction a as [|x a IH]; [done|].
  rewrite append_cons. simpl. by rewrite IH.
Qed.

(** Induction on values through the lists they contain. *)
Lemma value_ind_nested (P : value → Prop) :
  P VUndefined → P VNull → (∀ b, P (VBool b)) → (∀ n, P (VNum n)) →
  (∀ s, P (VStr s)) →
  (∀ items, Forall P items → P (VArr items)) →
  (∀ fields, Forall (fun kx : string * value => P kx.2) fields → P (VObj fields)) →
  ∀ v, P v.
Proof.
  intros Hu Hn Hb Hz Hs Ha Ho. fix IH 1.
  intros [| |b|n|s|items|fields];
    [exact Hu | exact Hn | apply Hb | apply Hz | apply Hs | |].
  - apply Ha. induction items as [|x items IHi]; constructor;
      [apply IH | exact IHi].
  - apply Ho. induction fields as [|[k x] fields IHf]; constructor;
      [apply IH | exact IHf].
Qed.

Lemma stringify_defined (x : value) :
  MiniPlatform.defined x = true →
  MiniPlatform.stringify x = Some (MiniPlatform.text_of x).
Proof.
  unfold MiniPlatform.text_of. destruct x as [| |[]| | | |]; simpl; done.
Qed.

Lemma text_of_arr (items : list value) :
  forallb MiniPlatform.defined items = true →
  MiniPlatform.text_of (VArr items) =
  "[" +:+ MiniPlatform.join_comma (map MiniPlatform.text_of items) +:+ "]".
Proof.
  intros Hd. unfold MiniPlatform.text_of at 1. simpl. do 3 f_equal.
  induction items as [|x items IH]; [done|].
  simpl in Hd. apply andb_true_iff in Hd as [Hx Hd].
  simpl. rewrite (IH Hd). f_equal. by rewrite (stringify_defined x Hx).
Qed.

Lemma text_of_obj (fields : list (string * value)) :
  forallb (fun kx : string * value => MiniPlatform.defined kx.2) fields = true →
  MiniPlatform.text_of (VObj fields) =
  "{" +:+ MiniPlatform.join_comma (map MiniPlatform.field_text fields) +:+ "}".
Proof.
  intros Hd. unfold MiniPlatform.text_of at 1. simpl. do 3 f_equal.
  induction fields as [|[k x] fields IH]; [done|].
  simpl in Hd. apply andb_true_iff in Hd as [Hx Hd].
  cbn. rewrite (stringify_defined x Hx). cbn. f_equal. exact (IH Hd).
Qed.

Lemma parse_items_S (fuel : nat) (s : string) :
  MiniPlatform.parse_items (S fuel) s =
  '(v, r) ← MiniPlatform.parse_value fuel s;
  match r with
  | String c r' =>
      if Ascii.eqb c "," then
        '(vs, r'') ← MiniPlatform.parse_items fuel r'; Some (v :: vs, r'')
      else if Ascii.eqb c "]" then Some ([v], r')
      else None
  | EmptyString => None
  end.
Proof. reflexivity. Qed.

Lemma parse_fields_S (fuel : nat) (c : ascii) (rest : string) :
  MiniPlatform.parse_fields (S fuel) (String c rest) =
  if Ascii.eqb c MiniPlatform.dquote then
    '(k, r) ← MiniPlatform.parse_string_body rest;
    match r with
    | String c1 r1 =>
        if Ascii.eqb c1 ":" then
          '(v, r2) ← MiniPlatform.parse_value fuel r1;
          match r2 with
          | String c2 r3 =>
              if Ascii.eqb c2 "," then
                '(fs, r4) ← MiniPlatform.parse_fields fuel r3;
                Some ((k, v) :: fs, r4)
              else if Ascii.eqb c2 "}" then Some ([(k, v)], r3)
              else None
          | EmptyString => None
          end
        else None
    | EmptyString => None
    end
  else None.
Proof. reflexivity. Qed.

Lemma parse_value_number (fuel : nat) (c : ascii) (rest : string) :
  (c = "-"%char ∨ ∃ d, MiniPlatform.digit_of c = Some d) →
  MiniPlatform.parse_value (S fuel) (String c rest) =
  '(n, r) ← MiniPlatform.parse_number (String c rest); Some (VNum n, r).
Proof.
  intros Hc.
  assert (Hne : ∀ k : ascii,
            k ≠ "-"%char → MiniPlatform.digit_of k = None → Ascii.eqb c k = false).
  { intros k Hk Hd. destruct (Ascii.eqb c k) eqn:E; [|done].
    apply Ascii.eqb_eq in E as ->. destruct Hc as [|[d Hc]]; congruence. }
  change (MiniPlatform.parse_value (S fuel) (String c rest)) with
    (if Ascii.eqb c "n" then
       r ← MiniPlatform.strip_prefix "null" (String c rest); Some (VNull, r)
     else if Ascii.eqb c "t" then
       r ← MiniPlatform.strip_prefix "true" (String c rest); Some (VBool true, r)
     else if Ascii.eqb c "f" then
       r ← MiniPlatform.strip_prefix "false" (String c rest); Some (VBool false, r)
     else if Ascii.eqb c MiniPlatform.dquote then
       '(t, r) ← MiniPlatform.parse_string_body rest; Some (VStr t, r)
     else if Ascii.eqb c "[" then
       match rest with
       | String c' r =>
           if Ascii.eqb c' "]" then Some (VArr [], r)
           else '(items, r) ← MiniPlatform.parse_items fuel rest; Some (VArr items, r)
       | EmptyString => None
       end
     else if Ascii.eqb c "{" then
       match rest with
       | String c' r =>
           if Ascii.eqb c' "}" then Some (VObj [], r)
           else '(fields, r) ← MiniPlatform.parse_fields fuel rest; Some (VObj fields, r)
       | EmptyString => None
       end
     else
       '(n, r) ← MiniPlatform.parse_number (String c rest); Some (VNum n, r)).
  by rewrite !Hne by done.
Qed.

(** The text of a defined value starts with a character that is not a
    closing bracket. *)
Lemma text_of_head (x : value) :
  MiniPlatform.defined x = true →
  ∃ h tl, MiniPlatform.text_of x = String h tl ∧ Ascii.eqb h "]" = false.
Proof.
  destruct x as [| |[]|n|s|items|fields]; intros Hd; try done;
    try (by eexists _, _).
  destruct (pretty_Z_head n) as (c & tl & Hs & Hc).
  exists c, tl. split; [exact Hs|].
  destruct (Ascii.eqb c "]") eqn:E; [|done].
  apply Ascii.eqb_eq in E as ->. by destruct Hc as [|[d Hc]].
Qed.

Lemma join_comma_head (p : string) (ps : list string) (h : ascii) (tl : string) :
  p = String h tl →
  ∃ tl', MiniPlatform.join_comma (p :: ps) = String h tl'.
Proof. intros ->. destruct ps; simpl; by eexists. Qed.

Lemma join_comma_cons (p : string) (ps : list string) :
  ps ≠ [] →
  MiniPlatform.join_comma (p :: ps) = p +:+ "," +:+ MiniPlatform.join_comma ps.
Proof. by destruct ps. Qed.

Lemma comma_append (a b : string) : ("," +:+ a) +:+ b = String "," (a +:+ b).
Proof. reflexivity. Qed.

Lemma parse_items_text (items : list value) (fuel : nat) (rest : string) :
  items ≠ [] →
  Forall MiniPlatform.parses_back items →
  (list_sum (map (fun x => S (MiniPlatform.size x)) items) ≤ fuel)%nat →
  MiniPlatform.parse_items fuel
    (MiniPlatform.join_comma (map MiniPlatform.text_of items) +:+ String "]" rest) =
  Some (items, rest).
Proof.
  revert fuel. induction items as [|v items IH]; intros fuel Hne Hall Hfuel;
    [done|].
  inversion Hall as [|? ? Hv Hrest]; subst.
  simpl in Hfuel. destruct fuel as [|fuel]; [lia|].
  rewrite parse_items_S, map_cons. destruct (decide (items = [])) as [-> | Hi].
  - simpl map. simpl MiniPlatform.join_comma.
    rewrite (Hv fuel (String "]" rest)); [done | simpl in *; lia | done].
  - rewrite join_comma_cons by (by destruct items).
    rewrite append_assoc, comma_append.
    rewrite (Hv fuel); [| lia | done].
    cbn [mbind option_bind]. change (Ascii.eqb "," ",") with true. cbv iota.
    rewrite IH; [done | done | done | lia].
Qed.

Lemma parse_fields_text (fields : list (string * value)) (fuel : nat)
    (rest : string) :
  fields ≠ [] →
  Forall (fun kx : string * value => MiniPlatform.parses_back kx.2) fields →
  (list_sum (map (fun kx : string * value => S (MiniPlatform.size kx.2)) fields)
   ≤ fuel)%nat →
  MiniPlatform.parse_fields fuel
    (MiniPlatform.join_comma (map MiniPlatform.field_text fields) +:+ String "}" rest) =
  Some (fields, rest).
Proof.
  revert fuel. induction fields as [|[k v] fields IH]; intros fuel Hne Hall Hfuel;
    [done|].
  inversion Hall as [|? ? Hv Hrest]; subst. simpl in Hv.
  simpl in Hfuel. destruct fuel as [|fuel]; [lia|].
  assert (Hfield : ∀ tail,
    MiniPlatform.field_text (k, v) +:+ tail =
    String MiniPlatform.dquote
      (MiniPlatform.escape k +:+
       String MiniPlatform.dquote (String ":" (MiniPlatform.text_of v +:+ tail)))).
  { intros tail. unfold MiniPlatform.field_text, MiniPlatform.quote.
    cbn [fst snd]. rewrite append_assoc, append_cons, append_assoc.
    reflexivity. }
  rewrite map_cons. destruct (decide (fields = [])) as [-> | Hf].
  - simpl map. simpl MiniPlatform.join_comma. rewrite Hfield, parse_fields_S.
    change (Ascii.eqb MiniPlatform.dquote MiniPlatform.dquote) with true. cbv iota.
    rewrite parse_string_body_escape. cbn [mbind option_bind].
    change (Ascii.eqb ":" ":") with true. cbv iota.
    rewrite (Hv fuel (String "}" rest)); [done | simpl in *; lia | done].
  - rewrite join_comma_cons by (by destruct fields).
    rewrite append_assoc, Hfield, parse_fields_S.
    change (Ascii.eqb MiniPlatform.dquote MiniPlatform.dquote) with true. cbv iota.
    rewrite parse_string_body_escape. cbn [mbind option_bind].
    change (Ascii.eqb ":" ":") with true. cbv iota.
    rewrite comma_append.
    rewrite (Hv fuel); [| lia | done].
    cbn [mbind option_bind].
    change (Ascii.eqb "," ",") with true. cbv iota.
    rewrite IH; [done | done | done | lia].
Qed.

Lemma forallb_Forall_defined (items : list value) (P : value → Prop) :
  forallb MiniPlatform.defined items = true →
  Forall (fun x => MiniPlatform.defined x = true → P x) items →
  Forall P items.
Proof.
  induction items as [|x items IH]; intros Hd Hall; [constructor|].
  simpl in Hd. apply andb_true_iff in Hd as [Hx Hd].
  inversion Hall; subst. constructor; auto.
Qed.

Lemma forallb_Forall_defined_fields (fields : list (string * value))
    (P : value → Prop) :
  forallb (fun kx : string * value => MiniPlatform.defined kx.2) fields = true →
  Forall (fun kx : string * value => MiniPlatform.defined kx.2 = true → P kx.2) fields →
  Forall (fun kx : string * value => P kx.2) fields.
Proof.
  induction fields as [|x fields IH]; intros Hd Hall; [constructor|].
  simpl in Hd. apply andb_true_iff in Hd as [Hx Hd].
  inversion Hall; subst. constructor; auto.
Qed.

(** The parser reads the text of a defined value back, given fuel for
    its size and a continuation that cannot be mistaken for more digits. *)
Lemma parse_value_text (x : value) :
  MiniPlatform.defined x = true → MiniPlatform.parses_back x.
Proof.
  induction x as [| |b|n|s|items IH|fields IH] using value_ind_nested;
    intros Hd fuel rest Hfuel Hrest;
    (destruct fuel as [|fuel]; [simpl in Hfuel; lia|]).
  - done.
  - reflexivity.
  - destruct b; reflexivity.
  - change (MiniPlatform.text_of (VNum n)) with (pretty n).
    destruct (pretty_Z_head n) as (c & tl & Hs & Hc).
    pose proof (parse_number_pretty n rest Hrest) as Hp.
    rewrite Hs, append_cons in *.
    rewrite (parse_value_number fuel c _ Hc), Hp. done.
  - change (MiniPlatform.text_of (VStr s)) with (MiniPlatform.quote s).
    unfold MiniPlatform.quote. rewrite append_cons, append_assoc.
    change (MiniPlatform.parse_value (S fuel) ?text) with
      ('(str, r) ← MiniPlatform.parse_string_body
                     (MiniPlatform.escape s +:+ String MiniPlatform.dquote rest);
       Some (VStr str, r)).
    by rewrite parse_string_body_escape.
  - simpl in Hd. rewrite (text_of_arr items Hd).
    rewrite !append_assoc.
    pose proof (forallb_Forall_defined _ _ Hd IH) as Hall.
    destruct items as [|v items]; [reflexivity|].
    simpl in Hd. apply andb_true_iff in Hd as [Hv Hd].
    destruct (text_of_head v Hv) as (h & tl & Hh & Hne).
    destruct (join_comma_head _ (map MiniPlatform.text_of items) h tl Hh)
      as [tl' Hj].
    rewrite map_cons, Hj.
    change (MiniPlatform.parse_value (S fuel) ?text) with
      (if Ascii.eqb h "]" then Some (VArr [], tl' +:+ "]" +:+ rest)
       else '(items, r) ← MiniPlatform.parse_items fuel
                            (String h (tl' +:+ "]" +:+ rest));
            Some (VArr items, r)).
    rewrite Hne.
    replace (String h (tl' +:+ "]" +:+ rest)) with
      (MiniPlatform.join_comma (map MiniPlatform.text_of (v :: items))
       +:+ String "]" rest) by (by rewrite map_cons, Hj).
    rewrite parse_items_text; [done | done | done | simpl in *; lia].
  - simpl in Hd. rewrite (text_of_obj fields Hd).
    rewrite !append_assoc.
    pose proof (forallb_Forall_defined_fields _ _ Hd IH) as Hall.
    destruct fields as [|[k v] fields]; [reflexivity|].
    destruct (join_comma_head (MiniPlatform.field_text (k, v))
                (map MiniPlatform.field_text fields) MiniPlatform.dquote
                ((MiniPlatform.escape k +:+ String MiniPlatform.dquote "")
                 +:+ ":" +:+ MiniPlatform.text_of v) eq_refl) as [tl' Hj].
    rewrite map_cons, Hj.
    change (MiniPlatform.parse_value (S fuel) ?text) with
      ('(fields, r) ← MiniPlatform.parse_fields fuel
                        (String MiniPlatform.dquote (tl' +:+ "}" +:+ rest));
       Some (VObj fields, r)).
    replace (String MiniPlatform.dquote (tl' +:+ "}" +:+ rest)) with
      (MiniPlatform.join_comma (map MiniPlatform.field_text ((k, v) :: fields))
       +:+ String "}" rest) by (by rewrite map_cons, Hj).
    rewrite parse_fields_text; [done | done | done | simpl in *; lia].
Qed.

Lemma items_size_bound (items : list value) :
  Forall (fun x => MiniPlatform.size x ≤ String.length (MiniPlatform.text_of x))%nat
    items →
  (list_sum (map (fun x => S (MiniPlatform.size x)) items)
   ≤ S (String.length (MiniPlatform.join_comma (map MiniPlatform.text_of items))))%nat.
Proof.
  induction items as [|v items IH]; intros Hall; [simpl; lia|].
  inversion Hall as [|? ? Hv Hrest]; subst. specialize (IH Hrest).
  rewrite !map_cons. destruct (decide (items = [])) as [-> | Hi].
  - simpl. lia.
  - rewrite join_comma_cons by (by destruct items).
    rewrite !length_append. simpl in *. lia.
Qed.

Lemma fields_size_bound (fields : list (string * value)) :
  Forall (fun kx : string * value =>
            MiniPlatform.size kx.2 ≤ String.length (MiniPlatform.text_of kx.2))%nat
    fields →
  (list_sum (map (fun kx : string * value => S (MiniPlatform.size kx.2)) fields)
   ≤ S (String.length
          (MiniPlatform.join_comma (map MiniPlatform.field_text fields))))%nat.
Proof.
  induction fields as [|[k v] fields IH]; intros Hall; [simpl; lia|].
  inversion Hall as [|? ? Hv Hrest]; subst. specialize (IH Hrest).
  assert (Hf : (String.length (MiniPlatform.text_of v)
                ≤ String.length (MiniPlatform.field_text (k, v)))%nat).
  { unfold MiniPlatform.field_text. rewrite !length_append. simpl. lia. }
  rewrite !map_cons. destruct (decide (fields = [])) as [-> | Hi].
  - simpl in *. lia.
  - rewrite join_comma_cons by (by destruct fields).
    rewrite !length_append. simpl in *. lia.
Qed.

(** The text of a defined value is at least as long as the fuel its
    parsing takes. *)
Lemma size_le_length (x : value) :
  MiniPlatform.defined x = true →
  (MiniPlatform.size x ≤ String.length (MiniPlatform.text_of x))%nat.
Proof.
  induction x as [| |b|n|s|items IH|fields IH] using value_ind_nested;
    intros Hd.
  - done.
  - simpl. lia.
  - destruct b; simpl; lia.
  - destruct (text_of_head (VNum n) Hd) as (h & tl & -> & _). simpl. lia.
  - destruct (text_of_head (VStr s) Hd) as (h & tl & -> & _). simpl. lia.
  - simpl in Hd. rewrite (text_of_arr items Hd), !length_append.
    pose proof (items_size_bound items (forallb_Forall_defined _ _ Hd IH)).
    simpl in *. lia.
  - simpl in Hd. rewrite (text_of_obj fields Hd), !length_append.
    pose proof (fields_size_bound fields
                  (forallb_Forall_defined_fields fields
                     (fun x => MiniPlatform.size x
                               ≤ String.length (MiniPlatform.text_of x))%nat
                     Hd IH)).
    simpl in *. lia.
Qed.

(** [parse] undoes [stringify] on every value with no [undefined]
    inside. *)
Lemma parse_text (x : value) :
  MiniPlatform.defined x = true →
  MiniPlatform.parse (MiniPlatform.text_of x) = Normal x.
Proof.
  intros Hd. unfold MiniPlatform.parse.
  pose proof (parse_value_text x Hd
                (S (String.length (MiniPlatform.text_of x))) "") as H.
  rewrite append_nil_r in H. rewrite H; [done | | done].
  pose proof (size_le_length x Hd). lia.
Qed.

(** On the executable platform the codec round trip holds outright, for
    every value with no [undefined] inside and in both modes. *)
Lemma executable_round_trip (g : RPG.t) (x : value) (mode : SerializationMode) :
  MiniPlatform.defined x = true →
  mode = json ∨ mode = binary →
  ∃ wire,
    RPG.serialize MiniPlatform.platform g x (Some mode) = Normal wire ∧
    RPG.deserialize MiniPlatform.platform wire = Normal x.
Proof.
  intros Hd [-> | ->]; unfold RPG.serialize; simpl;
    rewrite (stringify_defined x Hd); simpl; eexists; (split; [reflexivity|]);
    simpl; rewrite ?decode_encode; by apply parse_text.
Qed.

(** ** API dispatch *)

Lemma run_gate_returns {D : Type} (point : flow_point)
    (hook : LightweightMiddleware D) (data : D)
    (context : LightweightCallContext) (tr : list event) :
  await (hook data context).(outcome) = Normal tt →
  run_gate point hook data context tr =
    (Normal (hook data context).(invokes_next), tr ++ [CallHook point]).
Proof. intros H. unfold run_gate, bind, emit, lift, ret. simpl. by rewrite H. Qed.

Lemma run_gate_throws {D : Type} (point : flow_point)
    (hook : LightweightMiddleware D) (data : D)
    (context : LightweightCallContext) (tr : list event) (t : thrown) :
  await (hook data context).(outcome) = Throw t →
  run_gate point hook data context tr = (Throw t, tr ++ [CallHook point]).
Proof. intros H. unfold run_gate, bind, emit, lift, ret. simpl. by rewrite H. Qed.

(** Passing an open gate yields [true] and leaves the gate's events. *)
Lemma gate_open_passes {D : Type} (point : flow_point)
    (hook : option (LightweightMiddleware D)) (data : D)
    (context : LightweightCallContext) (tr : list event) :
  gate_open hook data context →
  match hook with
  | Some h => run_gate point h data context
  | None => ret true
  end tr = (Normal true, tr ++ gate_events point hook).
Proof.
  destruct hook as [h|]; simpl.
  - intros [H1 H2]. by rewrite (run_gate_returns _ _ _ _ _ H1), H2.
  - intros _. unfold ret. by rewrite app_nil_r.
Qed.

(** With the request accepted and the pre-call gate open, the call is at
    the handler lookup. *)
Lemma handleApiCall_reaches_invoke (s : LS.t) (apiName : string) (req : value)
    (context : LightweightCallContext) (tr : list event) :
  RPG.validateRequest s.(LS.protocolGenerator) apiName req = Normal true →
  gate_open s.(LS.flows).(preApiCall)
    {| pac_apiName := apiName; pac_req := req; pac_connId := context.(connId) |}
    context →
  LS.handleApiCall s apiName req context tr =
  try_catch (LS.invoke s apiName req context) (LS.api_catch apiName)
    (tr ++ gate_events PreApiCall s.(LS.flows).(preApiCall)).
Proof.
  intros Hv Hg. unfold LS.handleApiCall, try_catch, LS.api_body, bind, lift.
  rewrite Hv. simpl.
  by rewrite (gate_open_passes PreApiCall _ _ _ tr Hg).
Qed.

(** If moreover the handler is found and returns [result], the call is
    at the response validation, the handler having run once. *)
Lemma handleApiCall_reaches_after_handler (s : LS.t) (apiName : string)
    (req : value) (context : LightweightCallContext)
    (handler : LightweightApiHandler) (result : value) (tr : list event) :
  RPG.validateRequest s.(LS.protocolGenerator) apiName req = Normal true →
  gate_open s.(LS.flows).(preApiCall)
    {| pac_apiName := apiName; pac_req := req; pac_connId := context.(connId) |}
    context →
  s.(LS.apiHandlers) !! apiName = Some handler →
  await (handler req context) = Normal result →
  LS.handleApiCall s apiName req context tr =
  try_catch (LS.after_handler s apiName req context result) (LS.api_catch apiName)
    (tr ++ gate_events PreApiCall s.(LS.flows).(preApiCall)
        ++ [Logger L_log ("[API] " ++ apiName); CallApiHandler apiName]).
Proof.
  intros Hv Hg Hh Hr. rewrite handleApiCall_reaches_invoke by done.
  unfold try_catch, LS.invoke, bind, emit, lift. rewrite Hh, Hr. simpl.
  by rewrite <- !app_assoc.
Qed.

(** If the handler throws instead, the [catch] block gets what it threw. *)
Lemma handleApiCall_handler_throws (s : LS.t) (apiName : string)
    (req : value) (context : LightweightCallContext)
    (handler : LightweightApiHandler) (t : thrown) (tr : list event) :
  RPG.validateRequest s.(LS.protocolGenerator) apiName req = Normal true →
  gate_open s.(LS.flows).(preApiCall)
    {| pac_apiName := apiName; pac_req := req; pac_connId := context.(connId) |}
    context →
  s.(LS.apiHandlers) !! apiName = Some handler →
  await (handler req context) = Throw t →
  LS.handleApiCall s apiName req context tr =
  LS.api_catch apiName t
    (tr ++ gate_events PreApiCall s.(LS.flows).(preApiCall)
        ++ [Logger L_log ("[API] " ++ apiName); CallApiHandler apiName]).
Proof.
  intros Hv Hg Hh Hr. rewrite handleApiCall_reaches_invoke by done.
  unfold try_catch, LS.invoke, bind, emit, lift. rewrite Hh, Hr. simpl.
  by rewrite <- !app_assoc.
Qed.

Lemma api_handler_calls_app (tr tr' : list event) :
  api_handler_calls (tr ++ tr') = api_handler_calls tr + api_handler_calls tr'.
Proof. unfold api_handler_calls. by rewrite filter_app, length_app. Qed.

Lemma hook_calls_app (tr tr' : list event) :
  hook_calls (tr ++ tr') = hook_calls tr + hook_calls tr'.
Proof. unfold hook_calls. by rewrite filter_app, length_app. Qed.

(** C3.  A request that the registry's request validation rejects is
    answered with [INVALID_REQUEST] / [ClientError]; the dispatch leaves
    no event at all, so neither the handler nor any hook is invoked. *)
Theorem invalid_request_rejected (s : LS.t) (apiName : string) (req : value)
    (context : LightweightCallContext) (tr : list event) :
  RPG.validateRequest s.(LS.protocolGenerator) apiName req = Normal false →
  let r := LS.handleApiCall s apiName req context tr in
  r.1 = Normal (failure ("Invalid request data for API: " ++ apiName)
                  "INVALID_REQUEST" "ClientError") ∧
  r.2 = tr ∧
  api_handler_calls r.2 = api_handler_calls tr ∧
  hook_calls r.2 = hook_calls tr.
Proof.
  intros Hv. unfold LS.handleApiCall, try_catch, LS.api_body, bind, lift.
  rewrite Hv. simpl. done.
Qed.

Lemma invalid_request_rejected_witness :
  let r := LS.handleApiCall validating_server "math/add" (VNum 1) a_context [] in
  r.1 = Normal (failure "Invalid request data for API: math/add"
                  "INVALID_REQUEST" "ClientError") ∧
  api_handler_calls r.2 = 0 ∧ hook_calls r.2 = 0.
Proof.
  destruct (invalid_request_rejected validating_server "math/add" (VNum 1)
              a_context []) as (H1 & _ & H3 & H4).
  - vm_compute. reflexivity.
  - split; [exact H1|]. split; [exact H3 | exact H4].
Defined.

(** Dispatch only adds to the trace. *)

Lemma appends_ret {A : Type} (a : A) : appends (ret a).
Proof. intros tr. exists []. simpl. by rewrite app_nil_r. Qed.

Lemma appends_raise {A : Type} (t : thrown) : appends (@raise A t).
Proof. intros tr. exists []. simpl. by rewrite app_nil_r. Qed.

Lemma appends_lift {A : Type} (c : completion A) : appends (lift c).
Proof. intros tr. exists []. simpl. by rewrite app_nil_r. Qed.

Lemma appends_emit (e : event) : appends (emit e).
Proof. intros tr. by exists [e]. Qed.

Lemma appends_bind {A B : Type} (m : M A) (k : A → M B) :
  appends m → (∀ a, appends (k a)) → appends (bind m k).
Proof.
  intros Hm Hk tr. unfold bind. destruct (Hm tr) as [evs Hevs].
  destruct (m tr) as [[a|t] tr']; simpl in *; subst.
  - destruct (Hk a (tr ++ evs)) as [evs' ->].
    exists (evs ++ evs'). by rewrite app_assoc.
  - by exists evs.
Qed.

Lemma appends_try_catch {A : Type} (body : M A) (handler : thrown → M A) :
  appends body → (∀ t, appends (handler t)) → appends (try_catch body handler).
Proof.
  intros Hm Hk tr. unfold try_catch. destruct (Hm tr) as [evs Hevs].
  destruct (body tr) as [[a|t] tr']; simpl in *; subst.
  - by exists evs.
  - destruct (Hk t (tr ++ evs)) as [evs' ->].
    exists (evs ++ evs'). by rewrite app_assoc.
Qed.

Ltac appends_step :=
  first
    [ apply appends_bind; [| intros ? ]
    | apply appends_try_catch; [| intros ? ]
    | apply appends_ret | apply appends_raise | apply appends_lift
    | apply appends_emit ].

Lemma appends_run_gate {D : Type} (point : flow_point)
    (hook : LightweightMiddleware D) (data : D)
    (context : LightweightCallContext) :
  appends (run_gate point hook data context).
Proof. unfold run_gate. repeat appends_step. Qed.

Lemma appends_run_detached {D : Type} (point : flow_point) (text : string)
    (hook : LightweightMiddleware D) (data : D)
    (context : LightweightCallContext) :
  appends (run_detached point text hook data context).
Proof.
  unfold run_detached. appends_step; [appends_step|].
  destruct (outcome _); appends_step.
Qed.

Lemma appends_api_catch (apiName : string) (t : thrown) :
  appends (LS.api_catch apiName t).
Proof.
  unfold LS.api_catch. appends_step; [appends_step|].
  destruct t; appends_step.
Qed.

Lemma appends_after_handler (s : LS.t) (apiName : string) (req : value)
    (context : LightweightCallContext) (result : value) :
  appends (LS.after_handler s apiName req context result).
Proof.
  unfold LS.after_handler. appends_step; [appends_step|].
  destruct (negb _); [appends_step|].
  appends_step.
  - destruct (preApiReturn _); [apply appends_run_gate | appends_step].
  - destruct (negb _); [appends_step|].
    appends_step; [appends_step|]. appends_step; [|appends_step].
    destruct (postApiCall _); [apply appends_run_detached | appends_step].
Qed.

Lemma appends_invoke (s : LS.t) (apiName : string) (req : value)
    (context : LightweightCallContext) :
  appends (LS.invoke s apiName req context).
Proof.
  unfold LS.invoke. destruct (_ !! _); [|appends_step].
  do 3 (appends_step; [appends_step|]). apply appends_after_handler.
Qed.

Lemma appends_api_body (s : LS.t) (apiName : string) (req : value)
    (context : LightweightCallContext) :
  appends (LS.api_body s apiName req context).
Proof.
  unfold LS.api_body. appends_step; [appends_step|].
  destruct (negb _); [appends_step|].
  appends_step.
  - destruct (preApiCall _); [apply appends_run_gate | appends_step].
  - destruct (negb _); [appends_step | apply appends_invoke].
Qed.

Lemma appends_handleApiCall (s : LS.t) (apiName : string) (req : value)
    (context : LightweightCallContext) :
  appends (LS.handleApiCall s apiName req context).
Proof.
  apply appends_try_catch; [apply appends_api_body|].
  intros t. apply appends_api_catch.
Qed.

(** C4.  Let the request be accepted and let the bound [preApiCall] hook
    return.  If it has not invoked its continuation, the answer is
    [FLOW_CANCELED] / [ServerError] and the only event is the call of the
    hook: the handler is not invoked.  If it has, the dispatch continues
    with the handler lookup: an unknown name is answered with
    [HANDLER_NOT_FOUND], a known one has its handler invoked. *)
Theorem preApiCall_gate (s : LS.t) (apiName : string) (req : value)
    (context : LightweightCallContext)
    (hook : LightweightMiddleware PreApiCallData) (tr : list event) :
  RPG.validateRequest s.(LS.protocolGenerator) apiName req = Normal true →
  s.(LS.flows).(preApiCall) = Some hook →
  let run :=
    hook {| pac_apiName := apiName; pac_req := req;
            pac_connId := context.(connId) |} context in
  await run.(outcome) = Normal tt →
  let r := LS.handleApiCall s apiName req context tr in
  (run.(invokes_next) = false →
     r.1 = Normal (failure "API call canceled by preApiCall flow"
                     "FLOW_CANCELED" "ServerError") ∧
     r.2 = tr ++ [CallHook PreApiCall] ∧
     api_handler_calls r.2 = api_handler_calls tr) ∧
  (run.(invokes_next) = true →
     r = try_catch (LS.invoke s apiName req context) (LS.api_catch apiName)
           (tr ++ [CallHook PreApiCall]) ∧
     (s.(LS.apiHandlers) !! apiName = None →
        r.1 = Normal (failure ("No handler found for API: " ++ apiName)
                        "HANDLER_NOT_FOUND" "ServerError")) ∧
     (is_Some (s.(LS.apiHandlers) !! apiName) →
        CallApiHandler apiName ∈ r.2)).
Proof.
  intros Hv Hh run Ho r. split; intros Hn.
  - subst r. unfold LS.handleApiCall, try_catch, LS.api_body, bind, lift.
    rewrite Hv, Hh. simpl. rewrite (run_gate_returns _ _ _ _ _ Ho).
    fold run. rewrite Hn. simpl. split; [done|]. split; [done|].
    rewrite api_handler_calls_app. unfold api_handler_calls at 2.
    simpl. lia.
  - assert (Hr : r = try_catch (LS.invoke s apiName req context)
                       (LS.api_catch apiName) (tr ++ [CallHook PreApiCall])).
    { subst r. rewrite handleApiCall_reaches_invoke.
      - by rewrite Hh.
      - done.
      - rewrite Hh. simpl. done. }
    split; [done|]. rewrite Hr. split.
    + intros Hnone. unfold try_catch, LS.invoke. by rewrite Hnone.
    + intros [handler Hsome]. unfold try_catch, LS.invoke, bind, emit, lift.
      rewrite Hsome.
      set (tr1 := (_ ++ [Logger _ _]) ++ [CallApiHandler apiName]).
      assert (Hin : CallApiHandler apiName ∈ tr1) by (subst tr1; set_solver).
      destruct (await (handler req context)) as [result|t].
      * destruct (appends_try_catch _ _
                    (appends_after_handler s apiName req context result)
                    (appends_api_catch apiName) tr1) as [evs Hevs].
        unfold try_catch in Hevs. rewrite Hevs. apply elem_of_app. by left.
      * destruct (appends_api_catch apiName t tr1) as [evs ->].
        apply elem_of_app. by left.
Qed.

Lemma preApiCall_gate_witness :
  let s := LS.withFlows
             {| preApiCall := Some decline; preApiReturn := None;
                postApiCall := None; preMsgReceive := None |} math_server in
  let r := LS.handleApiCall s "math/add" add_request a_context [] in
  r.1 = Normal (failure "API call canceled by preApiCall flow"
                  "FLOW_CANCELED" "ServerError") ∧
  r.2 = [CallHook PreApiCall] ∧
  api_handler_calls r.2 = 0.
Proof.
  intros s r.
  destruct (preApiCall_gate s "math/add" add_request a_context decline [])
    as [H _]; [vm_compute; reflexivity .. |].
  apply H. reflexivity.
Defined.

(** A [preApiCall] hook that throws or rejects, whether or not it has
    invoked its continuation, hands its exception to the [catch] block:
    the handler is not looked up. *)
Lemma preApiCall_hook_throws (s : LS.t) (apiName : string) (req : value)
    (context : LightweightCallContext)
    (hook : LightweightMiddleware PreApiCallData) (t : thrown)
    (tr : list event) :
  RPG.validateRequest s.(LS.protocolGenerator) apiName req = Normal true →
  s.(LS.flows).(preApiCall) = Some hook →
  await (hook {| pac_apiName := apiName; pac_req := req;
                 pac_connId := context.(connId) |} context).(outcome) = Throw t →
  LS.handleApiCall s apiName req context tr =
  LS.api_catch apiName t (tr ++ [CallHook PreApiCall]).
Proof.
  intros Hv Hh Ho. unfold LS.handleApiCall, try_catch, LS.api_body, bind, lift.
  rewrite Hv, Hh. simpl. by rewrite (run_gate_throws _ _ _ _ _ _ Ho).
Qed.

Lemma api_handler_calls_gate_events {D : Type} (point : flow_point)
    (hook : option (LightweightMiddleware D)) :
  api_handler_calls (gate_events point hook) = 0.
Proof. by destruct hook. Qed.

(** C10.  Let the handler have run and returned [result], and let the
    response be accepted.  If the bound [preApiReturn] hook returns
    without having invoked its continuation, the answer is
    [FLOW_CANCELED] / [ServerError]: the computed response is dropped,
    although the trace shows the one handler invocation, and the
    post-call hook is not reached. *)
Theorem preApiReturn_gate (s : LS.t) (apiName : string) (req : value)
    (context : LightweightCallContext) (handler : LightweightApiHandler)
    (result : value) (hook : LightweightMiddleware PreApiReturnData)
    (tr : list event) :
  RPG.validateRequest s.(LS.protocolGenerator) apiName req = Normal true →
  gate_open s.(LS.flows).(preApiCall)
    {| pac_apiName := apiName; pac_req := req; pac_connId := context.(connId) |}
    context →
  s.(LS.apiHandlers) !! apiName = Some handler →
  await (handler req context) = Normal result →
  RPG.validateResponse s.(LS.protocolGenerator) apiName result = Normal true →
  s.(LS.flows).(preApiReturn) = Some hook →
  let run :=
    hook {| par_apiName := apiName; par_res := result;
            par_connId := context.(connId) |} context in
  await run.(outcome) = Normal tt →
  run.(invokes_next) = false →
  let r := LS.handleApiCall s apiName req context tr in
  r.1 = Normal (failure "API return canceled by preApiReturn flow"
                  "FLOW_CANCELED" "ServerError") ∧
  r.2 = tr ++ gate_events PreApiCall s.(LS.flows).(preApiCall)
           ++ [Logger L_log ("[API] " ++ apiName); CallApiHandler apiName;
               CallHook PreApiReturn] ∧
  api_handler_calls r.2 = S (api_handler_calls tr).
Proof.
  intros Hv Hg Hh Hr Hw Hp run Ho Hn r.
  assert (Hr2 : r =
    (Normal (failure "API return canceled by preApiReturn flow"
               "FLOW_CANCELED" "ServerError"),
     tr ++ gate_events PreApiCall s.(LS.flows).(preApiCall)
        ++ [Logger L_log ("[API] " ++ apiName); CallApiHandler apiName;
            CallHook PreApiReturn])).
  { subst r. rewrite (handleApiCall_reaches_after_handler _ _ _ _ _ _ _ Hv Hg Hh Hr).
    unfold try_catch, LS.after_handler, bind, lift. rewrite Hw, Hp. simpl.
    rewrite (run_gate_returns _ _ _ _ _ Ho). fold run. rewrite Hn. simpl.
    unfold ret. by rewrite <- !app_assoc. }
  rewrite Hr2. simpl. split; [done|]. split; [done|].
  rewrite !api_handler_calls_app, api_handler_calls_gate_events.
  unfold api_handler_calls at 2. simpl. lia.
Qed.

Lemma preApiReturn_gate_witness :
  let s := LS.withFlows
             {| preApiCall := Some proceed; preApiReturn := Some decline;
                postApiCall := Some proceed; preMsgReceive := None |}
             math_server in
  let r := LS.handleApiCall s "math/add" add_request a_context [] in
  r.1 = Normal (failure "API return canceled by preApiReturn flow"
                  "FLOW_CANCELED" "ServerError") ∧
  api_handler_calls r.2 = 1.
Proof.
  intros s r.
  destruct (preApiReturn_gate s "math/add" add_request a_context math_add
              (VObj [("result", VNum 30)]) decline [])
    as (H1 & _ & H3); [vm_compute; try reflexivity; auto .. |].
  split; [exact H1 | exact H3].
Defined.

(** C2, as the dispatcher has it.  When the handler throws (or its
    promise rejects with) an instance of [LightweightError], the envelope
    carries its message, code and type unchanged.  Any other value that
    is not [null] or [undefined] is reported as [INTERNAL_ERROR] /
    [ServerError]; the message is the exception's [message] when that is
    a non-empty string and ["Internal server error"] otherwise, and a
    [code] or [type] property of the value is not looked at.  So
    [Error("boom")] gives [{message: "boom", code: "INTERNAL_ERROR",
    type: "ServerError"}]. *)
Theorem handler_exception_envelope (s : LS.t) (apiName : string) (req : value)
    (context : LightweightCallContext) (handler : LightweightApiHandler)
    (t : thrown) (tr : list event) :
  RPG.validateRequest s.(LS.protocolGenerator) apiName req = Normal true →
  gate_open s.(LS.flows).(preApiCall)
    {| pac_apiName := apiName; pac_req := req; pac_connId := context.(connId) |}
    context →
  s.(LS.apiHandlers) !! apiName = Some handler →
  await (handler req context) = Throw t →
  let r := LS.handleApiCall s apiName req context tr in
  (∀ m c ty, t = ThrLightweight m c ty → r.1 = Normal (failure m c ty)) ∧
  (∀ m c ty, t = ThrOther m c ty →
     r.1 = Normal (failure (message_or m "Internal server error")
                     "INTERNAL_ERROR" "ServerError")) ∧
  (∀ m, m ≠ "" → t = Error m →
     r.1 = Normal (failure m "INTERNAL_ERROR" "ServerError")) ∧
  (t = Error "boom" →
     r.1 = Normal (failure "boom" "INTERNAL_ERROR" "ServerError")).
Proof.
  intros Hv Hg Hh Hr r. subst r.
  rewrite (handleApiCall_handler_throws _ _ _ _ _ _ _ Hv Hg Hh Hr).
  unfold LS.api_catch, bind, emit, ret.
  split; [by intros m c ty ->|]. split; [by intros m c ty ->|].
  split.
  - intros m Hm ->. simpl. destruct m; [done|]. done.
  - by intros ->.
Qed.

Lemma handler_exception_envelope_witness :
  (LS.handleApiCall (error_server (Error "boom")) "test/error" (VObj [])
     a_context []).1 =
  Normal (failure "boom" "INTERNAL_ERROR" "ServerError").
Proof.
  destruct (handler_exception_envelope (error_server (Error "boom"))
              "test/error" (VObj []) a_context (failing_with (Error "boom"))
              (Error "boom") [])
    as (_ & _ & _ & H); [vm_compute; try reflexivity; auto .. |].
  apply H. reflexivity.
Defined.

(** C2 as it is written does not hold: a handler that throws [Error("")]
    is not answered with the exception's message. *)
Lemma empty_message_not_forwarded : ¬ message_always_forwarded.
Proof.
  intros H.
  specialize (H (error_server (Error "")) "test/error" (VObj []) a_context
                (failing_with (Error "")) "").
  assert (Hr : (LS.handleApiCall (error_server (Error "")) "test/error"
                  (VObj []) a_context []).1 =
               Normal (failure "Internal server error" "INTERNAL_ERROR"
                         "ServerError")) by (vm_compute; reflexivity).
  rewrite Hr in H.
  assert (Hneq : Normal (failure "Internal server error" "INTERNAL_ERROR" "ServerError")
                 ≠ Normal (failure "" "INTERNAL_ERROR" "ServerError"))
    by discriminate.
  apply Hneq, H; vm_compute; reflexivity.
Qed.

(** A value with its own [code] and [type] that is no [LightweightError]
    loses them. *)
Lemma foreign_code_not_forwarded :
  (LS.handleApiCall
     (error_server (ThrOther (Some "no such user") (Some "NOT_FOUND") (Some "ApiError")))
     "test/error" (VObj []) a_context []).1 =
  Normal (failure "no such user" "INTERNAL_ERROR" "ServerError").
Proof. vm_compute. reflexivity. Qed.



(** C1 (the dispatcher does not keep it).  The claim lets the handler
    behave in any way and promises an envelope.  A handler whose promise
    rejects without a reason ([Promise.reject()], [throw undefined])
    lands in the [catch] block with [error] undefined; the block reads
    [error.message], which throws a [TypeError], and the promise of
    [handleApiCall] rejects: no envelope is returned.  The same happens
    when a validator or a gating hook throws [null] or [undefined]. *)
Theorem handleApiCall_rejects_on_undefined :
  let r := LS.handleApiCall (error_server ThrNullish) "test/error" (VObj [])
             a_context [] in
  r.1 = Throw (TypeError "Cannot read properties of undefined (reading 'message')") ∧
  (∀ envelope, r.1 ≠ Normal envelope) ∧
  r.2 = [Logger L_log "[API] test/error"; CallApiHandler "test/error";
         Logger L_error "API test/error error:"].
Proof. vm_compute. split; [done|]. split; [discriminate|done]. Qed.

(** The call of the design document: [math/add] with [{a: 10, b: 20}]. *)
Lemma math_add_scenario :
  (LS.handleApiCall math_server "math/add" add_request a_context []).1 =
  Normal (Succ (VObj [("result", VNum 30)])).
Proof. vm_compute. reflexivity. Qed.

(** An unregistered name is answered with [HANDLER_NOT_FOUND] and leaves
    no event. *)
Lemma unregistered_api (o : LightweightProtocolOptions) (apiName : string)
    (req : value) (context : LightweightCallContext) (tr : list event) :
  o.(customValidators) = None →
  LS.handleApiCall (LS.new o) apiName req context tr =
  (Normal (failure ("No handler found for API: " ++ apiName)
             "HANDLER_NOT_FOUND" "ServerError"), tr).
Proof.
  intros Hc. unfold LS.handleApiCall, try_catch, LS.api_body, bind, lift.
  rewrite validateRequest_fallback. unfold validate_by_fallback.
  unfold explicit_req, custom_req. simpl. rewrite Hc. simpl.
  rewrite !lookup_empty. simpl.
  destruct (negb _); simpl; unfold LS.invoke; simpl; by rewrite lookup_empty.
Qed.

(** What the post-call point does guarantee.  Once the response is
    accepted and the pre-return gate is open, a [postApiCall] hook that
    returns (a value or a promise, fulfilled or rejected, its
    continuation invoked or not) leaves the success envelope as it is; a
    rejection is only logged. *)
Lemma postApiCall_detached (s : LS.t) (apiName : string) (req : value)
    (context : LightweightCallContext) (handler : LightweightApiHandler)
    (result : value) (hook : LightweightMiddleware PostApiCallData)
    (tr : list event) :
  RPG.validateRequest s.(LS.protocolGenerator) apiName req = Normal true →
  gate_open s.(LS.flows).(preApiCall)
    {| pac_apiName := apiName; pac_req := req; pac_connId := context.(connId) |}
    context →
  s.(LS.apiHandlers) !! apiName = Some handler →
  await (handler req context) = Normal result →
  RPG.validateResponse s.(LS.protocolGenerator) apiName result = Normal true →
  gate_open s.(LS.flows).(preApiReturn)
    {| par_apiName := apiName; par_res := result; par_connId := context.(connId) |}
    context →
  s.(LS.flows).(postApiCall) = Some hook →
  returns_or_promises
    (hook {| poc_apiName := apiName; poc_req := req; poc_res := result;
             poc_connId := context.(connId) |} context).(outcome) →
  (LS.handleApiCall s apiName req context tr).1 = Normal (Succ result).
Proof.
  intros Hv Hg Hh Hr Hw Hg' Hp Ho.
  rewrite (handleApiCall_reaches_after_handler _ _ _ _ _ _ _ Hv Hg Hh Hr).
  unfold try_catch, LS.after_handler, bind, lift. rewrite Hw. simpl.
  rewrite (gate_open_passes PreApiReturn _ _ _ _ Hg'). simpl.
  rewrite Hp. unfold run_detached, bind, emit, ret, raise. simpl.
  destruct (outcome _); simpl in *; done.
Qed.

(** C5 (the dispatcher does not keep it).  The claim has the post-call
    hook detached whatever it does, a throw included.  A hook written
    without [async] that throws does so while [Promise.resolve(...)] is
    still evaluating its argument, so no [.catch] is attached yet: the
    exception reaches the [catch] block of [handleApiCall], and the
    caller gets an [INTERNAL_ERROR] failure in place of the success
    envelope that was already final.  The same hook rejecting (written
    with [async]) is logged and ignored. *)
Theorem postApiCall_sync_throw_surfaces :
  let with_hook hook :=
    LS.withFlows
      {| preApiCall := None; preApiReturn := None; postApiCall := Some hook;
         preMsgReceive := None |} math_server in
  let thrown_sync :=
    LS.handleApiCall (with_hook (throwing_hook (Error "metrics down")))
      "math/add" add_request a_context [] in
  let rejected :=
    LS.handleApiCall (with_hook (rejecting_hook (Error "metrics down")))
      "math/add" add_request a_context [] in
  thrown_sync.1 = Normal (failure "metrics down" "INTERNAL_ERROR" "ServerError") ∧
  api_handler_calls thrown_sync.2 = 1 ∧
  rejected.1 = Normal (Succ (VObj [("result", VNum 30)])) ∧
  Logger L_error "postApiCall flow error:" ∈ rejected.2.
Proof.
  vm_compute. split; [done|]. split; [done|]. split; [done|].
  repeat first [apply list_elem_of_here | apply list_elem_of_further].
Qed.

(** ** Message dispatch *)

(** Handlers that all return (a value or a promise) are all called, in
    order, and all their promises are collected. *)
Lemma call_handlers_all (handlers : list LightweightMsgHandler) (index : nat)
    (msg : value) (context : LightweightCallContext) (tr : list event) :
  Forall (fun handler => returns_or_promises (handler msg context)) handlers →
  LS.call_handlers handlers index msg context tr =
  (Normal (promises_of handlers index msg context),
   tr ++ map CallMsgHandler (seq index (length handlers))).
Proof.
  revert index tr. induction handlers as [|handler rest IH]; intros index tr Hall.
  - simpl. unfold ret. by rewrite app_nil_r.
  - inversion Hall as [|? ? Hh Hrest]; subst. simpl.
    unfold bind at 1, emit. simpl.
    destruct (handler msg context) eqn:E; simpl in Hh; [done|..];
      unfold bind; rewrite (IH (S index) _ Hrest); unfold ret;
      by rewrite <- app_assoc.
Qed.

(** The first handler that throws before returning ends the calls: the
    handlers after it are not called and no promise is waited for. *)
Lemma call_handlers_sync_throw (before after : list LightweightMsgHandler)
    (handler : LightweightMsgHandler) (t : thrown) (index : nat)
    (msg : value) (context : LightweightCallContext) (tr : list event) :
  Forall (fun h => returns_or_promises (h msg context)) before →
  handler msg context = ThrowsSync t →
  LS.call_handlers (before ++ handler :: after) index msg context tr =
  (Throw t, tr ++ map CallMsgHandler (seq index (S (length before)))).
Proof.
  revert index tr. induction before as [|h rest IH]; intros index tr Hall Ht.
  - simpl. unfold bind, emit, raise. by rewrite Ht.
  - inversion Hall as [|? ? Hh Hrest]; subst. simpl.
    unfold bind at 1, emit. simpl.
    destruct (h msg context) eqn:E; simpl in Hh; [done|..];
      unfold bind; rewrite (IH (S index) _ Hrest Ht);
      by rewrite <- app_assoc.
Qed.

Lemma settle_all_trace (msgName : string)
    (promises : list (nat * async_completion unit)) (tr : list event) :
  LS.settle_all msgName promises tr =
  (Normal tt, tr ++ flat_map (settle_events msgName) promises).
Proof.
  revert tr. induction promises as [|[index c] rest IH]; intros tr.
  - simpl. unfold ret. by rewrite app_nil_r.
  - simpl. unfold bind, emit, settle_events. simpl.
    destruct c; simpl; unfold ret, emit; rewrite IH; by rewrite <- !app_assoc.
Qed.

(** The promise of [handleMsgCall] always resolves, to nothing: whatever
    goes wrong is logged. *)
Lemma handleMsgCall_resolves (s : LS.t) (msgName : string) (msg : value)
    (context : LightweightCallContext) (tr : list event) :
  (LS.handleMsgCall s msgName msg context tr).1 = Normal tt.
Proof.
  unfold LS.handleMsgCall, try_catch.
  destruct (LS.msg_body s msgName msg context tr) as [[[]|t] tr']; done.
Qed.

(** What the fan-out does guarantee.  When the message is accepted, the
    pre-receive gate is open and none of the [n ≥ 1] bound handlers
    throws before returning, every handler is called, every promise is
    waited for, each rejection is logged on its own, and then the
    dispatch completes. *)
Lemma handleMsgCall_fan_out (s : LS.t) (msgName : string) (msg : value)
    (context : LightweightCallContext) (handlers : list LightweightMsgHandler)
    (tr : list event) :
  RPG.validateMessage s.(LS.protocolGenerator) msgName msg = Normal true →
  gate_open s.(LS.flows).(preMsgReceive)
    {| pmr_msgName := msgName; pmr_msg := msg; pmr_connId := context.(connId) |}
    context →
  s.(LS.msgHandlers) !! msgName = Some handlers →
  handlers ≠ [] →
  Forall (fun handler => returns_or_promises (handler msg context)) handlers →
  LS.handleMsgCall s msgName msg context tr =
  (Normal tt,
   tr ++ gate_events PreMsgReceive s.(LS.flows).(preMsgReceive)
      ++ [Logger L_log ("[MSG] " ++ msgName)]
      ++ map CallMsgHandler (seq 0 (length handlers))
      ++ flat_map (settle_events msgName) (promises_of handlers 0 msg context)).
Proof.
  intros Hv Hg Hh Hne Hall.
  unfold LS.handleMsgCall, try_catch, LS.msg_body, bind at 1, lift.
  rewrite Hv. simpl. unfold bind at 1.
  rewrite (gate_open_passes PreMsgReceive _ _ _ tr Hg). simpl.
  rewrite Hh. destruct handlers as [|h rest]; [done|].
  unfold bind at 1, emit. unfold bind.
  rewrite (call_handlers_all _ _ _ _ _ Hall), settle_all_trace.
  by rewrite <- !app_assoc.
Qed.

Lemma promises_of_indices (handlers : list LightweightMsgHandler) (index : nat)
    (msg : value) (context : LightweightCallContext) :
  map fst (promises_of handlers index msg context) = seq index (length handlers).
Proof.
  revert index. induction handlers as [|h rest IH]; intros index; [done|].
  simpl. by rewrite IH.
Qed.

(** Under the same conditions every handler position shows up in the
    trace both as called and as waited for. *)
Lemma handleMsgCall_every_handler (s : LS.t) (msgName : string) (msg : value)
    (context : LightweightCallContext) (handlers : list LightweightMsgHandler)
    (tr : list event) (i : nat) :
  RPG.validateMessage s.(LS.protocolGenerator) msgName msg = Normal true →
  gate_open s.(LS.flows).(preMsgReceive)
    {| pmr_msgName := msgName; pmr_msg := msg; pmr_connId := context.(connId) |}
    context →
  s.(LS.msgHandlers) !! msgName = Some handlers →
  Forall (fun handler => returns_or_promises (handler msg context)) handlers →
  i < length handlers →
  let r := LS.handleMsgCall s msgName msg context tr in
  r.1 = Normal tt ∧ CallMsgHandler i ∈ r.2 ∧ SettledMsgHandler i ∈ r.2.
Proof.
  intros Hv Hg Hh Hall Hi r. subst r.
  assert (Hne : handlers ≠ []) by (intros ->; simpl in Hi; lia).
  rewrite (handleMsgCall_fan_out _ _ _ _ _ _ Hv Hg Hh Hne Hall). cbn [fst snd].
  split; [done|]. split.
  - rewrite !elem_of_app. right. right. right. left.
    apply list_elem_of_fmap. exists i. split; [done|].
    apply elem_of_seq. lia.
  - rewrite !elem_of_app. right. right. right. right.
    apply list_elem_of_In, in_flat_map.
    assert (Hin : i ∈ map fst (promises_of handlers 0 msg context)).
    { rewrite promises_of_indices. apply elem_of_seq. lia. }
    apply list_elem_of_fmap in Hin as ([i' c] & -> & Hin).
    exists (i', c). split; [by apply list_elem_of_In|].
    unfold settle_events. simpl. by left.
Qed.

(** C6 (the dispatcher does not keep it).  The claim has every bound
    handler invoked and waited for, whichever of them fails.  With two
    handlers bound to [chat/message], the first written without [async]
    and throwing, the exception leaves [handlers.map] before the second
    handler is called: the trace ends after the first call and the
    general error line.  With the throwing handler second, the first has
    been called but its promise is never waited for.  A first handler
    that rejects instead stops nothing.  In each case the dispatch
    itself resolves. *)
Theorem handleMsgCall_sync_throw_stops_fan_out :
  let run first second :=
    LS.handleMsgCall (chat_server first second) "chat/message" VNull a_context [] in
  (run throwing_listener quiet_listener).1 = Normal tt ∧
  (run throwing_listener quiet_listener).2 =
    [Logger L_log "[MSG] chat/message"; CallMsgHandler 0;
     Logger L_error "Message chat/message error:"] ∧
  ¬ (CallMsgHandler 1 ∈ (run throwing_listener quiet_listener).2) ∧
  (run quiet_listener throwing_listener).2 =
    [Logger L_log "[MSG] chat/message"; CallMsgHandler 0; CallMsgHandler 1;
     Logger L_error "Message chat/message error:"] ∧
  ¬ (SettledMsgHandler 0 ∈ (run quiet_listener throwing_listener).2) ∧
  (run rejecting_listener quiet_listener).2 =
    [Logger L_log "[MSG] chat/message"; CallMsgHandler 0; CallMsgHandler 1;
     SettledMsgHandler 0; Logger L_error "Message handler error for chat/message:";
     SettledMsgHandler 1].
Proof.
  vm_compute.
  split; [done|]. split; [done|]. split.
  { intros H. repeat (apply elem_of_cons in H as [H|H]; [discriminate|]).
    by apply elem_of_nil in H. }
  split; [done|]. split; [|done].
  intros H. repeat (apply elem_of_cons in H as [H|H]; [discriminate|]).
  by apply elem_of_nil in H.
Qed.

(** * Further properties of the code *)

(** ** Registry bookkeeping *)

Lemma register_counts (r : registration) (g : RPG.t) :
  g.(RPG.serviceMap).(nextId) =
    N.of_nat (size g.(RPG.serviceMap).(apiName2Id)
              + size g.(RPG.serviceMap).(msgName2Id)) →
  (register r g).2.(RPG.serviceMap).(nextId) =
    N.of_nat (size (register r g).2.(RPG.serviceMap).(apiName2Id)
              + size (register r g).2.(RPG.serviceMap).(msgName2Id)).
Proof.
  intros H. destruct r as [apiName v | msgName v]; simpl.
  - unfold RPG.registerApi, JS.get.
    destruct (g.(RPG.serviceMap).(apiName2Id) !! apiName) eqn:E; [done|].
    case_bool_decide; [done|].
    simpl. rewrite map_size_insert_None by done. rewrite H. lia.
  - unfold RPG.registerMsg, JS.get.
    destruct (g.(RPG.serviceMap).(msgName2Id) !! msgName) eqn:E; [done|].
    case_bool_decide; [done|].
    simpl. rewrite map_size_insert_None by done. rewrite H. lia.
Qed.

Lemma run_call_options (c : registry_call) (g : RPG.t) :
  (run_call c g).(RPG.options) = g.(RPG.options).
Proof.
  destruct c as [r|]; [|done]. exact (register_all_options [r] g).
Qed.

(** X1.  In every state the registry reaches from its constructor by
    registrations and resets, the [totalServices] that [getStats]
    reports (the id counter) is the sum of [totalApis] and [totalMsgs]:
    the counter advances exactly when a binding is added.  A [reset]
    brings the registry back to the state the constructor left it in,
    options kept, so ids are handed out from 0 again. *)
Theorem stats_count_bindings (o : LightweightProtocolOptions)
    (cs : list registry_call) :
  let g := run_calls cs (RPG.new o) in
  let st := getStats g in
  st.(totalServices) = N.of_nat (st.(totalApis) + st.(totalMsgs)) ∧
  RPG.reset g = RPG.new o.
Proof.
  simpl.
  assert (H : ∀ g,
    g.(RPG.serviceMap).(nextId) =
      N.of_nat (size g.(RPG.serviceMap).(apiName2Id)
                + size g.(RPG.serviceMap).(msgName2Id)) →
    (run_calls cs g).(RPG.serviceMap).(nextId) =
      N.of_nat (size (run_calls cs g).(RPG.serviceMap).(apiName2Id)
                + size (run_calls cs g).(RPG.serviceMap).(msgName2Id)) ∧
    (run_calls cs g).(RPG.options) = g.(RPG.options)).
  { induction cs as [|c cs IH]; intros g Hg; [done|].
    simpl. destruct (IH (run_call c g)) as [IH1 IH2].
    - destruct c as [r|]; simpl; [by apply register_counts|].
      by rewrite !map_size_empty.
    - split; [done|]. by rewrite IH2, run_call_options. }
  destruct (H (RPG.new o)) as [H1 H2]; [simpl; by rewrite !map_size_empty|].
  split; [exact H1|]. unfold RPG.reset. by rewrite H2.
Qed.


(** X2.  In every reachable state [getServiceName] undoes [getServiceId]
    and the other way round, in each namespace: a name with id [id] is the
    name stored under [id], and the name stored under an id has that id. *)
Theorem service_id_name_round_trip (o : LightweightProtocolOptions)
    (rs : list registration) (kind : RPG.service_kind) (name : string) (id : N) :
  let g := register_all rs (RPG.new o) in
  RPG.getServiceId g name kind = Some (RPG.ServiceId id) ↔
  RPG.getServiceName g id kind = Some name.
Proof.
  intros g. pose proof (registry_inv_reachable o rs) as I. fold g in I.
  destruct kind; simpl; unfold RPG.as_registered, JS.get; split.
  - destruct (_ !! name) eqn:E; [|by case_bool_decide].
    intros [= ->]. by apply (inv_api_back _ I).
  - intros H. apply (inv_api_forth _ I) in H. by rewrite H.
  - destruct (_ !! name) eqn:E; [|by case_bool_decide].
    intros [= ->]. by apply (inv_msg_back _ I).
  - intros H. apply (inv_msg_forth _ I) in H. by rewrite H.
Qed.

Lemma register_known (r : registration) (g : RPG.t) (id : N) :
  bound_id g (registers r).1 (registers r).2 = Some id →
  register r g = (RPG.ServiceId id, g).
Proof.
  destruct r; simpl; [apply registerApi_known | apply registerMsg_known].
Qed.

Lemma register_binds (r : registration) (g : RPG.t) :
  (registers r).2 ∉ Object_prototype_keys →
  ∃ id, (register r g).1 = RPG.ServiceId id ∧
        bound_id (register r g).2 (registers r).1 (registers r).2 = Some id ∧
        (bound_id g (registers r).1 (registers r).2 = None →
         id = g.(RPG.serviceMap).(nextId) ∧
         (register r g).2.(RPG.serviceMap).(nextId) = (id + 1)%N).
Proof.
  intros Hk. destruct r as [apiName v | msgName v]; simpl in *.
  - destruct (g.(RPG.serviceMap).(apiName2Id) !! apiName) as [id|] eqn:E.
    + exists id. by rewrite (registerApi_known _ _ _ _ E).
    + destruct (registerApi_fresh g apiName v E Hk) as (H1 & H2 & H3 & _).
      eexists. split; [exact H1|]. rewrite H3, lookup_insert_eq. done.
  - destruct (g.(RPG.serviceMap).(msgName2Id) !! msgName) as [id|] eqn:E.
    + exists id. by rewrite (registerMsg_known _ _ _ _ E).
    + destruct (registerMsg_fresh g msgName v E Hk) as (H1 & H2 & H3 & _).
      eexists. split; [exact H1|]. rewrite H3, lookup_insert_eq. done.
Qed.

(** X3.  For a name that [Object.prototype] does not define, in either
    namespace and from any reachable state: the first registration call
    returns an id; any later registration of the same name in the same
    namespace, with whatever validator, returns the same id and leaves the
    registry untouched; [getServiceId] answers with that id; and no other
    name, in either namespace, has it. *)
Theorem registration_is_idempotent_and_unique (o : LightweightProtocolOptions)
    (before later : list registration) (r r' : registration) :
  (registers r).2 ∉ Object_prototype_keys →
  registers r' = registers r →
  let g := register_all before (RPG.new o) in
  let g' := register_all later (register r g).2 in
  ∃ id : N,
    (register r g).1 = RPG.ServiceId id ∧
    register r' g' = (RPG.ServiceId id, g') ∧
    RPG.getServiceId g' (registers r).2 (registers r).1 = Some (RPG.ServiceId id) ∧
    (∀ kind name, bound_id g' kind name = Some id → (kind, name) = registers r).
Proof.
  intros Hk Hr g g'.
  assert (Ig' : registry_inv g'.(RPG.serviceMap)).
  { apply registry_inv_register_all, registry_inv_register,
      registry_inv_reachable. }
  destruct (register_binds r g Hk) as (id & H1 & Hb & _).
  pose proof (register_all_keeps_bindings later _ _ _ _ Hb) as Hb'. fold g' in Hb'.
  exists id. split; [done|]. split.
  { apply register_known. by rewrite Hr. }
  split.
  { destruct (registers r) as [[] name]; simpl in *; by rewrite (get_own _ _ _ Hb'). }
  intros kind name H.
  destruct (bound_ids_distinct g' kind (registers r).1 name (registers r).2 id
              Ig' H Hb') as [-> ->].
  by destruct (registers r).
Qed.

Lemma registration_is_idempotent_and_unique_witness :
  ∃ id : N,
    (register (RegisterMsg "chat/message" None)
       (register_all [RegisterApi "chat/message" None] (RPG.new no_options))).1
    = RPG.ServiceId id ∧ id = 1%N.
Proof.
  destruct (registration_is_idempotent_and_unique no_options
              [RegisterApi "chat/message" None] [RegisterApi "user/login" None]
              (RegisterMsg "chat/message" None)
              (RegisterMsg "chat/message" (Some wants_object)))
    as (id & H1 & _).
  - vm_compute. intros H. repeat (apply elem_of_cons in H as [H|H]; [discriminate|]).
    by apply elem_of_nil in H.
  - reflexivity.
  - exists id. split; [exact H1|]. vm_compute in H1. congruence.
Defined.


(** X5.  The order in which a validation decides, for every name and
    payload.  [validateRequest] and [validateResponse]: validation
    disabled accepts; else the explicit validator of the name and
    direction decides; else the custom validator of the name and
    direction decides; else accept.  [validateMessage] does the same,
    without a custom step, for every name that [Object.prototype] does
    not define.  With validation disabled all three accept whatever the
    name, and an exception out of a request or response validation is
    the exception of the validator that was consulted. *)
Theorem validation_follows_fallback_order (g : RPG.t) (name : string)
    (data : value) :
  let enabled := g.(RPG.options).(RPG.opt_enableValidation) in
  RPG.validateRequest g name data =
    validate_by_fallback enabled (explicit_req g name) (custom_req g name) data ∧
  RPG.validateResponse g name data =
    validate_by_fallback enabled (explicit_res g name) (custom_res g name) data ∧
  (name ∉ Object_prototype_keys →
   RPG.validateMessage g name data =
     validate_by_fallback enabled (explicit_msg g name) None data) ∧
  (enabled = false →
   RPG.validateRequest g name data = Normal true ∧
   RPG.validateResponse g name data = Normal true ∧
   RPG.validateMessage g name data = Normal true) ∧
  (∀ t, RPG.validateRequest g name data = Throw t ∨
        RPG.validateResponse g name data = Throw t →
        ∃ validator : Validator,
          validator data = Throw t ∧
          (explicit_req g name = Some validator ∨ custom_req g name = Some validator ∨
           explicit_res g name = Some validator ∨ custom_res g name = Some validator)).
Proof.
  intros enabled.
  split; [apply validateRequest_fallback|].
  split; [apply validateResponse_fallback|].
  split; [apply validateMessage_fallback|].
  split.
  - intros He. unfold RPG.validateRequest, RPG.validateResponse,
      RPG.validateMessage. fold enabled. by rewrite He.
  - intros t [H | H].
    + rewrite validateRequest_fallback in H.
      apply validation_throws_only_from_validator in H as (v & [Hv | Hv] & Ht);
        exists v; auto.
    + rewrite validateResponse_fallback in H.
      apply validation_throws_only_from_validator in H as (v & [Hv | Hv] & Ht);
        exists v; auto.
Qed.

(** X6.  The codec round trip in every mode, the default included.
    For a value that is JSON-representable on the platform, [serialize]
    sends the JSON text as its bytes in [binary] mode and, in [auto]
    mode (the default of a registry built without options), when the
    text has more than 1024 code units; otherwise it sends the text
    itself.  [deserialize] recovers the value from either form. *)
Theorem codec_round_trip_every_mode (P : RPG.Platform) (g : RPG.t) (x : value)
    (type : option SerializationMode) (text : string) :
  P.(RPG.JSON_stringify) x = Some text →
  P.(RPG.JSON_parse) text = Normal x →
  P.(RPG.TextDecoder_decode) (P.(RPG.TextEncoder_encode) text) = text →
  let as_bytes :=
    match default g.(RPG.options).(RPG.opt_serializationMode) type with
    | binary => true
    | json => false
    | auto => (1024 <? String.length text)%nat
    end in
  let wire :=
    if as_bytes then RPG.SBytes (P.(RPG.TextEncoder_encode) text)
    else RPG.SString text in
  RPG.serialize P g x type = Normal wire ∧
  RPG.deserialize P wire = Normal x.
Proof.
  intros Hs Hp Hu. unfold RPG.serialize. rewrite Hs.
  destruct (default _ type); simpl; rewrite ?Hs; simpl; rewrite ?Hu;
    try done.
  destruct (1024 <? String.length text)%nat; simpl; rewrite ?Hs, ?Hu; done.
Qed.

Lemma codec_round_trip_every_mode_witness :
  RPG.serialize MiniPlatform.platform (RPG.new no_options) add_request None =
    Normal (RPG.SString (MiniPlatform.text_of add_request)) ∧
  RPG.deserialize MiniPlatform.platform
    (RPG.SString (MiniPlatform.text_of add_request)) = Normal add_request.
Proof.
  apply (codec_round_trip_every_mode MiniPlatform.platform (RPG.new no_options)
           add_request None (MiniPlatform.text_of add_request));
    vm_compute; reflexivity.
Defined.

(** ** More of the API dispatch *)





(** X8.  A response that the registry's response validation rejects is
    answered with [INVALID_RESPONSE] / [ServerError]: the handler has run
    (its effects are not undone), its result is dropped, and neither the
    pre-return nor the post-call hook is called. *)
Theorem invalid_response_rejected (s : LS.t) (apiName : string) (req : value)
    (context : LightweightCallContext) (handler : LightweightApiHandler)
    (result : value) (tr : list event) :
  RPG.validateRequest s.(LS.protocolGenerator) apiName req = Normal true →
  gate_open s.(LS.flows).(preApiCall)
    {| pac_apiName := apiName; pac_req := req; pac_connId := context.(connId) |}
    context →
  s.(LS.apiHandlers) !! apiName = Some handler →
  await (handler req context) = Normal result →
  RPG.validateResponse s.(LS.protocolGenerator) apiName result = Normal false →
  let r := LS.handleApiCall s apiName req context tr in
  r.1 = Normal (failure ("Invalid response data for API: " ++ apiName)
                  "INVALID_RESPONSE" "ServerError") ∧
  r.2 = tr ++ gate_events PreApiCall s.(LS.flows).(preApiCall)
           ++ [Logger L_log ("[API] " ++ apiName); CallApiHandler apiName] ∧
  api_handler_calls r.2 = S (api_handler_calls tr) ∧
  hook_calls r.2 = hook_calls (tr ++ gate_events PreApiCall s.(LS.flows).(preApiCall)).
Proof.
  intros Hv Hg Hh Hr Hw r.
  assert (Hr2 : r =
    (Normal (failure ("Invalid response data for API: " ++ apiName)
               "INVALID_RESPONSE" "ServerError"),
     tr ++ gate_events PreApiCall s.(LS.flows).(preApiCall)
        ++ [Logger L_log ("[API] " ++ apiName); CallApiHandler apiName])).
  { subst r. rewrite (handleApiCall_reaches_after_handler _ _ _ _ _ _ _ Hv Hg Hh Hr).
    unfold try_catch, LS.after_handler, bind, lift. rewrite Hw. done. }
  rewrite Hr2. simpl. split; [done|]. split; [done|]. split.
  - rewrite !api_handler_calls_app, api_handler_calls_gate_events.
    unfold api_handler_calls at 2. simpl. lia.
  - rewrite app_assoc, (hook_calls_app (tr ++ _)). unfold hook_calls at 2.
    simpl. lia.
Qed.

Lemma invalid_response_rejected_witness :
  let r := LS.handleApiCall response_checking_server "stats/count" VNull
             a_context [] in
  r.1 = Normal (failure "Invalid response data for API: stats/count"
                  "INVALID_RESPONSE" "ServerError") ∧
  api_handler_calls r.2 = 1 ∧ hook_calls r.2 = 0.
Proof.
  intros r.
  destruct (invalid_response_rejected response_checking_server "stats/count"
              VNull a_context returns_number (VNum 7) [])
    as (H1 & _ & H3 & H4); [vm_compute; try reflexivity; auto .. |].
  split; [exact H1|]. split; [exact H3 | exact H4].
Defined.

(** X9.  The successful call, step by step.  With the request accepted,
    the pre-call gate open, a handler that returns, the response accepted
    and the pre-return gate open, the caller gets the handler's result in
    a success envelope, and the events are, in this order: the pre-call
    hook, the handler, the pre-return hook, the completion log line, the
    post-call hook.  A post-call hook that returns a value or a promise,
    whether that fulfils or rejects and whether or not the hook invoked
    its continuation, does not change the envelope; a rejection is one
    log line. *)
Theorem successful_call_pipeline (s : LS.t) (apiName : string) (req : value)
    (context : LightweightCallContext) (handler : LightweightApiHandler)
    (result : value) (tr : list event) :
  RPG.validateRequest s.(LS.protocolGenerator) apiName req = Normal true →
  gate_open s.(LS.flows).(preApiCall)
    {| pac_apiName := apiName; pac_req := req; pac_connId := context.(connId) |}
    context →
  s.(LS.apiHandlers) !! apiName = Some handler →
  await (handler req context) = Normal result →
  RPG.validateResponse s.(LS.protocolGenerator) apiName result = Normal true →
  gate_open s.(LS.flows).(preApiReturn)
    {| par_apiName := apiName; par_res := result; par_connId := context.(connId) |}
    context →
  (∀ hook, s.(LS.flows).(postApiCall) = Some hook →
     returns_or_promises
       (hook {| poc_apiName := apiName; poc_req := req; poc_res := result;
                poc_connId := context.(connId) |} context).(outcome)) →
  LS.handleApiCall s apiName req context tr =
  (Normal (Succ result),
   tr ++ gate_events PreApiCall s.(LS.flows).(preApiCall)
      ++ [Logger L_log ("[API] " ++ apiName); CallApiHandler apiName]
      ++ gate_events PreApiReturn s.(LS.flows).(preApiReturn)
      ++ [Logger L_log ("[API] " ++ apiName ++ " completed")]
      ++ detached_events s.(LS.flows).(postApiCall)
           {| poc_apiName := apiName; poc_req := req; poc_res := result;
              poc_connId := context.(connId) |} context).
Proof.
  intros Hv Hg Hh Hr Hw Hg' Hp.
  rewrite (handleApiCall_reaches_after_handler _ _ _ _ _ _ _ Hv Hg Hh Hr).
  unfold try_catch, LS.after_handler, bind, lift. rewrite Hw. simpl.
  rewrite (gate_open_passes PreApiReturn _ _ _ _ Hg'). simpl.
  unfold detached_events.
  destruct (postApiCall _) as [hook|]; simpl.
  - specialize (Hp hook eq_refl). unfold run_detached, bind, emit, ret, raise.
    simpl. destruct (outcome _); simpl in *; [done|..];
      rewrite <- ?app_assoc; simpl; by rewrite <- ?app_assoc.
  - unfold ret. simpl. rewrite <- ?app_assoc. simpl. by rewrite <- ?app_assoc.
Qed.

Lemma successful_call_pipeline_witness :
  LS.handleApiCall all_hooks_server "math/add" add_request a_context [] =
  (Normal (Succ (VObj [("result", VNum 30)])),
   [CallHook PreApiCall; Logger L_log "[API] math/add"; CallApiHandler "math/add";
    CallHook PreApiReturn; Logger L_log "[API] math/add completed";
    CallHook PostApiCall; Logger L_error "postApiCall flow error:"]).
Proof.
  rewrite (successful_call_pipeline all_hooks_server "math/add" add_request
             a_context math_add (VObj [("result", VNum 30)]) []).
  - reflexivity.
  - vm_compute. reflexivity.
  - vm_compute. auto.
  - vm_compute. reflexivity.
  - vm_compute. reflexivity.
  - vm_compute. reflexivity.
  - vm_compute. auto.
  - intros hook. vm_compute. intros [= <-]. exact I.
Defined.

(** X10.  A name without a handler, for instance one that was given an
    id by [registerApi] on the registry but never went through
    [implementApi], is answered with [HANDLER_NOT_FOUND] / [ServerError]
    once the request is accepted and the pre-call gate is passed; the
    only event is the call of the pre-call hook, if one is bound. *)
Theorem handler_not_found (s : LS.t) (apiName : string) (req : value)
    (context : LightweightCallContext) (tr : list event) :
  RPG.validateRequest s.(LS.protocolGenerator) apiName req = Normal true →
  gate_open s.(LS.flows).(preApiCall)
    {| pac_apiName := apiName; pac_req := req; pac_connId := context.(connId) |}
    context →
  s.(LS.apiHandlers) !! apiName = None →
  LS.handleApiCall s apiName req context tr =
  (Normal (failure ("No handler found for API: " ++ apiName)
             "HANDLER_NOT_FOUND" "ServerError"),
   tr ++ gate_events PreApiCall s.(LS.flows).(preApiCall)).
Proof.
  intros Hv Hg Hh. rewrite handleApiCall_reaches_invoke by done.
  unfold try_catch, LS.invoke. by rewrite Hh.
Qed.

Lemma handler_not_found_witness :
  LS.handleApiCall math_server "math/sub" add_request a_context [] =
  (Normal (failure "No handler found for API: math/sub"
             "HANDLER_NOT_FOUND" "ServerError"), []).
Proof.
  rewrite (handler_not_found math_server "math/sub" add_request a_context []);
    vm_compute; auto.
Defined.

(** X11.  A request validator that throws (anything but [null] or
    [undefined]) makes the call fail with the envelope the [catch] block
    builds: [INTERNAL_ERROR] / [ServerError] for an ordinary exception,
    the exception's own message, code and type for a [LightweightError].
    No hook and no handler is called; the only event is the error log
    line. *)
Theorem request_validator_throws (s : LS.t) (apiName : string) (req : value)
    (context : LightweightCallContext) (t : thrown)
    (envelope : LightweightApiReturn) (tr : list event) :
  RPG.validateRequest s.(LS.protocolGenerator) apiName req = Throw t →
  caught_envelope t = Some envelope →
  LS.handleApiCall s apiName req context tr =
  (Normal envelope, tr ++ [Logger L_error ("API " ++ apiName ++ " error:")]).
Proof.
  intros Hv He. unfold LS.handleApiCall, try_catch, LS.api_body, bind, lift.
  rewrite Hv. simpl. unfold LS.api_catch, bind, emit, ret. simpl.
  destruct t; simpl in He; [done|..]; by injection He as <-.
Qed.

Lemma request_validator_throws_witness :
  LS.handleApiCall broken_validation_server "math/add" add_request a_context [] =
  (Normal (failure "schema missing" "INTERNAL_ERROR" "ServerError"),
   [Logger L_error "API math/add error:"]).
Proof.
  apply (request_validator_throws broken_validation_server "math/add"
           add_request a_context (Error "schema missing")).
  - vm_compute. reflexivity.
  - reflexivity.
Defined.

(** X12.  [implementApi] replaces: binding a second handler to a name
    gives exactly the server that binding only the second would have
    given (registry included, since registering a name again changes
    nothing).  [listenMsg] accumulates: the handlers of a name are the
    earlier ones followed by the new ones, in the order of the calls. *)
Theorem implementApi_replaces_listenMsg_accumulates (s : LS.t) (name : string) :
  (∀ h1 h2 : LightweightApiHandler,
     LS.implementApi name h2 (LS.implementApi name h1 s) =
     LS.implementApi name h2 s) ∧
  (∀ h1 h2 : LightweightMsgHandler,
     (LS.listenMsg name h2 (LS.listenMsg name h1 s)).(LS.msgHandlers) !! name =
     Some (default [] (s.(LS.msgHandlers) !! name) ++ [h1; h2])).
Proof.
  split; intros h1 h2.
  - unfold LS.implementApi. simpl. f_equal.
    + unfold RPG.registerApi at 2. unfold JS.get.
      destruct (apiName2Id _ !! name) as [id|] eqn:E; simpl.
      * unfold RPG.registerApi, JS.get. by rewrite E.
      * case_bool_decide as Hk; simpl.
        -- unfold RPG.registerApi, JS.get. rewrite E.
           by rewrite bool_decide_eq_true_2.
        -- unfold RPG.registerApi at 1. unfold JS.get. simpl.
           rewrite lookup_insert_eq. simpl.
           unfold RPG.registerApi, JS.get. rewrite E.
           by rewrite bool_decide_eq_false_2.
    + apply insert_insert_eq.
  - unfold LS.listenMsg. simpl. rewrite !lookup_insert_eq. simpl.
    by rewrite <- app_assoc.
Qed.

(** ** More of the message dispatch *)

(** X13.  [handleMsgCall] never rejects and never reports to its caller:
    whatever the validator, the hook or the handlers do, [null] and
    [undefined] exceptions included, the promise resolves to nothing and
    the trace only grows. *)
Theorem handleMsgCall_never_rejects (s : LS.t) (msgName : string) (msg : value)
    (context : LightweightCallContext) (tr : list event) :
  ∃ evs, LS.handleMsgCall s msgName msg context tr = (Normal tt, tr ++ evs).
Proof.
  assert (Hcall : ∀ hs i, appends (LS.call_handlers hs i msg context)).
  { induction hs as [|h rest IH]; intros i; simpl; [appends_step|].
    appends_step; [appends_step|].
    destruct (h msg context); [appends_step|..];
      (appends_step; [apply IH | appends_step]). }
  assert (Hbody : appends (LS.msg_body s msgName msg context)).
  { unfold LS.msg_body. appends_step; [appends_step|].
    destruct (negb _); [appends_step|]. appends_step.
    - destruct (preMsgReceive _); [apply appends_run_gate | appends_step].
    - destruct (negb _); [appends_step|].
      destruct (_ !! msgName) as [[|h rest]|]; [appends_step| |appends_step].
      appends_step; [appends_step|]. appends_step; [apply Hcall|].
      intros tr0. rewrite settle_all_trace. by eexists. }
  destruct (appends_try_catch (LS.msg_body s msgName msg context)
              (fun error => emit (Logger L_error ("Message " ++ msgName ++ " error:")))
              Hbody (fun _ => appends_emit _) tr) as [evs Hevs].
  exists evs. apply injective_projections; [apply handleMsgCall_resolves | exact Hevs].
Qed.

(** X14.  A message is dropped without a word to the sender in three
    cases, each leaving one log line and no handler call: the message
    validation rejects it; the [preMsgReceive] hook returns without
    invoking its continuation; no handler is bound to the name. *)
Theorem message_dropped_silently (s : LS.t) (msgName : string) (msg : value)
    (context : LightweightCallContext) (tr : list event) :
  (RPG.validateMessage s.(LS.protocolGenerator) msgName msg = Normal false →
   LS.handleMsgCall s msgName msg context tr =
   (Normal tt, tr ++ [Logger L_error ("Invalid message data for: " ++ msgName)])) ∧
  (RPG.validateMessage s.(LS.protocolGenerator) msgName msg = Normal true →
   (∀ hook, s.(LS.flows).(preMsgReceive) = Some hook →
      let run := hook {| pmr_msgName := msgName; pmr_msg := msg;
                         pmr_connId := context.(connId) |} context in
      await run.(outcome) = Normal tt → run.(invokes_next) = false →
      LS.handleMsgCall s msgName msg context tr =
      (Normal tt,
       tr ++ [CallHook PreMsgReceive;
              Logger L_debug "Message call canceled by preMsgReceive flow"])) ∧
   (gate_open s.(LS.flows).(preMsgReceive)
      {| pmr_msgName := msgName; pmr_msg := msg; pmr_connId := context.(connId) |}
      context →
    default [] (s.(LS.msgHandlers) !! msgName) = [] →
    LS.handleMsgCall s msgName msg context tr =
    (Normal tt,
     tr ++ gate_events PreMsgReceive s.(LS.flows).(preMsgReceive)
        ++ [Logger L_warn ("No handler found for message: " ++ msgName)]))).
Proof.
  split; [|intros Hv; split].
  - intros Hv. unfold LS.handleMsgCall, try_catch, LS.msg_body, bind, lift.
    by rewrite Hv.
  - intros hook Hh run Ho Hn.
    unfold LS.handleMsgCall, try_catch, LS.msg_body, bind at 1, lift.
    rewrite Hv. simpl. unfold bind at 1. rewrite Hh.
    rewrite (run_gate_returns _ _ _ _ _ Ho). fold run. rewrite Hn. simpl.
    unfold emit. by rewrite <- app_assoc.
  - intros Hg Hnone.
    unfold LS.handleMsgCall, try_catch, LS.msg_body, bind at 1, lift.
    rewrite Hv. simpl. unfold bind at 1.
    rewrite (gate_open_passes PreMsgReceive _ _ _ tr Hg). simpl.
    destruct (_ !! msgName) as [[|h rest]|]; [| done |];
      unfold emit; simpl; by rewrite <- app_assoc.
Qed.

Lemma message_dropped_silently_witness :
  LS.handleMsgCall all_hooks_server "chat/message" VNull a_context [] =
  (Normal tt,
   [CallHook PreMsgReceive; Logger L_debug "Message call canceled by preMsgReceive flow"]).
Proof.
  destruct (message_dropped_silently all_hooks_server "chat/message" VNull
              a_context []) as (_ & H).
  destruct H as (H & _); [vm_compute; reflexivity|].
  apply (H decline); vm_compute; reflexivity.
Defined.

(** X15.  The fan-out as it holds.  When the message is accepted, the
    pre-receive gate is open and no bound handler throws before
    returning, the events are: the log line, every handler called in the
    order of binding, then every promise waited for in the same order,
    each rejection logged on its own; in particular every handler is both
    called and waited for, whatever the others do. *)
Theorem message_fan_out (s : LS.t) (msgName : string) (msg : value)
    (context : LightweightCallContext) (handlers : list LightweightMsgHandler)
    (tr : list event) :
  RPG.validateMessage s.(LS.protocolGenerator) msgName msg = Normal true →
  gate_open s.(LS.flows).(preMsgReceive)
    {| pmr_msgName := msgName; pmr_msg := msg; pmr_connId := context.(connId) |}
    context →
  s.(LS.msgHandlers) !! msgName = Some handlers →
  handlers ≠ [] →
  Forall (fun handler => returns_or_promises (handler msg context)) handlers →
  let r := LS.handleMsgCall s msgName msg context tr in
  r = (Normal tt,
       tr ++ gate_events PreMsgReceive s.(LS.flows).(preMsgReceive)
          ++ [Logger L_log ("[MSG] " ++ msgName)]
          ++ map CallMsgHandler (seq 0 (length handlers))
          ++ flat_map (settle_events msgName) (promises_of handlers 0 msg context)) ∧
  (∀ i, i < length handlers → CallMsgHandler i ∈ r.2 ∧ SettledMsgHandler i ∈ r.2).
Proof.
  intros Hv Hg Hh Hne Hall r. split.
  - by apply handleMsgCall_fan_out.
  - intros i Hi.
    by destruct (handleMsgCall_every_handler s msgName msg context handlers tr i
                   Hv Hg Hh Hall Hi) as (_ & ? & ?).
Qed.

Lemma message_fan_out_witness :
  LS.handleMsgCall (chat_server rejecting_listener quiet_listener) "chat/message"
    VNull a_context [] =
  (Normal tt,
   [Logger L_log "[MSG] chat/message"; CallMsgHandler 0; CallMsgHandler 1;
    SettledMsgHandler 0; Logger L_error "Message handler error for chat/message:";
    SettledMsgHandler 1]).
Proof.
  destruct (message_fan_out (chat_server rejecting_listener quiet_listener)
              "chat/message" VNull a_context [rejecting_listener; quiet_listener] [])
    as (H & _).
  - vm_compute. reflexivity.
  - vm_compute. auto.
  - vm_compute. reflexivity.
  - discriminate.
  - repeat constructor.
  - exact H.
Defined.

(** ** The connection table *)

Lemma JSMap_get_None {V : Type} (m : JSMap.t V) (key : string) :
  JSMap.get m key = None ↔ key ∉ JSMap.keys m.
Proof.
  induction m as [|[k v] m IH]; simpl.
  - split; [intros _; apply not_elem_of_nil | done].
  - destruct (String.eqb_spec k key) as [->|Hne].
    + split; [done|]. intros H. exfalso. apply H. by left.
    + rewrite IH, not_elem_of_cons. split; [by intros ? | by intros [_ ?]].
Qed.


Lemma JSMap_keys_set {V : Type} (m : JSMap.t V) (key : string) (v : V) :
  JSMap.keys (JSMap.set key v m) =
  if bool_decide (key ∈ JSMap.keys m) then JSMap.keys m else JSMap.keys m ++ [key].
Proof.
  induction m as [|[k w] m IH]; simpl.
  - done.
  - destruct (String.eqb_spec k key) as [->|Hne]; simpl.
    + rewrite bool_decide_eq_true_2; [done | by left].
    + unfold JSMap.keys in *. rewrite IH. case_bool_decide as Hin.
      * rewrite bool_decide_eq_true_2; [done | by right].
      * rewrite bool_decide_eq_false_2; [done|].
        rewrite not_elem_of_cons. split; [congruence | done].
Qed.



Lemma JSMap_keys_delete {V : Type} (m : JSMap.t V) (key : string) :
  NoDup (JSMap.keys m) →
  NoDup (JSMap.keys (JSMap.delete key m)) ∧
  (∀ key', key' ∈ JSMap.keys (JSMap.delete key m) ↔
           key' ≠ key ∧ key' ∈ JSMap.keys m).
Proof.
  induction m as [|[k w] m IH]; simpl; intros Hnd.
  - split; [constructor|]. intros key'. rewrite elem_of_nil. intuition congruence.
  - apply NoDup_cons in Hnd as [Hk Hnd]. destruct (IH Hnd) as [IH1 IH2].
    destruct (String.eqb_spec k key) as [->|Hne]; simpl.
    + split; [done|]. intros key'. rewrite elem_of_cons.
      split; [|intuition congruence]. intros Hin. split; [|by right].
      intros ->. done.
    + split.
      * apply NoDup_cons. split; [|done]. rewrite IH2. intuition congruence.
      * intros key'. rewrite !elem_of_cons, IH2. intuition congruence.
Qed.


(** The ids of the connection table stay distinct. *)
Lemma perform_keeps_ids_distinct (c : connection_call) (s : Connections.t) :
  NoDup (JSMap.keys s.(Connections.connections)) →
  NoDup (JSMap.keys (perform c s).(Connections.connections)).
Proof.
  intros Hnd. destruct c as [now connId clientIp connection | now connId reason
                            | connId reason]; simpl.
  - assert (Hset : NoDup (JSMap.keys
                            (JSMap.set connId connection s.(Connections.connections)))).
    { rewrite JSMap_keys_set. case_bool_decide as Hin; [done|].
      apply NoDup_app. split; [done|]. split.
      - intros x Hx Hx'. apply list_elem_of_singleton in Hx' as ->. done.
      - apply NoDup_singleton. }
    unfold Connections.onConnect. by destruct (flow_onConnect _).
  - unfold Connections.onDisconnect.
    destruct (JSMap.get _ connId); [|done].
    destruct (flow_onDisconnect _); simpl; by apply JSMap_keys_delete.
  - unfold Connections.closeConnection.
    destruct (JSMap.get _ connId) as [connection|]; [|done].
    destruct (conn_close connection) as [close|]; simpl;
      [destruct (close reason); simpl|]; try done; by apply JSMap_keys_delete.
Qed.

Lemma perform_all_ids_distinct (cs : list connection_call) (s : Connections.t) :
  NoDup (JSMap.keys s.(Connections.connections)) →
  NoDup (JSMap.keys (perform_all cs s).(Connections.connections)).
Proof.
  revert s. induction cs as [|c cs IH]; intros s Hnd; [done|].
  simpl. by apply IH, perform_keeps_ids_distinct.
Qed.

Lemma reachable_ids_distinct (o : LightweightProtocolOptions)
    (cs : list connection_call) :
  NoDup (JSMap.keys (perform_all cs (Connections.new o)).(Connections.connections)).
Proof. apply perform_all_ids_distinct. constructor. Qed.




(** X18.  What [getConnections] lists, in any state the table can
    reach: one entry for each connected id and no id twice; an id is
    listed exactly when [sendMsg] and [closeConnection] would find it. *)
Theorem getConnections_lists_each_once (o : LightweightProtocolOptions)
    (cs : list connection_call) :
  let s := perform_all cs (Connections.new o) in
  let listed := map ci_id (Connections.getConnections s) in
  NoDup listed ∧
  (∀ connId, connId ∈ listed ↔
             is_Some (JSMap.get s.(Connections.connections) connId)).
Proof.
  intros s listed.
  assert (Hl : listed = JSMap.keys s.(Connections.connections)).
  { subst listed. unfold Connections.getConnections, JSMap.keys.
    rewrite map_map. done. }
  rewrite Hl. split; [apply reachable_ids_distinct|].
  intros connId. pose proof (JSMap_get_None s.(Connections.connections) connId) as H.
  destruct (JSMap.get _ connId) as [c|].
  - split; [by eexists|]. intros _.
    destruct (decide (connId ∈ JSMap.keys s.(Connections.connections))) as [|Hn];
      [done|]. apply H in Hn. done.
  - split; [|by intros [? ?]]. intros Hin. exfalso. by apply H.
Qed.

(** ** Sending *)

Lemma append_nonempty (a b : string) : a ≠ "" → a +:+ b ≠ "".
Proof. destruct a as [|c a]; [done|]. intros _. by rewrite append_cons. Qed.

Lemma message_or_nonempty (m : option string) (fallback : string) :
  fallback ≠ "" → message_or m fallback ≠ "".
Proof.
  intros Hf. unfold message_or. destruct m as [s|]; [|done].
  destruct (String.eqb_spec s ""); done.
Qed.

(** [sendMsg] rejects with one exception only: the [TypeError] of its
    [catch] block. *)
Lemma sendMsg_rejection (P : RPG.Platform) (now : N) (s : Connections.t)
    (connId msgName : string) (msg : value) (t : thrown) :
  (Connections.sendMsg P now s connId msgName msg).1 = Throw t →
  t = TypeError "Cannot read properties of undefined (reading 'message')".
Proof.
  unfold Connections.sendMsg. destruct (JSMap.get _ connId); [|done]. simpl.
  destruct (Connections.send_body _ _ _ _ _ _ _).1 as [r|e]; [done|].
  destruct e; simpl; congruence.
Qed.


(** X20.  The shape of every answer of [sendMsg]: a success carries no
    [errMsg], a failure carries a non-empty one (an exception with an
    empty or missing message is reported as [Send message failed]). *)
Theorem sendMsg_result_shape (P : RPG.Platform) (now : N) (s : Connections.t)
    (connId msgName : string) (msg : value) (result : SendResult) :
  (Connections.sendMsg P now s connId msgName msg).1 = Normal result →
  if result.(sr_isSucc) then result.(sr_errMsg) = None
  else ∃ text, result.(sr_errMsg) = Some text ∧ text ≠ "".
Proof.
  assert (Hfail : ∀ text, text ≠ "" →
    if (not_sent text).(sr_isSucc) then (not_sent text).(sr_errMsg) = None
    else ∃ text', (not_sent text).(sr_errMsg) = Some text' ∧ text' ≠ "").
  { intros text Ht. simpl. by exists text. }
  assert (Hcatch : ∀ t r, Connections.send_catch t = Normal r →
    if r.(sr_isSucc) then r.(sr_errMsg) = None
    else ∃ text, r.(sr_errMsg) = Some text ∧ text ≠ "").
  { intros t r Hr.
    assert (∃ text, r = not_sent text ∧ text ≠ "") as (text & -> & Ht).
    { destruct t as [|m c ty|m c ty]; [done|..].
      - exists (message_or (Some m) "Send message failed").
        split; [by injection Hr as <- | by apply message_or_nonempty].
      - exists (message_or m "Send message failed").
        split; [by injection Hr as <- | by apply message_or_nonempty]. }
    by apply Hfail. }
  unfold Connections.sendMsg.
  destruct (JSMap.get _ connId) as [connection|]; simpl.
  - unfold Connections.send_body.
    destruct (RPG.validateMessage _ _ _) as [[|]|t]; simpl.
    + destruct (flow_preMsgSend _) as [hook|]; simpl.
      * destruct (await _) as [[]|t]; simpl; [|apply Hcatch].
        destruct (invokes_next _); simpl.
        -- destruct (RPG.serialize _ _ _ _) as [w|t]; [|apply Hcatch].
           by intros [= <-].
        -- intros [= <-]. by apply Hfail.
      * destruct (RPG.serialize _ _ _ _) as [w|t]; [|apply Hcatch].
        by intros [= <-].
    + intros [= <-]. by apply Hfail, append_nonempty.
    + apply Hcatch.
  - intros [= <-]. by apply Hfail, append_nonempty.
Qed.

Lemma sendMsg_result_shape_witness :
  ∃ text,
    (not_sent "Connection not found: http_9").(sr_errMsg) = Some text ∧ text ≠ "".
Proof.
  apply (sendMsg_result_shape MiniPlatform.platform 5 two_clients "http_9"
           "chat/message" VNull (not_sent "Connection not found: http_9")).
  reflexivity.
Defined.

(** X21.  The three decisions of [sendMsg] for a connected id.  A
    message the validation rejects is not sent and the hook is not
    called.  A [preMsgSend] hook that returns without invoking its
    continuation cancels the send.  With the message accepted, the gate
    open and the packet serializable, the answer is a success; the hook
    has been given a context whose [clientIp] is the connection's [ip],
    or ["unknown"] when that is missing or empty. *)
Theorem sendMsg_decisions (P : RPG.Platform) (now : N) (s : Connections.t)
    (connId msgName : string) (msg : value) (connection : Connection) :
  JSMap.get s.(Connections.connections) connId = Some connection →
  let g := s.(Connections.server).(LS.protocolGenerator) in
  let context :=
    Connections.createCallContext now connId (or_unknown connection.(conn_ip)) in
  let data := {| pms_msgName := msgName; pms_msg := msg; pms_connId := connId |} in
  let r := Connections.sendMsg P now s connId msgName msg in
  (RPG.validateMessage g msgName msg = Normal false →
     r = (Normal (not_sent ("Invalid message data for: " ++ msgName)), [])) ∧
  (RPG.validateMessage g msgName msg = Normal true →
     (∀ hook, s.(Connections.flows).(flow_preMsgSend) = Some hook →
        await (hook data context).(outcome) = Normal tt →
        (hook data context).(invokes_next) = false →
        r = (Normal (not_sent "Message send canceled by preMsgSend flow"),
             [CallFlow PreMsgSend context])) ∧
     (gate_open s.(Connections.flows).(flow_preMsgSend) data context →
      (∃ wire, RPG.serialize P g (Connections.msg_packet g msgName msg) None
               = Normal wire) →
      r = (Normal {| sr_isSucc := true; sr_errMsg := None |},
           send_gate_events now s connId connection))).
Proof.
  intros Hg g context data r. subst r.
  unfold Connections.sendMsg. rewrite Hg. unfold Connections.send_body.
  fold g. split; [by intros ->|]. intros ->. split.
  - intros hook Hh Ho Hn. rewrite Hh. simpl. fold context data.
    by rewrite Ho, Hn.
  - unfold send_gate_events. intros Hopen [wire Hw].
    destruct (flow_preMsgSend _) as [hook|]; simpl in *.
    + fold context data. destruct Hopen as [-> ->]. simpl. by rewrite Hw.
    + by rewrite Hw.
Qed.

Lemma sendMsg_decisions_witness :
  Connections.sendMsg MiniPlatform.platform 5 guarded_clients "http_2"
    "chat/message" VNull =
  (Normal (not_sent "Message send canceled by preMsgSend flow"),
   [CallFlow PreMsgSend (Connections.createCallContext 5 "http_2" "10.0.0.2")]).
Proof.
  destruct (sendMsg_decisions MiniPlatform.platform 5 guarded_clients "http_2"
              "chat/message" VNull (http_connection "10.0.0.2" "OPENED"))
    as [_ H]; [reflexivity|].
  destruct H as [H _]; [vm_compute; reflexivity|].
  apply (H only_first_client); reflexivity.
Defined.

Lemma broadcast_entries (f : string → completion SendResult * list connection_event)
    (ids : list string) :
  Connections.first_throw (map (fun send : string * _ => send.2.1)
                             (map (fun connId => (connId, f connId)) ids)) = None →
  let entries :=
    omap (fun send : string * (completion SendResult * list connection_event) =>
            match send.2.1 with
            | Normal result =>
                Some {| be_connId := send.1;
                        be_success := result.(sr_isSucc);
                        be_error := result.(sr_errMsg) |}
            | Throw _ => None
            end) (map (fun connId => (connId, f connId)) ids) in
  map be_connId entries = ids ∧
  (∀ e, e ∈ entries →
        (f e.(be_connId)).1 =
        Normal {| sr_isSucc := e.(be_success); sr_errMsg := e.(be_error) |}).
Proof.
  induction ids as [|connId ids IH]; simpl.
  - intros _. split; [done|]. intros e He. by apply elem_of_nil in He.
  - destruct (f connId).1 as [result|t] eqn:E; [|done].
    intros Hrest. destruct (IH Hrest) as [IH1 IH2].
    split; [simpl; by f_equal|].
    intros e He. apply elem_of_cons in He as [-> | He]; [|by apply IH2].
    simpl. rewrite E. by destruct result.
Qed.

Lemma no_failure_iff (results : list BroadcastEntry) :
  length (List.filter (fun r => negb r.(be_success)) results) = 0 ↔
  Forall (fun e => e.(be_success) = true) results.
Proof.
  induction results as [|e results IH]; simpl.
  - split; [constructor | done].
  - destruct (be_success e) eqn:E; simpl.
    + rewrite IH. split; [by constructor|]. by inversion 1.
    + split; [done|]. inversion 1; congruence.
Qed.

(** X22.  What a broadcast that completes reports, whatever the order in
    which the sends complete.  [results] has exactly one entry for every
    connection that is not excluded, and none for an excluded one; each
    entry is the answer [sendMsg] gives for that connection; [isSucc] is
    true exactly when every entry is a success, and exactly then there
    is no [errMsg]. *)
Theorem broadcastMsg_accounts_for_every_target (P : RPG.Platform) (now : N)
    (arrival : list BroadcastEntry → list BroadcastEntry) (s : Connections.t)
    (msgName : string) (msg : value) (excludeConnIds : option (list string))
    (result : BroadcastResult) :
  (∀ entries, arrival entries ≡ₚ entries) →
  (Connections.broadcastMsg P now arrival s msgName msg excludeConnIds).1
    = Normal result →
  map be_connId result.(br_results) ≡ₚ Connections.targets s excludeConnIds ∧
  (∀ connId, connId ∈ map be_connId result.(br_results) ↔
     is_Some (JSMap.get s.(Connections.connections) connId) ∧
     connId ∉ default [] excludeConnIds) ∧
  (∀ e, e ∈ result.(br_results) →
     (Connections.sendMsg P now s e.(be_connId) msgName msg).1 =
     Normal {| sr_isSucc := e.(be_success); sr_errMsg := e.(be_error) |}) ∧
  (result.(br_isSucc) = true ↔
     Forall (fun e => e.(be_success) = true) result.(br_results)) ∧
  (result.(br_isSucc) = true ↔ result.(br_errMsg) = None).
Proof.
  intros Harr. unfold Connections.broadcastMsg.
  set (f := fun connId => Connections.sendMsg P now s connId msgName msg).
  set (ids := Connections.targets s excludeConnIds).
  change (map (fun connId => (connId, Connections.sendMsg P now s connId msgName msg)) ids)
    with (map (fun connId => (connId, f connId)) ids).
  destruct (Connections.first_throw _) as [t|] eqn:Ht; [done|].
  destruct (broadcast_entries f ids Ht) as [Hids Hent].
  set (entries := omap _ _) in *. simpl. intros [= <-]. simpl.
  assert (Hperm : map be_connId (arrival entries) ≡ₚ ids).
  { rewrite <- Hids. by apply fmap_Permutation. }
  split; [exact Hperm|]. split.
  { intros connId. rewrite Hperm. subst ids. unfold Connections.targets.
    rewrite list_elem_of_filter.
    pose proof (JSMap_get_None s.(Connections.connections) connId) as Hn.
    split.
    - intros [Hex Hin]. split; [|done].
      destruct (JSMap.get _ connId); [by eexists|].
      exfalso. by apply Hn.
    - intros [[c Hc] Hex]. split; [done|].
      destruct (decide (connId ∈ JSMap.keys s.(Connections.connections)));
        [done|]. apply Hn in n. congruence. }
  split.
  { intros e He. apply Hent. by rewrite <- (Harr entries). }
  split.
  - rewrite Nat.eqb_eq. apply no_failure_iff.
  - destruct (length _) as [|n]; simpl; [done|]. split; discriminate.
Qed.

Lemma broadcastMsg_accounts_for_every_target_witness :
  ∃ result,
    (Connections.broadcastMsg MiniPlatform.platform 5 (@rev BroadcastEntry)
       guarded_clients "chat/message" VNull None).1 = Normal result ∧
    map be_connId result.(br_results) ≡ₚ ["http_1"; "http_2"] ∧
    result.(br_isSucc) = false ∧
    result.(br_errMsg) = Some "1 connections failed to receive message".
Proof.
  eexists. split; [vm_compute; reflexivity|].
  destruct (broadcastMsg_accounts_for_every_target MiniPlatform.platform 5
              (@rev BroadcastEntry) guarded_clients "chat/message" VNull None
              _ (fun entries => symmetry (Permutation_rev entries)) eq_refl)
    as (H & _).
  split; [exact H|]. split; reflexivity.
Defined.

(** ** Reading server input *)

(** X23.  [parseServerInput] accepts every packet that decodes to an
    object with a non-empty string [type], and a non-empty string
    [serviceName] that is registered in the namespace the [type] selects
    ([api] for ["api"], the message namespace for anything else).  The
    result carries the id the local registry has for the name: a
    [serviceId] member of the packet is not read, so the two sides need
    not agree on ids.  [data] and [sn] are handed on as they are,
    [undefined] when missing. *)
Theorem parseServerInput_resolves_by_name (P : RPG.Platform) (g : RPG.t)
    (wire : RPG.serialized) (fields : list (string * value))
    (type name : string) (id : N) :
  RPG.deserialize P wire = Normal (VObj fields) →
  own_property fields "type" = Some (VStr type) → type ≠ "" →
  own_property fields "serviceName" = Some (VStr name) → name ≠ "" →
  bound_id g (kind_of (VStr type)) name = Some id →
  parseServerInput P g wire =
  Normal (Some {| in_type := VStr type; in_serviceName := VStr name;
                  in_serviceId := RPG.ServiceId id;
                  in_data := default VUndefined (own_property fields "data");
                  in_sn := default VUndefined (own_property fields "sn") |}).
Proof.
  intros Hd Ht Hte Hn Hne Hb.
  unfold parseServerInput, parse_input_body. rewrite Hd. simpl.
  rewrite Ht. simpl.
  destruct (String.eqb_spec type ""); [done|]. simpl.
  rewrite Hn. simpl.
  destruct (String.eqb_spec name ""); [done|]. simpl.
  assert (Hid : RPG.getServiceId g name
                  (if String.eqb type "api" then RPG.api else RPG.msg)
                = Some (RPG.ServiceId id)).
  { simpl in Hb. destruct (String.eqb type "api"); simpl in *;
      by rewrite (get_own _ _ _ Hb). }
  by rewrite Hid.
Qed.

Lemma parseServerInput_resolves_by_name_witness :
  ∃ wire,
    RPG.serialize MiniPlatform.platform (RPG.new no_options)
      (Connections.msg_packet (RPG.new no_options) "chat/message" VNull) None
    = Normal wire ∧
    parseServerInput MiniPlatform.platform chat_registry wire =
    Normal (Some {| in_type := VStr "msg"; in_serviceName := VStr "chat/message";
                    in_serviceId := RPG.ServiceId 1; in_data := VNull;
                    in_sn := VUndefined |}).
Proof.
  eexists. split; [vm_compute; reflexivity|].
  apply (parseServerInput_resolves_by_name MiniPlatform.platform chat_registry _
           [("type", VStr "msg"); ("serviceName", VStr "chat/message");
            ("data", VNull)] "msg" "chat/message" 1).
  - vm_compute. reflexivity.
  - reflexivity.
  - discriminate.
  - reflexivity.
  - discriminate.
  - vm_compute. reflexivity.
Defined.


(** ** HTTP routing *)

Lemma startsWith_append (a b : string) : JSString.startsWith (a +:+ b) a = true.
Proof.
  induction a as [|c a IH]; [by destruct b|].
  rewrite ?append_cons. simpl. by rewrite Ascii.eqb_refl, IH.
Qed.

Lemma slice_from_append (a b : string) :
  JSString.slice_from (String.length a) (a +:+ b) = b.
Proof. induction a as [|c a IH]; [done|]. by rewrite ?append_cons. Qed.

Lemma slice_to_append (a b : string) :
  JSString.slice_to (String.length a) (a +:+ b) = a.
Proof.
  induction a as [|c a IH]; [by destruct b|].
  rewrite ?append_cons. simpl. by rewrite IH.
Qed.

Lemma endsWith_append (a b : string) : JSString.endsWith (a +:+ b) b = true.
Proof.
  unfold JSString.endsWith. rewrite length_append.
  apply andb_true_iff. split; [apply Nat.leb_le; lia|].
  replace (String.length a + String.length b - String.length b)
    with (String.length a) by lia.
  rewrite slice_from_append. apply String.eqb_refl.
Qed.

Lemma startsWith_grows (s p suffix : string) :
  JSString.startsWith s p = true → JSString.startsWith (s +:+ suffix) p = true.
Proof.
  revert s. induction p as [|c p IH]; intros s; [by destruct (s +:+ suffix)|].
  destruct s as [|x s]; [done|]. rewrite ?append_cons. simpl.
  intros H. apply andb_true_iff in H as [-> H]. by rewrite IH.
Qed.

Lemma indexOf_append (a b : string) (c : ascii) :
  JSString.indexOf a c = None →
  JSString.indexOf (a +:+ String c b) c = Some (String.length a).
Proof.
  induction a as [|x a IH]; simpl.
  - intros _. change ("" +:+ String c b) with (String c b). simpl.
    by rewrite Ascii.eqb_refl.
  - rewrite ?append_cons. simpl. destruct (Ascii.eqb x c); [done|].
    destruct (JSString.indexOf a c); [done|]. intros _. by rewrite IH.
Qed.

Lemma indexOf_prefix (a b : string) (c : ascii) :
  JSString.indexOf (a +:+ b) c = None → JSString.indexOf a c = None.
Proof.
  induction a as [|x a IH]; [done|]. rewrite ?append_cons. simpl.
  destruct (Ascii.eqb x c); [done|].
  destruct (JSString.indexOf (a +:+ b) c) eqn:E; [done|]. intros _.
  by rewrite IH.
Qed.

(** X25.  [formatJsonHostPath] yields a path that starts and ends with a
    slash, whatever it is given, and leaves such a path as it is; so
    formatting twice is formatting once. *)
Theorem formatJsonHostPath_normalizes (path : string) :
  let formatted := Http.formatJsonHostPath path in
  JSString.startsWith formatted "/" = true ∧
  JSString.endsWith formatted "/" = true ∧
  Http.formatJsonHostPath formatted = formatted ∧
  (JSString.startsWith path "/" = true → JSString.endsWith path "/" = true →
   formatted = path).
Proof.
  assert (Hfix : ∀ p, JSString.startsWith p "/" = true →
                      JSString.endsWith p "/" = true →
                      Http.formatJsonHostPath p = p).
  { intros p Hs He. unfold Http.formatJsonHostPath. by rewrite Hs, He. }
  assert (Hs : JSString.startsWith (Http.formatJsonHostPath path) "/" = true).
  { unfold Http.formatJsonHostPath.
    destruct (JSString.startsWith path "/") eqn:E.
    - destruct (JSString.endsWith path "/"); [done|]. by apply startsWith_grows.
    - destruct (JSString.endsWith ("/" +:+ path) "/");
        [|apply startsWith_grows]; apply (startsWith_append "/" path). }
  assert (He : JSString.endsWith (Http.formatJsonHostPath path) "/" = true).
  { unfold Http.formatJsonHostPath.
    set (slashed := if JSString.startsWith path "/" then path else "/" +:+ path).
    destruct (JSString.endsWith slashed "/") eqn:E; [done|].
    apply endsWith_append. }
  simpl. split; [done|]. split; [done|]. split; [by apply Hfix|]. apply Hfix.
Qed.

(** X26.  Routing undoes URL building.  For a host path and a service
    name without a question mark, the name not empty, the URL made of
    the host path followed by the name is routed to that name as an API
    call; with a query string appended it is routed to the same name,
    as a message exactly when [type=msg] is one of the [&]-separated
    parts of the query. *)
Theorem parseUrlPath_round_trip (jsonHostPath serviceName query : string) :
  JSString.indexOf (jsonHostPath +:+ serviceName) "?" = None →
  serviceName ≠ "" →
  Http.parseUrlPath jsonHostPath (jsonHostPath +:+ serviceName)
    = (Some serviceName, false) ∧
  Http.parseUrlPath jsonHostPath (jsonHostPath +:+ serviceName +:+ "?" +:+ query)
    = (Some serviceName,
       bool_decide ("type=msg" ∈ JSString.split query "&")).
Proof.
  intros Hq Hne.
  split.
  - unfold Http.parseUrlPath. rewrite Hq.
    rewrite startsWith_append, slice_from_append. simpl.
    by destruct (String.eqb_spec serviceName "").
  - unfold Http.parseUrlPath.
    replace (jsonHostPath +:+ serviceName +:+ "?" +:+ query)
      with ((jsonHostPath +:+ serviceName) +:+ String "?" query)
      by (by rewrite append_assoc).
    rewrite (indexOf_append _ _ _ Hq), slice_to_append.
    replace (JSString.slice_from (S (String.length (jsonHostPath +:+ serviceName)))
               ((jsonHostPath +:+ serviceName) +:+ String "?" query))
      with query.
    + rewrite startsWith_append, slice_from_append. simpl.
      by destruct (String.eqb_spec serviceName "").
    + change (String "?" query) with ("?" +:+ query).
      rewrite <- append_assoc.
      replace (S (String.length (jsonHostPath +:+ serviceName)))
        with (String.length ((jsonHostPath +:+ serviceName) +:+ "?"))
        by (rewrite (length_append _ "?"); simpl; lia).
      by rewrite slice_from_append.
Qed.

Lemma parseUrlPath_round_trip_witness :
  Http.parseUrlPath (Http.formatJsonHostPath "/api") "/api/chat/message?v=2&type=msg"
  = (Some "chat/message", true).
Proof.
  destruct (parseUrlPath_round_trip "/api/" "chat/message" "v=2&type=msg")
    as [_ H]; [reflexivity | discriminate |].
  exact H.
Defined.

(** ** HTTP requests *)






(** X29.  The requests [handleRequest] answers before it makes a
    connection, in the order it checks: [OPTIONS] gets an empty 200; any
    other method but [POST] gets 405; a body longer than [maxBodySize]
    gets 413; a URL that does not lead to a service name gets 400.  In
    each case the server is left as it was: no connection is stored, no
    hook is called and nothing is dispatched. *)
Theorem request_answered_before_connecting (P : RPG.Platform)
    (toString : list Byte.byte → string) (options : Http.ServerOptions)
    (connected called disconnected : N) (connId clientIp : string)
    (req : Http.HttpRequest) (s : Connections.t) :
  let h := Http.handleRequest P toString options connected called disconnected
             connId clientIp req s in
  (req.(Http.req_method) = "OPTIONS" →
   h = Http.answered {| statusCode := 200; contentType := None;
                        body := Text None |} s) ∧
  (req.(Http.req_method) ≠ "OPTIONS" → req.(Http.req_method) ≠ "POST" →
   h = Http.answered (Http.sendError P 405 "Method not allowed") s) ∧
  (req.(Http.req_method) = "POST" →
   ∀ bytes, req.(Http.req_body) = Normal bytes →
     ((options.(Http.maxBodySize) < N.of_nat (length bytes))%N →
      h = Http.answered (Http.sendError P 413 "Request body too large") s) ∧
     ((N.of_nat (length bytes) ≤ options.(Http.maxBodySize))%N →
      (Http.parseUrlPath options.(Http.jsonHostPath)
         (message_or req.(Http.req_url) "/")).1 = None →
      h = Http.answered (Http.sendError P 400 "Invalid API path") s)).
Proof.
  intros h. subst h. unfold Http.handleRequest. split; [|split].
  - intros ->. done.
  - intros H1 H2.
    destruct (String.eqb_spec (Http.req_method req) "OPTIONS"); [done|].
    destruct (String.eqb_spec (Http.req_method req) "POST"); done.
  - intros -> bytes ->. simpl. split.
    + intros Hlen. apply N.ltb_lt in Hlen. by rewrite Hlen.
    + intros Hlen Hroute.
      assert (Hl : (Http.maxBodySize options <? N.of_nat (length bytes))%N = false)
        by (apply N.ltb_ge; lia).
      rewrite Hl.
      destruct (Http.parseUrlPath _ _) as [name isMsg]. simpl in Hroute.
      by subst name.
Qed.


